(** * Contact calibration (Muscollo sandbox, sandboxCalibrateContact.cpp)

    A shallow embedding of the calibration core of
    [src/Muscollo/Sandbox/sandboxMarkerTrackingContactWholeBody/sandboxCalibrateContact.cpp]:
    the linear contact law [contact_force], the parameter mapping
    [ContactCalibration::applyParametersToModel], the objective
    [ContactCalibration::calc_objective] with its thread-keyed pool of
    working models, and the reporting routine
    [ContactCalibration::printContactComparison].

    C++ [double] is IEEE 754 binary64; it is modelled by [spec_float] with
    precision 53 and maximal exponent 1024, every operation rounding to
    nearest, ties to even.  The OpenSim/Simbody services the file calls but
    does not define (contact force of one element, total mass, gravity) are
    parameters of the development. *)

From stdpp Require Import gmap strings pretty list fin_maps.
From Stdlib Require Import ZArith QArith Lia Lra Psatz.
From Stdlib Require Import Floats.SpecFloat.

Open Scope Z_scope.

(* ===================================================================== *)
(** * Part I: definitions *)
(* ===================================================================== *)

(** ** binary64 arithmetic *)

Module B64.

Definition prec : Z := 53.
Definition emax : Z := 1024.

Definition double : Type := spec_float.

Definition dadd : double → double → double := SFadd prec emax.
Definition dsub : double → double → double := SFsub prec emax.
Definition dmul : double → double → double := SFmul prec emax.
Definition ddiv : double → double → double := SFdiv prec emax.

(** Conversion of an integer (an [int] or [size_t] operand, an integer
    literal) to [double]. *)
Definition of_Z (z : Z) : double := binary_normalize prec emax z 0 false.

(** A decimal literal [n/d] with [n] and [d] below 2^53: the correctly
    rounded quotient is the double nearest to the literal. *)
Definition of_decimal (n d : Z) : double := ddiv (of_Z n) (of_Z d).

Definition dzero : double := S754_zero false.

Definition dlt (x y : double) : bool := SFltb x y.
Definition dle (x y : double) : bool := SFleb x y.

(** C [fmax]: a NaN argument is ignored, otherwise the larger one. *)
Definition fmax (x y : double) : double :=
  match x, y with
  | S754_nan, _ => y
  | _, S754_nan => x
  | _, _ => if dlt x y then y else x
  end.

(** [pow(r, 2)]: the square, rounded once. *)
Definition pow2 (r : double) : double := dmul r r.

Definition is_nan (x : double) : bool :=
  match x with S754_nan => true | _ => false end.

Definition is_finite (x : double) : bool :=
  match x with S754_zero _ | S754_finite _ _ _ => true | _ => false end.

(** The bit patterns that are doubles: canonical mantissa and exponent. *)
Definition well_formed (x : double) : bool := valid_binary prec emax x.

(** Summation in list order, starting from 0, as an accumulating loop does. *)
Definition dsum (l : list double) : double := fold_left dadd l dzero.

End B64.

Export B64.

(** ** The scalar interface of the templates

    [contact_force] is a template over its scalar type [T]; it is used at
    [double] and at the automatic-differentiation type of the optimal
    control solver.  The operations it needs are collected in a class.  The
    instance at [double] is the program; the instance at [Q] evaluates the
    same expressions without rounding. *)

Class Scalar (T : Type) : Type := {
  s_int : Z → T;
  s_decimal : Z → Z → T;
  s_add : T → T → T;
  s_sub : T → T → T;
  s_mul : T → T → T;
  s_fmax : T → T → T;
}.

Declare Scope scalar_scope.
Delimit Scope scalar_scope with sc.
Infix "⊕" := s_add (at level 50, left associativity) : scalar_scope.
Infix "⊖" := s_sub (at level 50, left associativity) : scalar_scope.
Infix "⊗" := s_mul (at level 40, left associativity) : scalar_scope.

#[export] Instance double_scalar : Scalar double := {|
  s_int := of_Z;
  s_decimal := of_decimal;
  s_add := dadd;
  s_sub := dsub;
  s_mul := dmul;
  s_fmax := fmax;
|}.

Definition Qmax (a b : Q) : Q := if Qlt_le_dec a b then b else a.

#[export] Instance Q_scalar : Scalar Q := {|
  s_int := inject_Z;
  s_decimal := λ n d, Qmake n (Z.to_pos d);
  s_add := Qplus;
  s_sub := Qminus;
  s_mul := Qmult;
  s_fmax := Qmax;
|}.

(** ** The contact law: [contact_force], lines 35-45 *)

Section ContactLaw.
Context {T : Type} `{Scalar T}.
Local Open Scope scalar_scope.

Definition stiffness_fictitious : T := s_int 1.
Definition ground_height : T := s_int 0.

(** Positive if penetrated. *)
Definition depth_of (y : T) : T := ground_height ⊖ y.

Definition contact_force (stiffness y : T) : T :=
  let depth := ground_height ⊖ y in
  let depth_pos := s_fmax (s_int 0) depth in
  let contact_normal_force :=
    stiffness ⊗ depth_pos ⊕ stiffness_fictitious ⊗ depth in
  contact_normal_force.

(** The law as the specification words it, on the penetration depth. *)
Definition force_of_depth_spec (stiffness depth : T) : T :=
  stiffness ⊗ s_fmax (s_int 0) depth ⊕ stiffness_fictitious ⊗ depth.

(** The affine map of [applyMarkerHeight], lines 155-157. *)
Definition lower : T := s_decimal (-6) 100.
Definition upper : T := s_decimal 5 100.
Definition markerHeight (normHeight : T) : T :=
  lower ⊕ normHeight ⊗ (upper ⊖ lower).

(** The stiffness set at lines 170-171. *)
Definition scaledStiffness (forceScalingFactor x : T) : T :=
  forceScalingFactor ⊗ x.
End ContactLaw.

(** [double forceScalingFactor = 1e8;] *)
Definition forceScalingFactor : double := of_Z 100000000.

(** ** Exceptions *)

Inductive Exception : Type :=
  | ComponentNotFound (name : string)
  | IndexOutOfRange (i : Z)
  | EmptyTrajectory.

Inductive Result (A : Type) : Type :=
  | Ok (a : A)
  | Err (e : Exception).
Arguments Ok {A} a.
Arguments Err {A} e.

#[export] Instance Result_ret : MRet Result := λ A a, Ok a.
#[export] Instance Result_bind : MBind Result := λ A B f r,
  match r with
  | Ok a => f a
  | Err e => Err e
  end.

Definition succeeds {A} (r : Result A) : bool :=
  match r with Ok _ => true | Err _ => false end.

(** ** The model, as far as the calibration reads and writes it *)

Record Vec3 : Type := mkVec3 { v0 : double; v1 : double; v2 : double }.

(** [v[1] = y] *)
Definition set_v1 (v : Vec3) (y : double) : Vec3 := mkVec3 (v0 v) y (v2 v).

Record Marker : Type := mkMarker {
  parent_frame : string;
  location : Vec3;
}.

Definition upd_location1 (marker : Marker) (y : double) : Marker :=
  mkMarker (parent_frame marker) (set_v1 (location marker) y).

Record AckermannVanDenBogert2010Force : Type := mkContact {
  contact_name : string;
  stiffness : double;
  friction_coefficient : double;
  tangent_velocity_scaling_factor : double;
  station : string;
}.

Definition set_stiffness (contact : AckermannVanDenBogert2010Force)
    (k : double) : AckermannVanDenBogert2010Force :=
  mkContact (contact_name contact) k (friction_coefficient contact)
    (tangent_velocity_scaling_factor contact) (station contact).

(** Markers are found by name; the contact elements are listed in the
    order in which they were added ([updComponentList]). *)
Record Model : Type := mkModel {
  markers : gmap string Marker;
  contacts : list AckermannVanDenBogert2010Force;
}.

Definition set_markers (model : Model) (ms : gmap string Marker) : Model :=
  mkModel ms (contacts model).
Definition set_contacts (model : Model)
    (cs : list AckermannVanDenBogert2010Force) : Model :=
  mkModel (markers model) cs.

(** Modelled from the spec: [Model::initSystem] is not in the sources.  It
    fails when an element the model refers to is absent (here: the marker
    a contact element is attached to) and otherwise leaves the properties
    read by the calibration as they are. *)
Definition initSystem (model : Model) : Result Model :=
  match
    list_find (λ c, markers model !! station c = None) (contacts model)
  with
  | Some (_, c) => Err (ComponentNotFound (station c))
  | None => Ok model
  end.

(** ** States and the trajectory *)

Inductive Stage : Type := Stage_Time | Stage_Position | Stage_Velocity.

Record State : Type := mkState {
  time : double;
  state_q : list double;
  state_u : list double;
  stage : Stage;
}.

(** [realizeVelocity] fills the cache of the state it is given; the
    coordinates, speeds and time stay. *)
Definition realizeVelocity (model : Model) (state : State) : State :=
  mkState (time state) (state_q state) (state_u state) Stage_Velocity.

(** The experimental force: a spline queried by time. *)
Record GCVSpline : Type := mkSpline { calcValue : double → double }.

(** ** [Eigen::VectorXd] *)

Abbreviation VectorXd := (list double).

(** [x[i]]; an index outside the vector is an error. *)
Definition vec_at (x : VectorXd) (i : Z) : Result double :=
  if decide (i < 0) then Err (IndexOutOfRange i)
  else match x !! Z.to_nat i with
       | Some v => Ok v
       | None => Err (IndexOutOfRange i)
       end.

(** ** [ContactCalibration] *)

Definition thread_id : Type := positive.

Record ContactCalibration : Type := mkContactCalibration {
  m_model : Model;
  m_statesTraj : list State;
  m_FySpline : GCVSpline;
  m_numContacts : Z;
  m_workingModels : gmap thread_id Model;
}.

Definition set_model (self : ContactCalibration) (model : Model)
    : ContactCalibration :=
  mkContactCalibration model (m_statesTraj self) (m_FySpline self)
    (m_numContacts self) (m_workingModels self).
Definition set_workingModels (self : ContactCalibration)
    (wm : gmap thread_id Model) : ContactCalibration :=
  mkContactCalibration (m_model self) (m_statesTraj self) (m_FySpline self)
    (m_numContacts self) wm.

(** The constructor, lines 129-148: it initializes the model it is given
    and builds the spline of the vertical force from the force file; the
    file being outside the program, the spline is an argument here.  No
    working model exists yet. *)
Definition construct (model : Model) (statesTraj : list State)
    (FySpline : GCVSpline) (numContacts : Z) : Result ContactCalibration :=
  model ← initSystem model;
  Ok (mkContactCalibration model statesTraj FySpline numContacts ∅).

(** *** [applyParametersToModel], lines 150-174 *)

(** ["marker" + std::to_string(icontact)] *)
Definition marker_name (icontact : Z) : string :=
  "marker" +:+ pretty icontact.

(** The lambda [applyMarkerHeight]: [updComponent<Marker>(name)] throws
    when the model has no such marker. *)
Definition applyMarkerHeight (model : Model) (name : string)
    (normHeight : double) : Result Model :=
  match markers model !! name with
  | None => Err (ComponentNotFound name)
  | Some marker =>
      Ok (set_markers model
            (<[name := upd_location1 marker (markerHeight normHeight)]>
               (markers model)))
  end.

(** [for (int icontact = 0; icontact < m_numContacts; ++icontact)] *)
Fixpoint markerLoop (x : VectorXd) (icontacts : list Z) (model : Model)
    : Result Model :=
  match icontacts with
  | [] => Ok model
  | icontact :: rest =>
      normHeight ← vec_at x icontact;
      model' ← applyMarkerHeight model (marker_name icontact) normHeight;
      markerLoop x rest model'
  end.

(** [for (auto& contact : model.updComponentList<...>())] with the running
    index [icontact]. *)
Fixpoint stiffnessLoop (x : VectorXd) (numContacts icontact : Z)
    (cs : list AckermannVanDenBogert2010Force)
    : Result (list AckermannVanDenBogert2010Force) :=
  match cs with
  | [] => Ok []
  | contact :: rest =>
      xi ← vec_at x (icontact + numContacts);
      rest' ← stiffnessLoop x numContacts (icontact + 1) rest;
      Ok (set_stiffness contact (scaledStiffness forceScalingFactor xi)
            :: rest')
  end.

Definition applyParametersToModel (numContacts : Z) (x : VectorXd)
    (model : Model) : Result Model :=
  model1 ← markerLoop x (seqZ 0 numContacts) model;
  cs ← stiffnessLoop x numContacts 0 (contacts model1);
  Ok (set_contacts model1 cs).

(** Reading the set quantities back from a model. *)
Definition markerHeightOf (model : Model) (icontact : Z) : option double :=
  (λ marker, v1 (location marker)) <$> markers model !! marker_name icontact.
Definition stiffnessOf (model : Model) (icontact : nat) : option double :=
  stiffness <$> contacts model !! icontact.
Definition readParameters (numContacts : Z) (model : Model)
    : list (option double) :=
  (markerHeightOf model <$> seqZ 0 numContacts)
    ++ (stiffnessOf model <$> seq 0 (length (contacts model))).

(** *** The objective and the report, lines 176-270 *)

(** A row of the comparison table: time, simulated and experimental
    vertical force. *)
Definition TimeSeriesTable : Type := list (double * (double * double)).

(** ** The pool of working models *)

(** Two models on which every parameter vector has the same effect. *)
Definition equiv_params (numContacts : Z) (m1 m2 : Model) : Prop :=
  ∀ y, applyParametersToModel numContacts y m1
       = applyParametersToModel numContacts y m2.

(** Every working model stems from [m_model]: it differs from it at most
    in quantities that [applyParametersToModel] sets. *)
Definition consistent (self : ContactCalibration) : Prop :=
  ∀ tid model, m_workingModels self !! tid = Some model →
    equiv_params (m_numContacts self) model (m_model self).

(** *** Evaluations in progress on several threads

    [calc_objective] is called from the worker threads of the optimizer.
    The place a thread has reached in it: *)
Inductive Control : Type :=
  | AtCount (x : VectorXd)    (* line 186, before [count(thread_id)] *)
  | AtLock (x : VectorXd)     (* line 187, the count was 0 *)
  | AtInsert (x : VectorXd)   (* line 188, holding [m_modelMutex] *)
  | AtUnlock (x : VectorXd)   (* line 189 *)
  | AtInit (x : VectorXd)     (* line 190 *)
  | AtApply (x : VectorXd)    (* lines 192-198 *)
  | AtLoops (x : VectorXd)    (* lines 209-236 *)
  | Done (x : VectorXd) (obj_value : double)
  | Thrown (e : Exception).

(** What happened to the container [m_workingModels] since the caller
    last synchronized the threads: the threads that accessed it, the
    threads that inserted an element into it, and whether two accesses
    made a data race.  A record about the execution, not program state. *)
Record History : Type := mkHistory {
  accessed : gset thread_id;
  inserted : gset thread_id;
  raced : bool;
}.

(** The object, the owner of its mutex, the threads inside
    [calc_objective], and two records that are not program state: the
    threads for which line 188 made a copy of [m_model] (latest first),
    and the history of the container. *)
Record World : Type := mkWorld {
  object : ContactCalibration;
  m_modelMutex : option thread_id;
  control : gmap thread_id Control;
  clones : list thread_id;
  history : History;
}.

(** What the caller and the threads do.  [Sync] is the only
    synchronization the caller offers: with no thread inside
    [calc_objective], everything the threads did happens before
    everything they do next (a barrier between two generations of
    candidates, a join); the thread it is listed with plays no part. *)
Inductive Action : Type :=
  | Call (x : VectorXd)   (* enter [calc_objective(x, obj_value)] *)
  | Advance               (* execute the statement the thread is at *)
  | Return                (* leave with [obj_value] *)
  | Sync.

Definition initial (self : ContactCalibration) : World :=
  mkWorld self None ∅ [] (mkHistory ∅ ∅ false).

Definition at_control (w : World) (tid : thread_id) (c : Control) : World :=
  mkWorld (object w) (m_modelMutex w) (<[tid := c]> (control w)) (clones w)
    (history w).

(** The thread writes its entry of [m_workingModels] and moves on. *)
Definition at_control_with (w : World) (tid : thread_id) (model : Model)
    (c : Control) : World :=
  mkWorld
    (set_workingModels (object w)
       (<[tid := model]> (m_workingModels (object w))))
    (m_modelMutex w) (<[tid := c]> (control w)) (clones w) (history w).

Definition set_history (w : World) (h : History) : World :=
  mkWorld (object w) (m_modelMutex w) (control w) (clones w) h.

(** [Model()]: what [operator[]] of the map creates for a key that is
    absent. *)
Definition default_Model : Model := mkModel ∅ [].

(** What the statement a thread is at does to the container
    [m_workingModels]: nothing ([None]), a lookup ([Some false]), or the
    insertion of an element ([Some true]).  [count] at line 186 looks up;
    [operator[]] at lines 188, 190 and 192 looks up, and inserts when the
    key is absent.  Only line 188 runs under [m_modelMutex].  The loops
    work through the reference [model], which an insertion leaves valid. *)
Definition pool_access (w : World) (tid : thread_id) : option bool :=
  let absent := bool_decide (m_workingModels (object w) !! tid = None) in
  match control w !! tid with
  | Some (AtCount _) => Some false
  | Some (AtInsert _) | Some (AtInit _) | Some (AtApply _) => Some absent
  | _ => None
  end.

(** The history after an access by thread [tid].  Two accesses to the
    container by different threads, one of them an insertion, are a data
    race in C++ unless one happens before the other.  [m_modelMutex]
    orders only what a thread did up to its unlock (lines 186 and 188)
    before what another thread does from its lock on (lines 188 to 192).
    Every thread also looks the container up before its lock (line 186),
    or without ever taking the mutex (lines 186 and 192 of a thread that
    has its working model): of two threads, one of which inserts, some
    pair of accesses is not ordered by the mutex, and only a [Sync]
    between them orders it.  So the access races when, since the last
    [Sync], another thread inserted, or the access inserts and another
    thread accessed. *)
Definition record_access (tid : thread_id) (access : option bool)
    (h : History) : History :=
  match access with
  | None => h
  | Some inserts =>
      mkHistory ({[tid]} ∪ accessed h)
        (if inserts then {[tid]} ∪ inserted h else inserted h)
        (raced h
         || negb (bool_decide
                    ((if inserts then accessed h else inserted h)
                     ⊆ {[tid]})))
  end.

Section Objective.
(** The services of the dynamics library: the force of one contact
    element of a model at a realized state, the total mass of the model
    and the norm of its gravity vector. *)
Variable calcContactForce :
  Model → AckermannVanDenBogert2010Force → State → Vec3.
Variable getTotalMass : Model → State → double.
Variable gravityNorm : Model → double.

(** [for (auto& contact : contacts) simFy += contact.calcContactForce(state)[1];] *)
Fixpoint contactLoop (model : Model) (state : State)
    (cs : list AckermannVanDenBogert2010Force) (simFy : double) : double :=
  match cs with
  | [] => simFy
  | contact :: rest =>
      contactLoop model state rest
        (dadd simFy (v1 (calcContactForce model contact state)))
  end.

(** [for (auto state : m_statesTraj)]: the body works on a copy of the
    state, the trajectory itself is only read. *)
Fixpoint stateLoop (model : Model) (FySpline : GCVSpline)
    (states : list State) (obj_value : double) : double :=
  match states with
  | [] => obj_value
  | s :: rest =>
      let state := realizeVelocity model s in
      let simFy := contactLoop model state (contacts model) (of_Z 0) in
      let expFy := calcValue FySpline (time state) in
      stateLoop model FySpline rest
        (dadd obj_value (pow2 (dsub simFy expFy)))
  end.

(** Lines 185-192: the working model of the calling thread, cloned from
    [m_model] and initialized at the first call of that thread. *)
Definition acquire (self : ContactCalibration) (tid : thread_id)
    : Result (gmap thread_id Model * Model) :=
  match m_workingModels self !! tid with
  | None =>
      let wm := <[tid := m_model self]> (m_workingModels self) in
      model ← initSystem (m_model self);
      Ok (<[tid := model]> wm, model)
  | Some model => Ok (m_workingModels self, model)
  end.

Definition calc_objective (self : ContactCalibration) (tid : thread_id)
    (x : VectorXd) : Result (ContactCalibration * double) :=
  let obj_value := of_Z 0 in
  '(wm, model) ← acquire self tid;
  model ← applyParametersToModel (m_numContacts self) x model;
  model ← initSystem model;
  (* [model] is a reference to the entry of the calling thread *)
  let self' := set_workingModels self (<[tid := model]> wm) in
  let obj_value :=
    stateLoop model (m_FySpline self) (m_statesTraj self) obj_value in
  match m_statesTraj self with
  | [] => Err EmptyTrajectory
  | front :: _ =>
      let mg := dmul (getTotalMass model front) (gravityNorm model) in
      Ok (self',
          ddiv obj_value
            (dmul mg (of_Z (Z.of_nat (length (m_statesTraj self))))))
  end.

(** [for (auto state : m_statesTraj)] of the report: one row per state. *)
Fixpoint reportLoop (model : Model) (FySpline : GCVSpline)
    (states : list State) (table : TimeSeriesTable) : TimeSeriesTable :=
  match states with
  | [] => table
  | s :: rest =>
      let state := realizeVelocity model s in
      let row0 := contactLoop model state (contacts model) (of_Z 0) in
      let row1 := calcValue FySpline (time state) in
      reportLoop model FySpline rest
        (table ++ [(time state, (row0, row1))])
  end.

(** The table is what is handed to the file writer. *)
Definition printContactComparison (self : ContactCalibration)
    (x : VectorXd) : Result (ContactCalibration * TimeSeriesTable) :=
  model ← applyParametersToModel (m_numContacts self) x (m_model self);
  model ← initSystem model;
  let self' := set_model self model in
  Ok (self', reportLoop model (m_FySpline self) (m_statesTraj self) []).

(** *** The objective as the specification words it *)

(** The summed vertical force of all contact elements at a state. *)
Definition simulatedVerticalForce (model : Model) (state : State)
    : double :=
  dsum ((λ c, v1 (calcContactForce model c state)) <$> contacts model).

Definition squaredResidual (model : Model) (FySpline : GCVSpline)
    (s : State) : double :=
  let state := realizeVelocity model s in
  pow2 (dsub (simulatedVerticalForce model state)
             (calcValue FySpline (time state))).

Definition totalWeight (model : Model) (front : State) : double :=
  dmul (getTotalMass model front) (gravityNorm model).

Definition objective_spec (model : Model) (FySpline : GCVSpline)
    (states : list State) (front : State) : double :=
  ddiv (dsum (squaredResidual model FySpline <$> states))
       (dmul (totalWeight model front)
             (of_Z (Z.of_nat (length states)))).

(** With an experimental force that is zero everywhere. *)
Definition objective_zero_signal_spec (model : Model)
    (states : list State) (front : State) : double :=
  ddiv (dsum ((λ s, pow2 (simulatedVerticalForce model
                            (realizeVelocity model s))) <$> states))
       (dmul (totalWeight model front)
             (of_Z (Z.of_nat (length states)))).

(** The working model of a thread before its parameters are set: its
    entry of the pool, or a fresh copy of [m_model]. *)
Definition workingModel (self : ContactCalibration) (tid : thread_id)
    : Model :=
  default (m_model self) (m_workingModels self !! tid).

(** A sequence of evaluations, each from some thread. *)
Fixpoint evaluations (self : ContactCalibration)
    (calls : list (thread_id * VectorXd))
    : Result (ContactCalibration * list double) :=
  match calls with
  | [] => Ok (self, [])
  | (tid, x) :: rest =>
      '(self', v) ← calc_objective self tid x;
      '(self'', vs) ← evaluations self' rest;
      Ok (self'', v :: vs)
  end.

(** One statement of [calc_objective], executed by thread [tid], taken
    as one indivisible action.  [None]: the thread cannot execute now (it
    waits for the mutex, or it is not inside [calc_objective]). *)
Definition statement (tid : thread_id) (w : World) : option World :=
  let self := object w in
  match control w !! tid with
  | Some (AtCount x) =>
      (* if (m_workingModels.count(thread_id) == 0) *)
      match m_workingModels self !! tid with
      | None => Some (at_control w tid (AtLock x))
      | Some _ => Some (at_control w tid (AtApply x))
      end
  | Some (AtLock x) =>
      (* std::unique_lock<std::mutex> lock(m_modelMutex); *)
      match m_modelMutex w with
      | None =>
          Some (mkWorld self (Some tid) (<[tid := AtInsert x]> (control w))
                  (clones w) (history w))
      | Some _ => None
      end
  | Some (AtInsert x) =>
      (* m_workingModels[thread_id] = m_model; *)
      Some (mkWorld
              (set_workingModels self
                 (<[tid := m_model self]> (m_workingModels self)))
              (m_modelMutex w) (<[tid := AtUnlock x]> (control w))
              (tid :: clones w) (history w))
  | Some (AtUnlock x) =>
      (* lock.unlock(); *)
      Some (mkWorld self None (<[tid := AtInit x]> (control w)) (clones w)
              (history w))
  | Some (AtInit x) =>
      (* m_workingModels[thread_id].initSystem(); *)
      let model := default default_Model (m_workingModels self !! tid) in
      Some (match initSystem model with
            | Ok model' => at_control_with w tid model' (AtApply x)
            | Err e => at_control_with w tid model (Thrown e)
            end)
  | Some (AtApply x) =>
      (* Model& model = m_workingModels[thread_id];
         applyParametersToModel(x, model); model.initSystem(); *)
      let model := default default_Model (m_workingModels self !! tid) in
      Some (match
              applyParametersToModel (m_numContacts self) x model
                ≫= initSystem
            with
            | Ok model' => at_control_with w tid model' (AtLoops x)
            | Err e => at_control_with w tid model (Thrown e)
            end)
  | Some (AtLoops x) =>
      (* the loops and the normalization, through the reference [model]
         that line 192 bound to the entry of the thread *)
      model ← m_workingModels self !! tid;
      let obj_value :=
        stateLoop model (m_FySpline self) (m_statesTraj self) (of_Z 0) in
      Some (match m_statesTraj self with
            | [] => at_control w tid (Thrown EmptyTrajectory)
            | front :: _ =>
                let mg :=
                  dmul (getTotalMass model front) (gravityNorm model) in
                at_control w tid
                  (Done x
                     (ddiv obj_value
                        (dmul mg
                           (of_Z (Z.of_nat (length (m_statesTraj self)))))))
            end)
  | Some (Done _ _) | Some (Thrown _) | None => None
  end.

(** The statement, with the history of the container kept.  After a
    data race C++ gives the execution no meaning, and the statements of
    two threads that overlap on the container are not indivisible: the
    world goes on as if they were, with [raced] set, and what is proved
    about the pool is proved of worlds in which it is not set. *)
Definition advance (tid : thread_id) (w : World) : option World :=
  (λ w', set_history w' (record_access tid (pool_access w tid) (history w)))
    <$> statement tid w.

Definition step (tid : thread_id) (a : Action) (w : World) : option World :=
  match a with
  | Call x =>
      match control w !! tid with
      | None => Some (at_control w tid (AtCount x))
      | Some _ => None
      end
  | Advance => advance tid w
  | Return =>
      match control w !! tid with
      | Some (Done _ _) =>
          Some (mkWorld (object w) (m_modelMutex w)
                  (delete tid (control w)) (clones w) (history w))
      | _ => None
      end
  | Sync =>
      if decide (control w = ∅)
      then Some (set_history w (mkHistory ∅ ∅ (raced (history w))))
      else None
  end.

(** A schedule: which thread does what, in the order in which it
    happens. *)
Fixpoint run (schedule : list (thread_id * Action)) (w : World)
    : option World :=
  match schedule with
  | [] => Some w
  | (tid, a) :: rest => step tid a w ≫= run rest
  end.

(** A thread running through [calc_objective] without interruption. *)
Definition alone (tid : thread_id) (x : VectorXd) (has_model : bool)
    : list (thread_id * Action) :=
  (tid, Call x) :: replicate (if has_model then 3 else 7) (tid, Advance).

(** What is true of a thread at each place of [calc_objective], in a
    session that started from [self0]. *)
Definition control_ok (self0 : ContactCalibration) (w : World)
    (tid : thread_id) (c : Control) : Prop :=
  let wm := m_workingModels (object w) in
  match c with
  | AtCount _ | Thrown _ => True
  | AtLock _ => wm !! tid = None
  | AtInsert _ => wm !! tid = None ∧ m_modelMutex w = Some tid
  | AtUnlock _ => is_Some (wm !! tid) ∧ m_modelMutex w = Some tid
  | AtInit _ | AtApply _ => is_Some (wm !! tid)
  | AtLoops x =>
      ∃ model,
        wm !! tid = Some model
        ∧ applyParametersToModel (m_numContacts self0) x (m_model self0)
          = Ok model
  | Done x v =>
      is_Some (wm !! tid)
      ∧ ∃ model front rest,
          applyParametersToModel (m_numContacts self0) x (m_model self0)
            = Ok model
          ∧ m_statesTraj self0 = front :: rest
          ∧ v = objective_spec model (m_FySpline self0) (m_statesTraj self0)
                  front
  end.

Record invariant (self0 : ContactCalibration) (w : World) : Prop := {
  inv_model : m_model (object w) = m_model self0;
  inv_statesTraj : m_statesTraj (object w) = m_statesTraj self0;
  inv_FySpline : m_FySpline (object w) = m_FySpline self0;
  inv_numContacts : m_numContacts (object w) = m_numContacts self0;
  inv_consistent : consistent (object w);
  inv_clones : NoDup (clones w);
  inv_dom : dom (m_workingModels (object w)) = list_to_set (clones w);
  inv_control : ∀ tid c, control w !! tid = Some c → control_ok self0 w tid c;
  inv_mutex : ∀ tid, m_modelMutex w = Some tid →
    ∃ x, control w !! tid = Some (AtInsert x)
         ∨ control w !! tid = Some (AtUnlock x);
}.
End Objective.

(** ** Structural validity of the inputs *)

(** The model has the markers [marker0 .. marker(n-1)], at most [n]
    contact elements, and every contact element is attached to a marker of
    the model. *)
Definition model_ready (numContacts : Z) (model : Model) : bool :=
  forallb (λ i, bool_decide (is_Some (markers model !! marker_name i)))
          (seqZ 0 numContacts)
  && bool_decide (Z.of_nat (length (contacts model)) ≤ numContacts)
  && forallb (λ c, bool_decide (is_Some (markers model !! station c)))
             (contacts model).

Definition vector_ready (numContacts : Z) (x : VectorXd) : bool :=
  bool_decide (Z.of_nat (length x) = 2 * numContacts).

Definition in_unit_interval (v : double) : bool :=
  dle (of_Z 0) v && dle v (of_Z 1).

Definition in_bounds (x : VectorXd) : bool := forallb in_unit_interval x.

(** ** Predicates on doubles used in the statements *)

(** The result of rounding carries the sign it was given. *)
Definition has_sign (sx : bool) (x : double) : Prop :=
  match x with
  | S754_nan => True
  | S754_zero s | S754_infinity s | S754_finite s _ _ => s = sx
  end.

(** Not negative: NaN, or a value whose sign bit is clear. *)
Definition nonneg_or_nan (x : double) : Prop := has_sign false x.



(** ** Rounding to nearest, ties to even, on integers

    What [binary_round] computes, written on the integers: the proofs
    about the order of doubles go through these. *)

(** The integer nearest to [m / 2^n], ties to even; for a negative [n]
    the product [m * 2^(-n)]. *)
Definition rnd (m n : Z) : Z :=
  if decide (n < 0) then m * 2 ^ (- n)
  else
    let q := m / 2 ^ n in
    match 2 * (m mod 2 ^ n) ?= 2 ^ n with
    | Lt => q
    | Eq => if Z.even q then q else q + 1
    | Gt => q + 1
    end.

(** The double with sign [s] and the value [r * 2^E], where [r] is a
    rounded mantissa (at most 2^53): a mantissa of 54 digits is
    renormalized, an exponent that is too large gives an infinity. *)
Definition finalize (s : bool) (r E : Z) : double :=
  let r' := if decide (r = 2 ^ 53) then 2 ^ 52 else r in
  let E' := if decide (r = 2 ^ 53) then E + 1 else E in
  match r' with
  | Z0 => S754_zero s
  | Zpos p => if E' <=? emax - prec then S754_finite s p E' else S754_infinity s
  | Zneg _ => S754_nan
  end.

(** A mantissa and exponent as the rounding leaves them: at most 2^53,
    and at least 2^52 above the smallest exponent. *)
Definition rounded_ok (r E : Z) : Prop :=
  0 ≤ r ≤ 2 ^ 53 ∧ -1074 ≤ E ∧ (-1074 < E → 2 ^ 52 ≤ r).

(** Not NaN, and of sign [s] unless a zero. *)
Definition signed (s : bool) (x : double) : Prop :=
  match x with
  | S754_nan => False
  | S754_zero _ => True
  | S754_infinity s' | S754_finite s' _ _ => s' = s
  end.

(** The value of a finite double in units of 2^-1074. *)
Definition Zval (x : double) : Z :=
  match x with
  | S754_finite s m e => cond_Zopp s (Z.pos m) * 2 ^ (e + 1074)
  | _ => 0
  end.

(** ** Models that differ only in calibrated quantities *)

(** Equal markers, but for the height when [free] is set. *)
Definition marker_sim (free : bool) (a b : Marker) : Prop :=
  parent_frame a = parent_frame b
  ∧ v0 (location a) = v0 (location b)
  ∧ v2 (location a) = v2 (location b)
  ∧ (free = false → v1 (location a) = v1 (location b)).

(** Equal contact elements, but for the stiffness. *)
Definition contact_sim (a b : AckermannVanDenBogert2010Force) : Prop :=
  contact_name a = contact_name b
  ∧ friction_coefficient a = friction_coefficient b
  ∧ tangent_velocity_scaling_factor a = tangent_velocity_scaling_factor b
  ∧ station a = station b.

(** Equal models, but for the stiffness of the contact elements and the
    height of the markers named in [pending]. *)
Definition model_sim (pending : gset string) (m1 m2 : Model) : Prop :=
  (∀ k, option_Forall2 (marker_sim (bool_decide (k ∈ pending)))
          (markers m1 !! k) (markers m2 !! k))
  ∧ Forall2 contact_sim (contacts m1) (contacts m2).

Definition marker_names (icontacts : list Z) : gset string :=
  list_to_set (marker_name <$> icontacts).

(** Two results agree: the same exception, or values related by [R]. *)
Definition Result_rel {A} (R : A → A → Prop) (r1 r2 : Result A) : Prop :=
  match r1, r2 with
  | Ok a, Ok b => R a b
  | Err e1, Err e2 => e1 = e2
  | _, _ => False
  end.

(** ** The session of [calibrateContact], lines 332-380

    Six contact points across the foot, each a marker on the calcaneus
    with a contact element attached to it. *)

Definition addMarker (model : Model) (name frame : string) (loc : Vec3)
    : Model :=
  set_markers model (<[name := mkMarker frame loc]> (markers model)).

(** [addContact(model, markerName, stiffness = 5e7)] *)
Definition addContact (model : Model) (markerName : string)
    (stiffness : double) : Model :=
  let friction_coefficient := of_decimal 95 100 in
  let velocity_scaling := of_decimal 3 10 in
  set_contacts model
    (contacts model
       ++ [mkContact (markerName +:+ "_contact") stiffness
             friction_coefficient velocity_scaling markerName]).

Definition footModel : Model :=
  let xHeel := of_decimal (-3) 100 in
  let xToes := of_decimal 28 100 in
  let numContacts := 6 in
  fold_left
    (λ model icontact,
       let name := marker_name icontact in
       let x :=
         dadd xHeel
           (dmul (ddiv (of_Z icontact) (of_Z (numContacts - 1)))
                 (dsub xToes xHeel)) in
       addContact
         (addMarker model name "calcn_r"
            (mkVec3 x (of_decimal (-27) 1000) (of_Z 0)))
         name (of_Z 50000000))
    (seqZ 0 numContacts) (mkModel ∅ []).

(** [SimTK::Vector results(2 * numContacts, 0.5)] *)
Definition x_half : VectorXd := replicate 12 (of_decimal 1 2).

(** A trajectory of 100 uniformly spaced states: the foot, whose height
    is the only coordinate, comes down by a millimetre per state. *)
Definition trajectory100 : list State :=
  (λ i, mkState (of_decimal i 100) [of_decimal (50 - i) 1000] [of_Z 0]
          Stage_Time) <$> seqZ 0 100.

Definition zeroSignal : GCVSpline := mkSpline (λ _, dzero).




(** An instance of the dynamics services, built on the contact law of
    this file: each contact element pushes on its marker, whose height is
    the height of the foot plus the height of the marker in the foot. *)
Definition law_calcContactForce (model : Model)
    (contact : AckermannVanDenBogert2010Force) (state : State) : Vec3 :=
  match markers model !! station contact with
  | Some marker =>
      let y := dadd (default dzero (state_q state !! 0%nat))
                    (v1 (location marker)) in
      mkVec3 dzero (contact_force (stiffness contact) y) dzero
  | None => mkVec3 dzero dzero dzero
  end.
Definition law_getTotalMass (model : Model) (state : State) : double :=
  of_Z 75.
Definition law_gravityNorm (model : Model) : double :=
  of_decimal 980665 100000.

(** The object [ContactCalibration(model, statesTraj, numContacts)] of
    that session. *)
Definition footSession (FySpline : GCVSpline) : ContactCalibration :=
  mkContactCalibration footModel trajectory100 FySpline 6 ∅.





(** The parameter mapping can be undone on a model: some way of reading a
    model gives back every in-bounds vector that was applied to it. *)
Definition invertible_on (numContacts : Z) (model : Model) : Prop :=
  ∃ read : Model → VectorXd,
    ∀ x model',
      vector_ready numContacts x = true → in_bounds x = true →
      applyParametersToModel numContacts x model = Ok model' →
      read model' = x.

(** The physical values a parameter vector stands for: the marker heights
    of its first half, the stiffnesses of its second half. *)
Definition physicalValues (numContacts : Z) (x : VectorXd) : list double :=
  (markerHeight <$> take (Z.to_nat numContacts) x)
    ++ (scaledStiffness forceScalingFactor <$> drop (Z.to_nat numContacts) x).

(** Three evaluations from three threads, the first and the last of the
    same vector. *)
Definition sessionCalls : list (thread_id * VectorXd) :=
  [(1%positive, x_half);
   (2%positive, <[0%nat := of_Z 1]> x_half);
   (3%positive, x_half)].

(** Two threads inside [calc_objective] at once: thread 1 takes the mutex
    first, thread 2 waits for it; thread 2 finishes, returns and
    evaluates the vector of thread 1. *)
Definition twoThreads : list (thread_id * Action) :=
  [(1%positive, Call x_half);
   (2%positive, Call (<[0%nat := of_Z 1]> x_half));
   (1%positive, Advance); (2%positive, Advance);
   (1%positive, Advance); (1%positive, Advance); (1%positive, Advance);
   (2%positive, Advance);
   (1%positive, Advance);
   (2%positive, Advance); (2%positive, Advance);
   (1%positive, Advance);
   (2%positive, Advance); (2%positive, Advance); (2%positive, Advance);
   (1%positive, Advance);
   (2%positive, Return); (2%positive, Call x_half);
   (2%positive, Advance); (2%positive, Advance); (2%positive, Advance)].

(** Two threads whose first evaluations the caller keeps apart: thread 1
    evaluates and returns, then thread 2, with a synchronization after
    each; then both are inside [calc_objective] at once, statement by
    statement in turn, with the same vector. *)
Definition quietThreads : list (thread_id * Action) :=
  alone 1%positive x_half false
  ++ [(1%positive, Return); (1%positive, Sync)]
  ++ alone 2%positive (<[0%nat := of_Z 1]> x_half) false
  ++ [(2%positive, Return); (2%positive, Sync)]
  ++ [(1%positive, Call x_half); (2%positive, Call x_half);
      (1%positive, Advance); (2%positive, Advance);
      (1%positive, Advance); (2%positive, Advance);
      (1%positive, Advance); (2%positive, Advance)].

(** Without a data race, a thread that inserted since the last
    synchronization is the only one that accessed the container since. *)
Definition history_ok (h : History) : Prop :=
  ∀ t, t ∈ inserted h → accessed h = {[t]}.

(** The statements between taking and releasing the mutex. *)
Definition in_critical_section (c : Control) : bool :=
  match c with AtInsert _ | AtUnlock _ => true | _ => false end.


(** The statements after the copy of line 188. *)
Definition past_insert (c : Control) : bool :=
  match c with
  | AtUnlock _ | AtInit _ | AtApply _ | AtLoops _ | Done _ _ => true
  | _ => false
  end.


(** The vector and the value of a finished evaluation. *)
Definition done_value (c : option Control) : option (VectorXd * double) :=
  match c with
  | Some (Done x v) => Some (x, v)
  | _ => None
  end.

(** The squared difference of the two columns of a row of the report. *)
Definition rowResidual (row : double * (double * double)) : double :=
  pow2 (dsub (fst (snd row)) (snd (snd row))).

(** ** The bouncing ball, lines 47-122 *)

(** [BouncingBallLinear<T>::mass], [stiffness] and [g], lines 78-83. *)
Definition ball_mass : double := of_Z 50.
Definition ball_stiffness : double := of_Z 3180.
Definition ball_g : double := of_decimal 981 100.

(** [calc_differential_algebraic_equations], lines 58-66, at [T = double]:
    the derivatives of the states [y] and [vy]. *)
Definition calc_differential_algebraic_equations (y vy : double)
    : double * double :=
  let contact_normal_force := contact_force ball_stiffness y in
  (vy, dadd (SFopp ball_g) (ddiv contact_normal_force ball_mass)).

(** [BallCalibration], lines 85-108. *)
Record BallCalibration : Type := mkBallCalibration {
  m_yTraj : VectorXd;
  m_contactForceTraj : VectorXd;
}.

(** [for (int it = 0; it < m_yTraj.size(); ++it)], lines 98-103: [y] runs
    through [m_yTraj], [it] is its index. *)
Fixpoint ballLoop (stiffness : double) (yTraj contactForceTraj : VectorXd)
    (it : Z) (obj_value : double) : Result double :=
  match yTraj with
  | [] => Ok obj_value
  | y :: rest =>
      let simContactForce := contact_force stiffness y in
      expContactForce ← vec_at contactForceTraj it;
      ballLoop stiffness rest contactForceTraj (it + 1)
        (dadd obj_value (pow2 (dsub simContactForce expContactForce)))
  end.

(** [BallCalibration::calc_objective], lines 94-104. *)
Definition ball_calc_objective (self : BallCalibration) (x : VectorXd)
    : Result double :=
  stiffness ← vec_at x 0;
  ballLoop stiffness (m_yTraj self) (m_contactForceTraj self) 0 (of_Z 0).

(** [calibrateBall], lines 110-117: the heights are row 0 of the states of
    the solution of the optimal control problem (found by the solver,
    outside this file); the forces are computed from them with the
    stiffness of the ball. *)
Definition calibrateBall_problem (states0 : VectorXd) : BallCalibration :=
  mkBallCalibration states0 (contact_force ball_stiffness <$> states0).

(** Heights of a ball that comes down from one metre and dips a
    centimetre into the ground. *)
Definition ballHeights : VectorXd :=
  [of_Z 1; of_decimal 1 2; of_decimal 1 10; of_Z 0; of_decimal (-1) 100].

(** ** The contact points of [calibrateContact], lines 369-380 *)

(** [x = xHeel + icontact / (numContacts - 1) * (xToes - xHeel)] *)
Definition contactPoint_x (numContacts icontact : Z) : double :=
  let xHeel := of_decimal (-3) 100 in
  let xToes := of_decimal 28 100 in
  dadd xHeel
    (dmul (ddiv (of_Z icontact) (of_Z (numContacts - 1)))
          (dsub xToes xHeel)).

(** The body of the loop: a marker on the calcaneus, and a contact
    element with the default stiffness attached to it. *)
Definition addContactPoint (numContacts : Z) (model : Model) (icontact : Z)
    : Model :=
  let name := marker_name icontact in
  let x := contactPoint_x numContacts icontact in
  addContact
    (addMarker model name "calcn_r"
       (mkVec3 x (of_decimal (-27) 1000) (of_Z 0)))
    name (of_Z 50000000).

(** [for (int icontact = 0; icontact < numContacts; ++icontact)] *)
Definition addContactPoints (numContacts : Z) (model : Model) : Model :=
  fold_left (addContactPoint numContacts) (seqZ 0 numContacts) model.

(** ** [SimTKContactCalibration], lines 283-313 *)

(** A C++ [int] after an increment, as [std::atomic<int>] does it: 32
    bits, two's complement, wrapping around. *)
Definition int_wrap (z : Z) : Z := (z + 2 ^ 31) `mod` 2 ^ 32 - 2 ^ 31.

Record SimTKContactCalibration : Type := mkSimTKContactCalibration {
  m_tropProb : ContactCalibration;
  m_objCount : Z;
}.

(** What a call of [objectiveFunc] gives back and prints: the status it
    returns, the value [f], and the line [DEBUG count f vars]. *)
Record ObjectiveOutput : Type := mkObjectiveOutput {
  out_status : Z;
  out_f : double;
  out_debug : Z * double * VectorXd;
}.

Section Wrapper.
Variable calcContactForce :
  Model → AckermannVanDenBogert2010Force → State → Vec3.
Variable getTotalMass : Model → State → double.
Variable gravityNorm : Model → double.

(** The constructor, lines 285-291: the counter starts at 0. *)
Definition SimTK_construct (model : Model) (statesTraj : list State)
    (FySpline : GCVSpline) (numContacts : Z)
    : Result SimTKContactCalibration :=
  prob ← construct model statesTraj FySpline numContacts;
  Ok (mkSimTKContactCalibration prob 0).

(** [objectiveFunc], lines 296-304. *)
Definition objectiveFunc (self : SimTKContactCalibration) (tid : thread_id)
    (vars : VectorXd) : Result (SimTKContactCalibration * ObjectiveOutput) :=
  let objCount := int_wrap (m_objCount self + 1) in
  let x := vars in
  '(prob, f) ← calc_objective calcContactForce getTotalMass gravityNorm
                 (m_tropProb self) tid x;
  Ok (mkSimTKContactCalibration prob objCount,
      mkObjectiveOutput 0 f (objCount, f, vars)).

(** A sequence of calls of [objectiveFunc], each from some thread. *)
Fixpoint objectiveFuncs (self : SimTKContactCalibration)
    (calls : list (thread_id * VectorXd))
    : Result (SimTKContactCalibration * list ObjectiveOutput) :=
  match calls with
  | [] => Ok (self, [])
  | (tid, vars) :: rest =>
      '(self', out) ← objectiveFunc self tid vars;
      '(self'', outs) ← objectiveFuncs self' rest;
      Ok (self'', out :: outs)
  end.
End Wrapper.

(** ** The toy problem of [toyCMAES], lines 524-555 *)

Section Toy.
Context {T : Type} `{Scalar T}.
Local Open Scope scalar_scope.

(** [0.5 * (3 * x * x + 4 * x * y + 6 * y * y) - 2 * x + 8 * y]; the
    code evaluates it on doubles. *)
Definition toy_f (x y : T) : T :=
  s_decimal 1 2
    ⊗ (s_int 3 ⊗ x ⊗ x ⊕ s_int 4 ⊗ x ⊗ y ⊕ s_int 6 ⊗ y ⊗ y)
    ⊖ s_int 2 ⊗ x ⊕ s_int 8 ⊗ y.
End Toy.

(** [OptSys]: an evaluation counter, which the constructor does not
    initialize, and a counter for each thread. *)
Record OptSys : Type := mkOptSys {
  m_count : Z;
  m_map : gmap thread_id Z;
}.

(** [OptSys::objectiveFunc], lines 528-541: the new object, the status
    and [f]. *)
Definition toy_objectiveFunc (self : OptSys) (id : thread_id)
    (vars : VectorXd) : Result (OptSys * (Z * double)) :=
  let count := int_wrap (m_count self + 1) in
  let map :=
    if bool_decide (m_map self !! id = None)
    then <[id := 0]> (m_map self)
    else m_map self in
  let map := <[id := int_wrap (default 0 (map !! id) + 1)]> map in
  x ← vec_at vars 0;
  y ← vec_at vars 1;
  let f : double := toy_f x y in
  Ok (mkOptSys count map, (0, f)).

(** A sequence of calls that do not overlap, each from some thread. *)
Fixpoint toy_objectiveFuncs (self : OptSys)
    (calls : list (thread_id * VectorXd)) : Result (OptSys * list double) :=
  match calls with
  | [] => Ok (self, [])
  | (id, vars) :: rest =>
      '(self', r) ← toy_objectiveFunc self id vars;
      '(self'', fs) ← toy_objectiveFuncs self' rest;
      Ok (self'', snd r :: fs)
  end.

(** The number of calls a thread made. *)
Definition calls_of (id : thread_id) (calls : list (thread_id * VectorXd))
    : nat :=
  length (filter (λ c, c.1 = id) calls).
(* ===================================================================== *)
(** * Part II: properties *)
(* ===================================================================== *)

(** ** binary64 facts used below *)

(** The literals of the program, as bit patterns. *)
Example lower_bits : @lower double _ = S754_finite true 8646911284551352 (-57).
Proof. reflexivity. Qed.
Example upper_bits : @upper double _ = S754_finite false 7205759403792794 (-57).
Proof. reflexivity. Qed.
Example forceScalingFactor_bits :
  forceScalingFactor = S754_finite false 6710886400000000 (-26).
Proof. reflexivity. Qed.
Example one_bits : of_Z 1 = S754_finite false 4503599627370496 (-52).
Proof. reflexivity. Qed.

Lemma dsub_zero_r (x : double) : dsub x dzero = x.
Proof. by destruct x as [[]|[]| |]. Qed.

Lemma shr_fexp_one_l m e :
  fexp prec emax (Z.pos (digits2_pos m) + e) = e →
  shr_fexp prec emax (Z.pos (4503599627370496 * m)) (-52 + e) loc_Exact
  = ({| shr_m := Z.pos m; shr_r := false; shr_s := false |}, e).
Proof.
  intros Hc. unfold shr_fexp.
  assert (Hd : Zdigits2 (Z.pos (4503599627370496 * m))
               = Z.pos (digits2_pos m) + 52).
  { set (p := Pos.mul 4503599627370496 m). vm_compute in p. subst p.
    cbn [Zdigits2 digits2_pos]. rewrite !Pos2Z.inj_succ. lia. }
  rewrite Hd.
  replace (Z.pos (digits2_pos m) + 52 + (-52 + e))
    with (Z.pos (digits2_pos m) + e) by lia.
  rewrite Hc. replace (e - (-52 + e)) with 52 by lia.
  unfold shr. f_equal; lia.
Qed.

Lemma shr_fexp_id m e :
  fexp prec emax (Z.pos (digits2_pos m) + e) = e →
  shr_fexp prec emax (Z.pos m) e loc_Exact
  = ({| shr_m := Z.pos m; shr_r := false; shr_s := false |}, e).
Proof.
  intros Hc. unfold shr_fexp. cbn [Zdigits2]. by rewrite Hc, Z.sub_diag.
Qed.

(** Multiplying a double by 1.0 is exact. *)
Lemma dmul_one_l_finite s m e :
  well_formed (S754_finite s m e) = true →
  dmul (of_Z 1) (S754_finite s m e) = S754_finite s m e.
Proof.
  unfold well_formed, valid_binary, bounded, canonical_mantissa.
  intros [Hc He]%andb_prop. apply Z.eqb_eq in Hc.
  change (of_Z 1) with (S754_finite false 4503599627370496 (-52)).
  unfold dmul, SFmul. cbn [xorb]. unfold binary_round_aux.
  rewrite shr_fexp_one_l by done.
  cbn [shr_m loc_of_shr_record round_nearest_even].
  rewrite shr_fexp_id by done. cbn [shr_m]. by rewrite He.
Qed.

Lemma dmul_one_l (x : double) :
  well_formed x = true → dmul (of_Z 1) x = x.
Proof.
  destruct x as [[]|[]| |s m e]; try done. apply dmul_one_l_finite.
Qed.

Lemma binary_round_aux_sign sx mx ex lx :
  has_sign sx (binary_round_aux prec emax sx mx ex lx).
Proof.
  unfold binary_round_aux.
  destruct (shr_fexp prec emax mx ex lx) as [mrs' e'].
  destruct (shr_fexp _ _ _ _ _) as [mrs'' e''].
  destruct (shr_m mrs''); [done| |done].
  by destruct (_ <=? _).
Qed.

Lemma binary_round_sign sx mx ex :
  has_sign sx (binary_round prec emax sx mx ex).
Proof.
  unfold binary_round. destruct (shl_align _ _ _) as [mz ez].
  apply binary_round_aux_sign.
Qed.

Lemma pow2_nonneg (r : double) : nonneg_or_nan (pow2 r).
Proof.
  unfold nonneg_or_nan, pow2, dmul.
  destruct r as [[]|[]| |s m e]; try done.
  cbn [SFmul]. replace (xorb s s) with false by by destruct s.
  apply binary_round_aux_sign.
Qed.


Lemma dadd_nonneg (a b : double) :
  nonneg_or_nan a → nonneg_or_nan b → nonneg_or_nan (dadd a b).
Proof.
  unfold nonneg_or_nan.
  destruct a as [sa|sa| |sa ma ea], b as [sb|sb| |sb mb eb];
    cbn [has_sign]; intros Ha Hb; subst; try done.
  unfold dadd, SFadd. cbn [cond_Zopp Z.add binary_normalize].
  apply binary_round_sign.
Qed.








(** ** Rounding is monotone

    [binary_round] is the integer rounding [rnd] at the exponent the
    format prescribes; from this, multiplication and addition of doubles
    are monotone. *)

Lemma digits2_pos_bounds p :
  2 ^ (Z.pos (digits2_pos p) - 1) ≤ Z.pos p < 2 ^ Z.pos (digits2_pos p).
Proof.
  induction p as [p IH|p IH|]; cbn [digits2_pos].
  - rewrite Pos2Z.inj_succ. change (Z.pos p~1) with (2 * Z.pos p + 1).
    replace (Z.succ (Z.pos (digits2_pos p)) - 1)
      with (Z.succ (Z.pos (digits2_pos p) - 1)) by lia.
    rewrite !Z.pow_succ_r by lia. lia.
  - rewrite Pos2Z.inj_succ. change (Z.pos p~0) with (2 * Z.pos p).
    replace (Z.succ (Z.pos (digits2_pos p)) - 1)
      with (Z.succ (Z.pos (digits2_pos p) - 1)) by lia.
    rewrite !Z.pow_succ_r by lia. lia.
  - cbn. lia.
Qed.

Lemma digits2_pos_log2 p : Z.pos (digits2_pos p) = Z.log2 (Z.pos p) + 1.
Proof.
  pose proof (digits2_pos_bounds p) as [Hlo Hhi].
  symmetry. apply Z.add_move_r. apply Z.log2_unique; [lia|].
  split; [done|]. by replace (Z.succ (Z.pos (digits2_pos p) - 1))
    with (Z.pos (digits2_pos p)) by lia.
Qed.

Lemma digits2_pos_unique p d :
  2 ^ (d - 1) ≤ Z.pos p < 2 ^ d → Z.pos (digits2_pos p) = d.
Proof.
  intros [Hlo Hhi]. rewrite digits2_pos_log2.
  assert (0 ≤ d - 1).
  { destruct (decide (0 ≤ d - 1)); [done|].
    assert (d ≤ 0) by lia. destruct (decide (d = 0)) as [->|].
    - cbn in Hhi. lia.
    - rewrite (Z.pow_neg_r 2 d) in Hhi by lia. lia. }
  rewrite (Z.log2_unique (Z.pos p) (d - 1)); [lia|done|].
  split; [done|]. by replace (Z.succ (d - 1)) with d by lia.
Qed.

Lemma digits2_pos_shift p k :
  0 ≤ k → Zdigits2 (Z.pos p * 2 ^ k) = Z.pos (digits2_pos p) + k.
Proof.
  intros Hk. pose proof (digits2_pos_bounds p) as [Hlo Hhi].
  assert (Hpos : 0 < 2 ^ k) by (apply Z.pow_pos_nonneg; lia).
  destruct (Z.pos p * 2 ^ k) as [|q|q] eqn:Hq; [lia| |lia].
  cbn [Zdigits2]. apply digits2_pos_unique. rewrite <- Hq.
  replace (Z.pos (digits2_pos p) + k - 1)
    with (Z.pos (digits2_pos p) - 1 + k) by lia.
  rewrite !Z.pow_add_r by lia. nia.
Qed.

(** ** Shifting right, one bit at a time *)

Lemma shr_1_spec m r s :
  0 ≤ m →
  shr_1 {| shr_m := m; shr_r := r; shr_s := s |}
  = {| shr_m := m / 2; shr_r := Z.odd m; shr_s := r || s |}.
Proof.
  intros Hm. rewrite <- Z.div2_div.
  destruct m as [|[p|p|]|]; try done; lia.
Qed.

Lemma iter_pos_nat {A} (f : A → A) p x :
  iter_pos f p x = Nat.iter (Pos.to_nat p) f x.
Proof.
  revert x. induction p as [p IH|p IH|]; intros x; cbn [iter_pos].
  - rewrite !IH, Pos2Nat.inj_xI.
    replace (2 * Pos.to_nat p)%nat with (Pos.to_nat p + Pos.to_nat p)%nat
      by lia.
    by rewrite Nat.iter_succ_r, Nat.iter_add.
  - rewrite !IH, Pos2Nat.inj_xO.
    replace (2 * Pos.to_nat p)%nat with (Pos.to_nat p + Pos.to_nat p)%nat
      by lia.
    by rewrite Nat.iter_add.
  - done.
Qed.

Lemma mod_pow2_succ m n :
  0 ≤ n →
  m mod 2 ^ (n + 1) = m mod 2 ^ n + (if Z.odd (m / 2 ^ n) then 2 ^ n else 0).
Proof.
  intros Hn. assert (Hp : 0 < 2 ^ n) by (apply Z.pow_pos_nonneg; lia).
  rewrite Z.pow_add_r, Z.pow_1_r by lia.
  rewrite Z.rem_mul_r by lia.
  rewrite <- Z.bit0_mod, Z.bit0_odd. destruct (Z.odd _); cbn; lia.
Qed.

(** The record after [S k] shifts of an exact record. *)
Lemma shr_iter m (k : nat) :
  0 ≤ m →
  Nat.iter (S k) shr_1 {| shr_m := m; shr_r := false; shr_s := false |}
  = {| shr_m := m / 2 ^ Z.of_nat (S k);
       shr_r := Z.odd (m / 2 ^ Z.of_nat k);
       shr_s := negb (m mod 2 ^ Z.of_nat k =? 0) |}.
Proof.
  intros Hm. induction k as [|k IH].
  - cbn [Nat.iter]. rewrite shr_1_spec by done. cbn.
    rewrite Z.div_1_r, Z.mod_1_r. done.
  - rewrite Nat.iter_succ, IH.
    assert (Hq : 0 ≤ m / 2 ^ Z.of_nat (S k)).
    { apply Z.div_pos; [done|]. apply Z.pow_pos_nonneg; lia. }
    rewrite shr_1_spec by done. f_equal.
    + rewrite Z.div_div by (try apply Z.pow_pos_nonneg; lia).
      f_equal. rewrite (Nat2Z.inj_succ (S k)), Z.pow_succ_r by lia. lia.
    + replace (Z.of_nat (S k)) with (Z.of_nat k + 1) by lia.
      rewrite mod_pow2_succ by lia.
      assert (Hp : 0 < 2 ^ Z.of_nat k) by (apply Z.pow_pos_nonneg; lia).
      pose proof (Z.mod_pos_bound m (2 ^ Z.of_nat k) Hp).
      destruct (Z.odd (m / 2 ^ Z.of_nat k)); cbn.
      * symmetry. apply negb_true_iff, Z.eqb_neq. lia.
      * rewrite Z.add_0_r. done.
Qed.

Lemma fexp_eq z : fexp prec emax z = Z.max (z - 53) (-1074).
Proof. reflexivity. Qed.

(** ** [rnd] *)

Lemma rnd_nonneg_shift m n :
  0 ≤ n →
  rnd m n
  = match 2 * (m mod 2 ^ n) ?= 2 ^ n with
    | Lt => m / 2 ^ n
    | Eq => if Z.even (m / 2 ^ n) then m / 2 ^ n else m / 2 ^ n + 1
    | Gt => m / 2 ^ n + 1
    end.
Proof. intros Hn. unfold rnd. by rewrite decide_False by lia. Qed.

Lemma rnd_0 m : rnd m 0 = m.
Proof.
  rewrite rnd_nonneg_shift by done. cbn [Z.pow]. change (2 ^ 0) with 1.
  rewrite Z.mod_1_r, Z.div_1_r. done.
Qed.

Lemma rnd_bounds m n :
  0 ≤ n → m / 2 ^ n ≤ rnd m n ≤ m / 2 ^ n + 1.
Proof.
  intros Hn. rewrite rnd_nonneg_shift by done.
  destruct (_ ?= _); [destruct (Z.even _)| |]; lia.
Qed.

Lemma rnd_mono m1 m2 n : m1 ≤ m2 → rnd m1 n ≤ rnd m2 n.
Proof.
  intros Hm. destruct (decide (n < 0)) as [Hn|Hn].
  - unfold rnd. rewrite !decide_True by done.
    apply Z.mul_le_mono_nonneg_r; [|done]. apply Z.pow_nonneg. lia.
  - assert (Hp : 0 < 2 ^ n) by (apply Z.pow_pos_nonneg; lia).
    pose proof (Z.div_le_mono m1 m2 (2 ^ n) Hp Hm) as Hq.
    destruct (decide (m1 / 2 ^ n = m2 / 2 ^ n)) as [Heq|Hne].
    + rewrite !rnd_nonneg_shift by lia. rewrite <- Heq.
      pose proof (Z.div_mod m1 (2 ^ n)) as H1.
      pose proof (Z.div_mod m2 (2 ^ n)) as H2.
      rewrite <- Heq in H2.
      assert (Hlo : m1 mod 2 ^ n ≤ m2 mod 2 ^ n) by lia.
      destruct (Z.compare_spec (2 * (m1 mod 2 ^ n)) (2 ^ n));
        destruct (Z.compare_spec (2 * (m2 mod 2 ^ n)) (2 ^ n));
        destruct (Z.even (m1 / 2 ^ n)); lia.
    + pose proof (rnd_bounds m1 n ltac:(lia)).
      pose proof (rnd_bounds m2 n ltac:(lia)). lia.
Qed.

(** Trailing zeros do not change the rounding. *)
Lemma rnd_scale m n k : 0 ≤ k → rnd (m * 2 ^ k) (n + k) = rnd m n.
Proof.
  intros Hk. assert (Hpk : 0 < 2 ^ k) by (apply Z.pow_pos_nonneg; lia).
  destruct (decide (n < 0)) as [Hn|Hn].
  - destruct (decide (n + k < 0)) as [Hnk|Hnk].
    + unfold rnd. rewrite !decide_True by done.
      rewrite <- Z.mul_assoc, <- Z.pow_add_r by lia. f_equal. f_equal. lia.
    + rewrite rnd_nonneg_shift by lia. unfold rnd.
      rewrite decide_True by done.
      replace (m * 2 ^ k) with (m * 2 ^ (- n) * 2 ^ (n + k)).
      2:{ rewrite <- Z.mul_assoc, <- Z.pow_add_r by lia. do 2 f_equal. lia. }
      assert (0 < 2 ^ (n + k)) by (apply Z.pow_pos_nonneg; lia).
      rewrite Z.mod_mul, Z.div_mul by lia.
      rewrite Z.mul_0_r. by destruct (Z.compare_spec 0 (2 ^ (n + k))); try lia.
  - assert (Hpn : 0 < 2 ^ n) by (apply Z.pow_pos_nonneg; lia).
    rewrite !rnd_nonneg_shift by lia.
    rewrite Z.pow_add_r by lia.
    rewrite Z.div_mul_cancel_r by lia.
    rewrite Z.mul_mod_distr_r by lia.
    rewrite Z.mul_assoc, <- Zmult_compare_compat_r by lia. done.
Qed.

(** ** The first shift of [binary_round_aux] *)

Lemma round_shr m (k : nat) :
  0 ≤ m →
  let mrs :=
    Nat.iter (S k) shr_1 {| shr_m := m; shr_r := false; shr_s := false |} in
  round_nearest_even (shr_m mrs) (loc_of_shr_record mrs)
  = rnd m (Z.of_nat (S k)).
Proof.
  intros Hm mrs. subst mrs. rewrite shr_iter by done.
  rewrite rnd_nonneg_shift by lia.
  replace (Z.of_nat (S k)) with (Z.of_nat k + 1) by lia.
  rewrite mod_pow2_succ by lia.
  assert (Hp : 0 < 2 ^ Z.of_nat k) by (apply Z.pow_pos_nonneg; lia).
  pose proof (Z.mod_pos_bound m (2 ^ Z.of_nat k) Hp).
  rewrite Z.pow_add_r, Z.pow_1_r by lia.
  cbn [shr_m]. destruct (Z.odd _) eqn:Hodd;
    destruct (Z.eqb_spec (m mod 2 ^ Z.of_nat k) 0) as [H0|H0];
    cbn [negb loc_of_shr_record round_nearest_even].
  - rewrite H0, Z.add_0_l.
    replace (2 * 2 ^ Z.of_nat k) with (2 ^ Z.of_nat k * 2) by lia.
    by rewrite Z.compare_refl.
  - destruct (Z.compare_spec
                (2 * (m mod 2 ^ Z.of_nat k + 2 ^ Z.of_nat k))
                (2 ^ Z.of_nat k * 2)); (done || lia).
  - rewrite H0, Z.add_0_l.
    destruct (Z.compare_spec (2 * 0) (2 ^ Z.of_nat k * 2)); (done || lia).
  - rewrite Z.add_0_r.
    destruct (Z.compare_spec (2 * (m mod 2 ^ Z.of_nat k))
                (2 ^ Z.of_nat k * 2)); (done || lia).
Qed.

Lemma shr_fexp_round m e :
  e ≤ fexp prec emax (Z.pos (digits2_pos m) + e) →
  let '(mrs, e') := shr_fexp prec emax (Z.pos m) e loc_Exact in
  e' = fexp prec emax (Z.pos (digits2_pos m) + e)
  ∧ round_nearest_even (shr_m mrs) (loc_of_shr_record mrs)
    = rnd (Z.pos m) (fexp prec emax (Z.pos (digits2_pos m) + e) - e).
Proof.
  intros Hn. unfold shr_fexp. cbn [Zdigits2].
  set (E := fexp prec emax (Z.pos (digits2_pos m) + e)) in *.
  destruct (E - e) as [|p|p] eqn:Hd; [|  |lia].
  - cbn [shr shr_record_of_loc shr_m loc_of_shr_record round_nearest_even].
    split; [lia|]. by rewrite rnd_0.
  - cbn [shr shr_record_of_loc]. split; [lia|].
    rewrite iter_pos_nat.
    destruct (Pos.to_nat p) as [|k] eqn:Hk; [lia|].
    rewrite (round_shr (Z.pos m) k) by lia. f_equal. lia.
Qed.

(** ** The renormalization and the overflow test *)

Lemma Zdigits2_le r d :
  0 ≤ d → 0 ≤ r < 2 ^ d → Zdigits2 r ≤ d.
Proof.
  intros Hd [Hr0 Hr]. destruct r as [|p|p]; [done| |lia].
  cbn [Zdigits2]. pose proof (digits2_pos_bounds p) as [Hlo _].
  destruct (decide (Z.pos (digits2_pos p) ≤ d)); [done|].
  assert (2 ^ d ≤ 2 ^ (Z.pos (digits2_pos p) - 1))
    by (apply Z.pow_le_mono_r; lia).
  lia.
Qed.

Lemma shr_fexp_finalize s r E :
  0 ≤ r ≤ 2 ^ 53 → -1074 ≤ E →
  (let '(mrs, e'') := shr_fexp prec emax r E loc_Exact in
   match shr_m mrs with
   | 0 => S754_zero s
   | Z.pos p =>
       if e'' <=? emax - prec then S754_finite s p e'' else S754_infinity s
   | Z.neg _ => S754_nan
   end)
  = finalize s r E.
Proof.
  intros Hr HE. unfold finalize. case_decide as H53.
  - subst r. unfold shr_fexp.
    change (Zdigits2 (2 ^ 53)) with 54. rewrite fexp_eq.
    replace (Z.max (54 + E - 53) (-1074) - E) with 1 by lia.
    cbn [shr iter_pos shr_record_of_loc]. reflexivity.
  - unfold shr_fexp.
    pose proof (Zdigits2_le r 53 ltac:(lia) ltac:(lia)) as Hd.
    rewrite fexp_eq.
    destruct (Z.max (Zdigits2 r + E - 53) (-1074) - E) as [| |] eqn:Hn;
      [| lia |]; by cbn [shr shr_record_of_loc shr_m].
Qed.

Lemma rnd_le_pow m d n :
  0 ≤ n → 0 ≤ d → 0 ≤ m < 2 ^ (d + n) → 0 ≤ rnd m n ≤ 2 ^ d.
Proof.
  intros Hn Hd [Hm0 Hm].
  assert (Hp : 0 < 2 ^ n) by (apply Z.pow_pos_nonneg; lia).
  pose proof (rnd_bounds m n Hn).
  assert (0 ≤ m / 2 ^ n) by (apply Z.div_pos; lia).
  assert (m / 2 ^ n < 2 ^ d).
  { apply Z.div_lt_upper_bound; [done|]. by rewrite <- Z.pow_add_r, Z.add_comm by lia. }
  lia.
Qed.

(** [binary_round_aux] on an exact mantissa that needs no shift to the
    left. *)
Lemma binary_round_aux_spec s m e :
  e ≤ fexp prec emax (Z.pos (digits2_pos m) + e) →
  binary_round_aux prec emax s (Z.pos m) e loc_Exact
  = finalize s
      (rnd (Z.pos m) (fexp prec emax (Z.pos (digits2_pos m) + e) - e))
      (fexp prec emax (Z.pos (digits2_pos m) + e)).
Proof.
  intros Hn. unfold binary_round_aux.
  pose proof (shr_fexp_round m e Hn) as Hfirst.
  destruct (shr_fexp prec emax (Z.pos m) e loc_Exact) as [mrs e'].
  destruct Hfirst as [-> ->].
  apply shr_fexp_finalize.
  - pose proof (digits2_pos_bounds m) as [_ Hhi].
    apply rnd_le_pow; [lia|lia|]. split; [lia|].
    eapply Z.lt_le_trans; [exact Hhi|]. apply Z.pow_le_mono_r; [lia|].
    rewrite fexp_eq. lia.
  - rewrite fexp_eq. lia.
Qed.

Lemma pos_iter_xO m d : Z.pos (Pos.iter xO m d) = Z.pos m * 2 ^ Z.pos d.
Proof.
  induction d as [|d IH] using Pos.peano_ind.
  - cbn. lia.
  - rewrite Pos.iter_succ, Pos2Z.inj_succ, Z.pow_succ_r by lia.
    change (Z.pos (Pos.iter xO m d)~0) with (2 * Z.pos (Pos.iter xO m d)).
    rewrite IH. lia.
Qed.

Lemma binary_round_spec s m e :
  binary_round prec emax s m e
  = finalize s
      (rnd (Z.pos m) (fexp prec emax (Z.pos (digits2_pos m) + e) - e))
      (fexp prec emax (Z.pos (digits2_pos m) + e)).
Proof.
  unfold binary_round, shl_align.
  set (E := fexp prec emax (Z.pos (digits2_pos m) + e)).
  destruct (E - e) as [|p|p] eqn:Hd.
  - rewrite binary_round_aux_spec; fold E; [|lia]. by rewrite Hd.
  - rewrite binary_round_aux_spec; fold E; [|lia]. by rewrite Hd.
  - assert (Hdig : Z.pos (digits2_pos (Pos.iter xO m p))
                   = Z.pos (digits2_pos m) + Z.pos p).
    { pose proof (digits2_pos_shift m (Z.pos p) ltac:(lia)) as Hs.
      rewrite <- pos_iter_xO in Hs. exact Hs. }
    assert (HE : fexp prec emax (Z.pos (digits2_pos (Pos.iter xO m p)) + E)
                 = E).
    { rewrite Hdig. subst E. f_equal. lia. }
    rewrite binary_round_aux_spec; rewrite HE; [|lia].
    rewrite Z.sub_diag, rnd_0, pos_iter_xO. unfold rnd.
    rewrite decide_True by lia. reflexivity.
Qed.

(** ** Rounded mantissas *)

Lemma rnd_ok m e :
  rounded_ok
    (rnd (Z.pos m) (fexp prec emax (Z.pos (digits2_pos m) + e) - e))
    (fexp prec emax (Z.pos (digits2_pos m) + e)).
Proof.
  pose proof (digits2_pos_bounds m) as [Hlo Hhi].
  set (D := Z.pos (digits2_pos m)) in *. rewrite fexp_eq.
  set (E := Z.max (D + e - 53) (-1074)).
  assert (HD : 0 < D) by (subst D; lia).
  destruct (decide (E - e < 0)) as [Hn|Hn].
  - unfold rnd. rewrite decide_True by done.
    assert (Hp : 0 < 2 ^ (- (E - e))) by (apply Z.pow_pos_nonneg; lia).
    assert (Hup : Z.pos m * 2 ^ (- (E - e)) < 2 ^ (D + - (E - e))).
    { rewrite Z.pow_add_r by lia. nia. }
    assert (2 ^ (D + - (E - e)) ≤ 2 ^ 53) by (apply Z.pow_le_mono_r; lia).
    split; [lia|]. split; [lia|]. intros HE.
    assert (HE' : D + - (E - e) = 53) by lia.
    assert (Hlow : 2 ^ (D - 1 + - (E - e)) ≤ Z.pos m * 2 ^ (- (E - e))).
    { rewrite Z.pow_add_r by lia. nia. }
    replace (D - 1 + - (E - e)) with 52 in Hlow by lia. done.
  - split; [|split; [lia|]].
    + apply rnd_le_pow; [lia|lia|]. split; [lia|].
      eapply Z.lt_le_trans; [exact Hhi|]. apply Z.pow_le_mono_r; lia.
    + intros HE. assert (Hn' : E - e = D - 53) by lia.
      assert (Hp : 0 < 2 ^ (E - e)) by (apply Z.pow_pos_nonneg; lia).
      pose proof (rnd_bounds (Z.pos m) (E - e) ltac:(lia)).
      assert (2 ^ 52 ≤ Z.pos m / 2 ^ (E - e)); [|lia].
      apply Z.div_le_lower_bound; [done|].
      rewrite <- Z.pow_add_r by lia.
      by replace (E - e + 52) with (D - 1) by lia.
Qed.

Lemma finalize_signed s r E : 0 ≤ r → signed s (finalize s r E).
Proof.
  intros Hr. unfold finalize. case_decide.
  - cbn. by destruct (_ <=? _).
  - destruct r; [done| |lia]. by destruct (_ <=? _).
Qed.

Lemma finalize_opp s r E : finalize (negb s) r E = SFopp (finalize s r E).
Proof.
  unfold finalize. case_decide.
  - cbn. by destruct (_ <=? _).
  - destruct r; [done| |done]. by destruct (_ <=? _).
Qed.

Lemma finalize_valid s r E :
  rounded_ok r E → valid_binary prec emax (finalize s r E) = true.
Proof.
  intros ([Hr0 Hr] & HE & Hnorm). unfold finalize. case_decide as H53.
  - change (2 ^ 52) with 4503599627370496. cbv iota beta.
    change (emax - prec) with 971.
    destruct (Z.leb_spec (E + 1) 971); [|done].
    cbn [valid_binary]. unfold bounded, canonical_mantissa.
    change (emax - prec) with 971. rewrite fexp_eq.
    apply andb_true_intro. split; [apply Z.eqb_eq | apply Z.leb_le].
    + change (Z.pos (digits2_pos 4503599627370496)) with 53. lia.
    + done.
  - destruct r as [|p|p]; [done| |lia].
    change (emax - prec) with 971.
    destruct (Z.leb_spec E 971); [|done].
    cbn [valid_binary]. unfold bounded, canonical_mantissa.
    change (emax - prec) with 971. rewrite fexp_eq.
    apply andb_true_intro. split; [apply Z.eqb_eq | by apply Z.leb_le].
    pose proof (Zdigits2_le (Z.pos p) 53 ltac:(lia) ltac:(lia)) as Hd.
    cbn [Zdigits2] in Hd.
    destruct (decide (-1074 < E)) as [Hgt|]; [|lia].
    specialize (Hnorm Hgt).
    rewrite (digits2_pos_unique p 53); [lia|].
    split; [done | lia].
Qed.

(** ** The order of doubles *)

Lemma SFleb_pos_finite m1 e1 m2 e2 :
  e1 < e2 ∨ (e1 = e2 ∧ Z.pos m1 ≤ Z.pos m2) →
  SFleb (S754_finite false m1 e1) (S754_finite false m2 e2) = true.
Proof.
  intros H. unfold SFleb, SFcompare.
  destruct (Z.compare_spec e1 e2); [|done|lia].
  change (Pos.compare_cont Eq m1 m2) with (Pos.compare m1 m2).
  destruct (Pos.compare_spec m1 m2); (done || lia).
Qed.

Lemma SFleb_pos_finite_inv m1 e1 m2 e2 :
  SFleb (S754_finite false m1 e1) (S754_finite false m2 e2) = true →
  e1 < e2 ∨ (e1 = e2 ∧ Z.pos m1 ≤ Z.pos m2).
Proof.
  unfold SFleb, SFcompare.
  destruct (Z.compare_spec e1 e2); [|by left|done].
  change (Pos.compare_cont Eq m1 m2) with (Pos.compare m1 m2).
  destruct (Pos.compare_spec m1 m2); intros; (done || (right; lia)).
Qed.

Lemma SFcompare_opp a b : SFcompare (SFopp a) (SFopp b) = SFcompare b a.
Proof.
  destruct a as [[]|[]| |[] ma ea], b as [[]|[]| |[] mb eb]; try done;
    cbn [SFopp SFcompare negb];
    rewrite (Z.compare_antisym ea eb);
    change (Pos.compare_cont Eq ?x ?y) with (Pos.compare x y);
    rewrite (Pos.compare_antisym ma mb);
    by destruct (ea ?= eb), (ma ?= mb)%positive.
Qed.

Lemma SFleb_opp a b : SFleb (SFopp a) (SFopp b) = SFleb b a.
Proof. unfold SFleb. by rewrite SFcompare_opp. Qed.

Lemma SFleb_signed a b : signed true a → signed false b → SFleb a b = true.
Proof.
  destruct a as [sa|sa| |sa ma ea], b as [sb|sb| |sb mb eb]; cbn;
    intros; subst; done.
Qed.

Lemma SFleb_zero_signed s b : signed false b → SFleb (S754_zero s) b = true.
Proof. destruct b as [sb|sb| |sb mb eb]; cbn; intros; subst; done. Qed.

Lemma SFleb_signed_zero s a : signed true a → SFleb a (S754_zero s) = true.
Proof. destruct a as [sb|sb| |sb mb eb]; cbn; intros; subst; done. Qed.

Lemma finalize_le r1 E1 r2 E2 :
  rounded_ok r1 E1 → rounded_ok r2 E2 →
  (E1 = E2 ∧ r1 ≤ r2) ∨ E1 < E2 →
  SFleb (finalize false r1 E1) (finalize false r2 E2) = true.
Proof.
  intros ([Hr1 Hr1'] & HE1 & Hn1) ([Hr2 Hr2'] & HE2 & Hn2) Hle.
  assert (H52 : 2 ^ 52 = 4503599627370496) by reflexivity.
  assert (H53 : 2 ^ 53 = 9007199254740992) by reflexivity.
  unfold finalize. change (emax - prec) with 971.
  rewrite H52, H53 in *.
  repeat case_decide; subst;
    repeat match goal with
    | |- context [match ?r with 0 => _ | Z.pos _ => _ | Z.neg _ => _ end] =>
        is_var r; destruct r; try lia
    end;
    repeat match goal with
    | |- context [?a <=? 971] => destruct (Z.leb_spec a 971)
    end;
    try done; try lia;
    try (apply SFleb_pos_finite; lia).
Qed.

(** ** [binary_normalize] is monotone *)

Lemma binary_normalize_signed N e :
  signed (N <? 0) (binary_normalize prec emax N e false).
Proof.
  destruct N as [|p|p]; cbn [binary_normalize]; [done| |];
    rewrite binary_round_spec; apply finalize_signed;
    pose proof (rnd_ok p e) as [? _]; lia.
Qed.

Lemma digits2_pos_mono p q :
  Z.pos p ≤ Z.pos q → Z.pos (digits2_pos p) ≤ Z.pos (digits2_pos q).
Proof.
  intros Hpq. rewrite !digits2_pos_log2.
  pose proof (Z.log2_le_mono _ _ Hpq). lia.
Qed.

Lemma binary_round_mono p q e :
  e ≤ -1074 → Z.pos p ≤ Z.pos q →
  SFleb (binary_round prec emax false p e) (binary_round prec emax false q e)
  = true.
Proof.
  intros He Hpq. rewrite !binary_round_spec.
  pose proof (rnd_ok p e) as Hp. pose proof (rnd_ok q e) as Hq.
  pose proof (digits2_pos_mono p q Hpq) as Hd.
  apply finalize_le; [done|done|]. revert Hp Hq. rewrite !fexp_eq.
  intros Hp Hq.
  destruct (decide (Z.max (Z.pos (digits2_pos p) + e - 53) (-1074)
                    = Z.max (Z.pos (digits2_pos q) + e - 53) (-1074)))
    as [Heq|Hne].
  - left. split; [done|]. rewrite Heq. by apply rnd_mono.
  - right. lia.
Qed.

Lemma binary_normalize_mono N1 N2 e :
  e ≤ -1074 → N1 ≤ N2 →
  SFleb (binary_normalize prec emax N1 e false)
        (binary_normalize prec emax N2 e false) = true.
Proof.
  intros He HN.
  pose proof (binary_normalize_signed N1 e) as H1.
  pose proof (binary_normalize_signed N2 e) as H2.
  destruct N1 as [|p|p], N2 as [|q|q]; try lia.
  - done.
  - by apply SFleb_zero_signed.
  - by apply binary_round_mono.
  - by apply SFleb_signed_zero.
  - by apply SFleb_signed.
  - cbn [binary_normalize].
    change true with (negb false). rewrite !binary_round_spec, !finalize_opp.
    rewrite SFleb_opp, <- !binary_round_spec.
    apply binary_round_mono; [done|lia].
Qed.

(** Trailing zeros of the mantissa do not matter. *)
Lemma binary_normalize_scale N e k sz :
  0 ≤ k →
  binary_normalize prec emax (N * 2 ^ k) (e - k) sz
  = binary_normalize prec emax N e sz.
Proof.
  intros Hk. assert (Hp : 0 < 2 ^ k) by (apply Z.pow_pos_nonneg; lia).
  assert (Hpos : ∀ s p q, Z.pos q = Z.pos p * 2 ^ k →
            binary_round prec emax s q (e - k)
            = binary_round prec emax s p e).
  { intros s p q Hq. rewrite !binary_round_spec.
    assert (Hd : Z.pos (digits2_pos q) = Z.pos (digits2_pos p) + k).
    { pose proof (digits2_pos_shift p k Hk) as Hs. rewrite <- Hq in Hs.
      exact Hs. }
    rewrite Hd.
    replace (Z.pos (digits2_pos p) + k + (e - k))
      with (Z.pos (digits2_pos p) + e) by lia.
    f_equal. rewrite Hq.
    replace (fexp prec emax (Z.pos (digits2_pos p) + e) - (e - k))
      with (fexp prec emax (Z.pos (digits2_pos p) + e) - e + k) by lia.
    by apply rnd_scale. }
  destruct N as [|p|p].
  - done.
  - destruct (Z.pos p * 2 ^ k) as [|q|q] eqn:Hq; try lia.
    cbn [binary_normalize]. by apply Hpos.
  - destruct (Z.neg p * 2 ^ k) as [|q|q] eqn:Hq; try lia.
    cbn [binary_normalize]. apply Hpos. lia.
Qed.

(** ** Doubles as integers: the value in units of 2^-1074 *)

Lemma valid_finite s m e :
  valid_binary prec emax (S754_finite s m e) = true →
  -1074 ≤ e ≤ 971 ∧ Z.pos m < 2 ^ 53 ∧ (-1074 < e → 2 ^ 52 ≤ Z.pos m)
  ∧ fexp prec emax (Z.pos (digits2_pos m) + e) = e.
Proof.
  cbn [valid_binary]. unfold bounded, canonical_mantissa.
  intros [Hc He]%andb_prop. apply Z.eqb_eq in Hc. apply Z.leb_le in He.
  change (emax - prec) with 971 in He.
  pose proof (digits2_pos_bounds m) as [Hlo Hhi].
  pose proof Hc as Hc'. rewrite fexp_eq in Hc'.
  split; [lia|]. split; [|split; [|done]].
  - eapply Z.lt_le_trans; [exact Hhi|]. apply Z.pow_le_mono_r; lia.
  - intros Hgt. replace 52 with (Z.pos (digits2_pos m) - 1) by lia. done.
Qed.

(** Rounding a double gives the double. *)
Lemma binary_round_valid s m e :
  valid_binary prec emax (S754_finite s m e) = true →
  binary_round prec emax s m e = S754_finite s m e.
Proof.
  intros Hv. pose proof (valid_finite s m e Hv) as (He & Hm & _ & Hc).
  rewrite binary_round_spec, Hc, Z.sub_diag, rnd_0.
  unfold finalize. destruct (decide (Z.pos m = 2 ^ 53)) as [|_]; [lia|].
  change (emax - prec) with 971.
  destruct (Z.leb_spec e 971); [done|lia].
Qed.

Lemma Zval_normalize s m e :
  valid_binary prec emax (S754_finite s m e) = true →
  binary_normalize prec emax (Zval (S754_finite s m e)) (-1074) false
  = S754_finite s m e.
Proof.
  intros Hv. pose proof (valid_finite s m e Hv) as (He & _).
  cbn [Zval].
  replace (-1074) with (e - (e + 1074)) by lia.
  rewrite binary_normalize_scale by lia.
  destruct s;
    [change (cond_Zopp true (Z.pos m)) with (Z.neg m)
    |change (cond_Zopp false (Z.pos m)) with (Z.pos m)];
    unfold binary_normalize; by rewrite binary_round_valid.
Qed.

(** The order of well-formed finite doubles is the order of their
    values. *)
Lemma SFleb_Zval x y :
  valid_binary prec emax x = true → valid_binary prec emax y = true →
  is_finite x = true → is_finite y = true →
  SFleb x y = true → Zval x ≤ Zval y.
Proof.
  intros Hx Hy Hfx Hfy Hle.
  destruct x as [sx| | |sx mx ex], y as [sy| | |sy my ey]; try done;
    cbn [Zval].
  - destruct sy; [done|]. cbn [cond_Zopp].
    assert (0 < 2 ^ (ey + 1074)); [|lia].
    apply Z.pow_pos_nonneg; [lia|].
    pose proof (valid_finite _ _ _ Hy). lia.
  - destruct sx; [|done]. cbn [cond_Zopp].
    assert (0 < 2 ^ (ex + 1074)); [|lia].
    apply Z.pow_pos_nonneg; [lia|].
    pose proof (valid_finite _ _ _ Hx). lia.
  - pose proof (valid_finite _ _ _ Hx) as (Hex & Hmx & Hnx & _).
    pose proof (valid_finite _ _ _ Hy) as (Hey & Hmy & Hny & _).
    assert (Hpx : 0 < 2 ^ (ex + 1074)) by (apply Z.pow_pos_nonneg; lia).
    assert (Hpy : 0 < 2 ^ (ey + 1074)) by (apply Z.pow_pos_nonneg; lia).
    assert (Hkey : ∀ m1 e1 m2 e2,
              -1074 ≤ e1 → Z.pos m1 < 2 ^ 53 →
              (-1074 < e2 → 2 ^ 52 ≤ Z.pos m2) →
              e1 < e2 ∨ (e1 = e2 ∧ Z.pos m1 ≤ Z.pos m2) →
              Z.pos m1 * 2 ^ (e1 + 1074) ≤ Z.pos m2 * 2 ^ (e2 + 1074)).
    { intros m1 e1 m2 e2 He1 Hm1 Hn2 [Hlt|[-> Hm]].
      - replace (e2 + 1074) with (e2 - e1 - 1 + 1 + (e1 + 1074)) by lia.
        rewrite (Z.pow_add_r 2 (e2 - e1 - 1 + 1) (e1 + 1074)) by lia.
        rewrite (Z.pow_add_r 2 (e2 - e1 - 1) 1) by lia.
        assert (0 < 2 ^ (e2 - e1 - 1)) by (apply Z.pow_pos_nonneg; lia).
        assert (0 < 2 ^ (e1 + 1074)) by (apply Z.pow_pos_nonneg; lia).
        specialize (Hn2 ltac:(lia)).
        change (2 ^ 1) with 2.
        assert (Hm12 : Z.pos m1 ≤ 2 * Z.pos m2) by lia.
        set (A := 2 ^ (e1 + 1074)) in *. set (B := 2 ^ (e2 - e1 - 1)) in *.
        apply Z.le_trans with (Z.pos m2 * (1 * 2 * A)); [nia|].
        apply Z.mul_le_mono_nonneg_l; [lia|].
        apply Z.mul_le_mono_nonneg_r; [lia|].
        apply Z.mul_le_mono_nonneg_r; lia.
      - apply Z.mul_le_mono_nonneg_r; [|done]. apply Z.pow_nonneg. lia. }
    destruct sx, sy; cbn [cond_Zopp]; try done.
    + change (S754_finite true mx ex) with (SFopp (S754_finite false mx ex))
        in Hle.
      change (S754_finite true my ey) with (SFopp (S754_finite false my ey))
        in Hle.
      rewrite SFleb_opp in Hle. apply SFleb_pos_finite_inv in Hle.
      specialize (Hkey my ey mx ex ltac:(lia) Hmy Hnx Hle). lia.
    + lia.
    + apply SFleb_pos_finite_inv in Hle.
      apply Hkey; [lia|done|done|done].
Qed.

(** ** The operations on values *)

Lemma binary_normalize_cond_Zopp s p e :
  binary_normalize prec emax (cond_Zopp s (Z.pos p)) e false
  = binary_round prec emax s p e.
Proof. by destruct s. Qed.

Lemma cond_Zopp_mul sa sb a b :
  cond_Zopp sa a * cond_Zopp sb b = cond_Zopp (xorb sa sb) (a * b).
Proof. destruct sa, sb; cbn; lia. Qed.

(** The product of two doubles is the rounded product of their values. *)
Lemma dmul_Zval sa ma ea sb mb eb :
  valid_binary prec emax (S754_finite sa ma ea) = true →
  valid_binary prec emax (S754_finite sb mb eb) = true →
  dmul (S754_finite sa ma ea) (S754_finite sb mb eb)
  = binary_normalize prec emax
      (Zval (S754_finite sa ma ea) * Zval (S754_finite sb mb eb))
      (-2148) false.
Proof.
  intros Ha Hb.
  pose proof (valid_finite _ _ _ Ha) as (Hea & Hma & Hna & Hca).
  pose proof (valid_finite _ _ _ Hb) as (Heb & Hmb & Hnb & Hcb).
  cbn [Zval].
  replace (cond_Zopp sa (Z.pos ma) * 2 ^ (ea + 1074)
           * (cond_Zopp sb (Z.pos mb) * 2 ^ (eb + 1074)))
    with (cond_Zopp (xorb sa sb) (Z.pos (ma * mb))
          * 2 ^ (ea + eb + 2148)).
  2:{ rewrite Pos2Z.inj_mul, <- cond_Zopp_mul.
      replace (ea + eb + 2148) with (ea + 1074 + (eb + 1074)) by lia.
      rewrite (Z.pow_add_r 2 (ea + 1074) (eb + 1074)) by lia. lia. }
  replace (-2148) with (ea + eb - (ea + eb + 2148)) by lia.
  rewrite binary_normalize_scale by lia.
  rewrite binary_normalize_cond_Zopp, binary_round_spec.
  unfold dmul, SFmul. apply binary_round_aux_spec.
  rewrite fexp_eq in *.
  assert (Hd : Z.pos (digits2_pos ma) + Z.pos (digits2_pos mb) - 1
               ≤ Z.pos (digits2_pos (ma * mb))).
  { rewrite !digits2_pos_log2, Pos2Z.inj_mul.
    pose proof (Z.log2_mul_below (Z.pos ma) (Z.pos mb) ltac:(lia) ltac:(lia)).
    lia. }
  lia.
Qed.

Lemma shl_align_fst m e ez :
  ez ≤ e → Z.pos (fst (shl_align m e ez)) = Z.pos m * 2 ^ (e - ez).
Proof.
  intros He. unfold shl_align.
  destruct (ez - e) as [|d|d] eqn:Hd; cbn [fst]; [|lia|].
  - replace (e - ez) with 0 by lia. cbn. lia.
  - rewrite pos_iter_xO. do 2 f_equal. lia.
Qed.

(** The sum of two doubles is the rounded sum of their values. *)
Lemma dadd_Zval a b :
  valid_binary prec emax a = true → valid_binary prec emax b = true →
  is_finite a = true →
  (∃ sb mb eb, b = S754_finite sb mb eb) →
  dadd a b = binary_normalize prec emax (Zval a + Zval b) (-1074) false.
Proof.
  intros Ha Hb Hfa (sb & mb & eb & ->).
  destruct a as [sa| | |sa ma ea]; try done.
  - change (Zval (S754_zero sa)) with 0. rewrite Z.add_0_l.
    by rewrite Zval_normalize.
  - pose proof (valid_finite _ _ _ Ha) as (Hea & _).
    pose proof (valid_finite _ _ _ Hb) as (Heb & _).
    unfold dadd, SFadd. set (ez := Z.min ea eb).
    assert (Hez : -1074 ≤ ez ∧ ez ≤ ea ∧ ez ≤ eb) by (unfold ez; lia).
    clearbody ez.
    rewrite <- (binary_normalize_scale _ ez (ez + 1074)) by lia.
    replace (ez - (ez + 1074)) with (-1074) by lia. f_equal.
    cbn [Zval].
    rewrite Z.mul_add_distr_r.
    assert (Hs : ∀ s m e, ez ≤ e →
              cond_Zopp s (Z.pos (fst (shl_align m e ez))) * 2 ^ (ez + 1074)
              = cond_Zopp s (Z.pos m) * 2 ^ (e + 1074)).
    { intros s m e He. rewrite shl_align_fst by done.
      replace (e + 1074) with (e - ez + (ez + 1074)) by lia.
      rewrite (Z.pow_add_r 2 (e - ez) (ez + 1074)) by lia.
      destruct s; cbn [cond_Zopp]; lia. }
    rewrite !Hs by lia. done.
Qed.

Lemma dmul_valid a b :
  valid_binary prec emax a = true → valid_binary prec emax b = true →
  is_finite a = true → is_finite b = true →
  valid_binary prec emax (dmul a b) = true ∧ dmul a b ≠ S754_nan.
Proof.
  intros Ha Hb Hfa Hfb.
  destruct a as [sa| | |sa ma ea], b as [sb| | |sb mb eb]; try done.
  rewrite dmul_Zval by done.
  set (N := Zval _ * Zval _). clearbody N.
  pose proof (binary_normalize_signed N (-2148)) as Hs.
  split; [|by intros Heq; rewrite Heq in Hs].
  destruct N as [|p|p]; cbn [binary_normalize]; [done| |];
    rewrite binary_round_spec; apply finalize_valid, rnd_ok.
Qed.

Lemma SFleb_infinity_r x : x ≠ S754_nan → SFleb x (S754_infinity false) = true.
Proof. by destruct x as [[]|[]| |[]]. Qed.

Lemma SFleb_infinity_l x : x ≠ S754_nan → SFleb (S754_infinity true) x = true.
Proof. by destruct x as [[]|[]| |[]]. Qed.

Lemma signed_not_nan s x : signed s x → x ≠ S754_nan.
Proof. by destruct x. Qed.

(** Multiplication by a fixed non-negative double is monotone. *)
Lemma dmul_mono_l a1 a2 c :
  valid_binary prec emax a1 = true → valid_binary prec emax a2 = true →
  valid_binary prec emax c = true →
  is_finite a1 = true → is_finite a2 = true → is_finite c = true →
  SFleb (S754_zero false) c = true →
  SFleb a1 a2 = true →
  SFleb (dmul a1 c) (dmul a2 c) = true.
Proof.
  intros H1 H2 Hc Hf1 Hf2 Hfc Hc0 Hle.
  pose proof (SFleb_Zval a1 a2 H1 H2 Hf1 Hf2 Hle) as Hv.
  destruct c as [sc| | |sc mc ec]; try done.
  - destruct a1 as [?| | |? ? ?], a2 as [?| | |? ? ?]; try done.
  - destruct sc; [done|].
    assert (Hcpos : 0 < Zval (S754_finite false mc ec)).
    { cbn [Zval cond_Zopp]. pose proof (valid_finite _ _ _ Hc) as (? & _).
      assert (0 < 2 ^ (ec + 1074)) by (apply Z.pow_pos_nonneg; lia). lia. }
    destruct a1 as [s1| | |s1 m1 e1], a2 as [s2| | |s2 m2 e2]; try done.
    + rewrite dmul_Zval by done. cbn [dmul SFmul].
      apply SFleb_zero_signed.
      pose proof (binary_normalize_signed
                    (Zval (S754_finite s2 m2 e2)
                     * Zval (S754_finite false mc ec)) (-2148)) as Hs.
      change (Zval (S754_zero s1)) with 0 in Hv.
      destruct (Z.ltb_spec (Zval (S754_finite s2 m2 e2)
                            * Zval (S754_finite false mc ec)) 0); [nia|done].
    + rewrite dmul_Zval by done. cbn [dmul SFmul].
      change (Zval (S754_zero s2)) with 0 in Hv.
      destruct s1.
      * apply SFleb_signed_zero.
        pose proof (binary_normalize_signed
                      (Zval (S754_finite true m1 e1)
                       * Zval (S754_finite false mc ec)) (-2148)) as Hs.
        destruct (Z.ltb_spec (Zval (S754_finite true m1 e1)
                              * Zval (S754_finite false mc ec)) 0);
          [done|].
        assert (Zval (S754_finite true m1 e1) < 0); [|nia].
        cbn [Zval cond_Zopp]. pose proof (valid_finite _ _ _ H1) as (? & _).
        assert (0 < 2 ^ (e1 + 1074)) by (apply Z.pow_pos_nonneg; lia). lia.
      * exfalso. cbn [Zval cond_Zopp] in Hv.
        pose proof (valid_finite _ _ _ H1) as (? & _).
        assert (0 < 2 ^ (e1 + 1074)) by (apply Z.pow_pos_nonneg; lia). lia.
    + rewrite !dmul_Zval by done.
      apply binary_normalize_mono; [lia|]. nia.
Qed.

Lemma dmul_comm a b : dmul a b = dmul b a.
Proof.
  destruct a as [[]|[]| |sa ma ea], b as [[]|[]| |sb mb eb]; try done;
    cbn [dmul SFmul]; try by destruct sa. 
  - by destruct sb.
  - by destruct sb.
  - by rewrite xorb_comm, Pos.mul_comm, Z.add_comm.
Qed.

(** Addition is monotone in both arguments; the second ones are finite
    and not zero here. *)
Lemma dadd_mono a1 a2 b1 b2 :
  valid_binary prec emax a1 = true → valid_binary prec emax a2 = true →
  valid_binary prec emax b1 = true → valid_binary prec emax b2 = true →
  (∃ s m e, b1 = S754_finite s m e) → (∃ s m e, b2 = S754_finite s m e) →
  SFleb a1 a2 = true → SFleb b1 b2 = true →
  SFleb (dadd a1 b1) (dadd a2 b2) = true.
Proof.
  intros Ha1 Ha2 Hb1 Hb2 Hfb1 Hfb2 Hlea Hleb.
  assert (Hnn : ∀ a b, valid_binary prec emax a = true →
            valid_binary prec emax b = true → a ≠ S754_nan →
            (∃ s m e, b = S754_finite s m e) → dadd a b ≠ S754_nan).
  { intros a b Ha Hb Hna Hfb.
    destruct (is_finite a) eqn:Hfa.
    - rewrite dadd_Zval by done.
      eapply signed_not_nan, binary_normalize_signed.
    - destruct Hfb as (s & m & e & ->). by destruct a as [|[]| |]. }
  assert (Hn1 : a1 ≠ S754_nan) by (by intros ->).
  assert (Hn2 : a2 ≠ S754_nan) by (intros ->; by destruct a1).
  destruct (is_finite a1) eqn:Hf1, (is_finite a2) eqn:Hf2.
  - rewrite !dadd_Zval by done. apply binary_normalize_mono; [lia|].
    pose proof (SFleb_Zval a1 a2 Ha1 Ha2 Hf1 Hf2 Hlea).
    destruct Hfb1 as (s1 & m1 & e1 & ->), Hfb2 as (s2 & m2 & e2 & ->).
    pose proof (SFleb_Zval _ _ Hb1 Hb2 eq_refl eq_refl Hleb). lia.
  - destruct a2 as [|s2| |]; try done. destruct s2.
    + by destruct a1 as [|[]| |[]].
    + destruct Hfb2 as (s & m & e & ->).
      change (dadd (S754_infinity false) (S754_finite s m e))
        with (S754_infinity false).
      apply SFleb_infinity_r. by apply Hnn.
  - destruct a1 as [|s1| |]; try done. destruct s1.
    + destruct Hfb1 as (s & m & e & ->).
      change (dadd (S754_infinity true) (S754_finite s m e))
        with (S754_infinity true).
      apply SFleb_infinity_l. by apply Hnn.
    + by destruct a2 as [|[]| |[]].
  - destruct Hfb1 as (s & m & e & ->), Hfb2 as (s' & m' & e' & ->).
    by destruct a1 as [|[]| |], a2 as [|[]| |].
Qed.

(** ** The result monad *)

Lemma bind_Ok {A B} (f : A → Result B) (r : Result A) (b : B) :
  r ≫= f = Ok b ↔ ∃ a, r = Ok a ∧ f a = Ok b.
Proof.
  destruct r as [a|e]; cbn.
  - split; [by exists a | by intros (? & [= ->] & ?)].
  - split; [done | by intros (? & ? & ?)].
Qed.

Lemma option_Forall2_Some_r_inv {A B} (R : A → B → Prop) mx (b : B) :
  option_Forall2 R mx (Some b) → ∃ a, mx = Some a ∧ R a b.
Proof. inversion 1; eauto. Qed.

Lemma Ok_inj {A} (a b : A) : Ok a = Ok b → a = b.
Proof. by intros [= ->]. Qed.

(** ** [vec_at], [marker_name], [initSystem] *)

Lemma vec_at_Ok (x : VectorXd) (i : Z) (v : double) :
  vec_at x i = Ok v ↔ 0 ≤ i ∧ x !! Z.to_nat i = Some v.
Proof.
  unfold vec_at. destruct (decide (i < 0)).
  - split; [done | lia].
  - destruct (x !! Z.to_nat i) as [w|].
    + split; [intros [= ->]; split; [lia | done] | by intros [_ [= ->]]].
    + split; [done | by intros [_ ?]].
Qed.

Lemma vec_at_in_range (x : VectorXd) (i : Z) :
  0 ≤ i < Z.of_nat (length x) → ∃ v, vec_at x i = Ok v.
Proof.
  intros Hi. destruct (lookup_lt_is_Some_2 x (Z.to_nat i)) as [v Hv]; [lia|].
  exists v. apply vec_at_Ok. split; [lia | done].
Qed.

Lemma marker_name_inj (i j : Z) : marker_name i = marker_name j → i = j.
Proof.
  unfold marker_name. intros Heq. apply (inj pretty).
  by simplify_eq/=.
Qed.

Lemma initSystem_Ok (model model' : Model) :
  initSystem model = Ok model' → model' = model.
Proof. unfold initSystem. destruct (list_find _ _) as [[]|]; naive_solver. Qed.

Lemma initSystem_attached (model : Model) :
  forallb (λ c, bool_decide (is_Some (markers model !! station c)))
    (contacts model) = true →
  initSystem model = Ok model.
Proof.
  intros Hall. unfold initSystem.
  destruct (list_find _ _) as [[i c]|] eqn:Hfind; [|done].
  apply list_find_Some in Hfind as (Hc & Hnone & _).
  rewrite forallb_forall in Hall.
  assert (Hin : In c (contacts model)).
  { apply list_elem_of_In, list_elem_of_lookup. eauto. }
  apply Hall, bool_decide_eq_true in Hin. rewrite Hnone in Hin.
  by destruct Hin.
Qed.

(** ** [applyParametersToModel]: the marker loop *)

Lemma applyMarkerHeight_Ok (model model' : Model) name normHeight :
  applyMarkerHeight model name normHeight = Ok model' ↔
  ∃ marker, markers model !! name = Some marker
    ∧ model' = set_markers model
        (<[name := upd_location1 marker (markerHeight normHeight)]>
           (markers model)).
Proof.
  unfold applyMarkerHeight. destruct (markers model !! name) as [mk|].
  - split.
    + intros Heq. exists mk. split; [reflexivity|].
      apply Ok_inj in Heq. symmetry. exact Heq.
    + intros (mk' & Hmk & ->). injection Hmk as <-. reflexivity.
  - split; [discriminate | intros (? & ? & _); discriminate].
Qed.

Lemma markerLoop_cons (x : VectorXd) i rest (model model' : Model) :
  markerLoop x (i :: rest) model = Ok model' ↔
  ∃ xi marker,
    0 ≤ i ∧ x !! Z.to_nat i = Some xi
    ∧ markers model !! marker_name i = Some marker
    ∧ markerLoop x rest
        (set_markers model
           (<[marker_name i := upd_location1 marker (markerHeight xi)]>
              (markers model))) = Ok model'.
Proof.
  cbn [markerLoop]. rewrite bind_Ok. split.
  - intros (xi & Hx & Hrest). apply vec_at_Ok in Hx as [??].
    apply bind_Ok in Hrest as (ma & (mk & ? & ->)%applyMarkerHeight_Ok & ?).
    by exists xi, mk.
  - intros (xi & mk & ? & ? & Hmk & Hrest). exists xi. split.
    + by apply vec_at_Ok.
    + apply bind_Ok. eexists. split; [|done].
      apply applyMarkerHeight_Ok. eauto.
Qed.

(** The loop changes nothing but the markers it names, ... *)
Lemma markerLoop_contacts (x : VectorXd) L (model model' : Model) :
  markerLoop x L model = Ok model' → contacts model' = contacts model.
Proof.
  revert model. induction L as [|i L IH]; intros model.
  - by intros [= <-].
  - intros (xi & mk & _ & _ & _ & Hrest)%markerLoop_cons.
    by apply IH in Hrest.
Qed.

Lemma markerLoop_other (x : VectorXd) L (model model' : Model) k :
  markerLoop x L model = Ok model' → k ∉ marker_names L →
  markers model' !! k = markers model !! k.
Proof.
  revert model. induction L as [|i L IH]; intros model.
  - by intros [= <-].
  - intros (xi & mk & _ & _ & _ & Hrest)%markerLoop_cons Hk.
    unfold marker_names in Hk.
    rewrite fmap_cons, list_to_set_cons, not_elem_of_union in Hk.
    destruct Hk as [Hki HkL%(IH _ Hrest)]. rewrite HkL. cbn.
    apply lookup_insert_ne. intros Heq. by apply Hki, elem_of_singleton.
Qed.

(** ... of which it keeps all but the height. *)
Lemma markerLoop_keeps (x : VectorXd) L (model model' : Model) k :
  markerLoop x L model = Ok model' →
  option_Forall2 (marker_sim true) (markers model' !! k) (markers model !! k).
Proof.
  revert model. induction L as [|i L IH]; intros model.
  - intros [= <-]. destruct (markers model !! k); by constructor.
  - intros (xi & mk & _ & _ & Hmk & Hrest)%markerLoop_cons.
    specialize (IH _ Hrest). cbn in IH.
    destruct (decide (k = marker_name i)) as [->|Hne].
    + rewrite lookup_insert_eq in IH. rewrite Hmk.
      apply option_Forall2_Some_r_inv in IH as (a & -> & Hab).
      constructor. destruct Hab as (Hp & H0 & H2 & _).
      repeat split; [exact Hp | exact H0 | exact H2 | discriminate].
    + by rewrite lookup_insert_ne in IH.
Qed.

(** The height of marker [i] after the loop. *)
Lemma markerLoop_height (x : VectorXd) L (model model' : Model) i marker :
  NoDup L → i ∈ L →
  markerLoop x L model = Ok model' →
  markers model !! marker_name i = Some marker →
  ∃ xi, x !! Z.to_nat i = Some xi
    ∧ markers model' !! marker_name i
      = Some (upd_location1 marker (markerHeight xi)).
Proof.
  intros HL. revert model. induction HL as [|j L Hj HL IH]; intros model.
  - by intros ?%elem_of_nil.
  - intros Hi (xj & mk & _ & Hxj & Hmk & Hrest)%markerLoop_cons Hmarker.
    apply elem_of_cons in Hi as [->|Hi].
    + exists xj. split; [done|].
      rewrite (markerLoop_other _ _ _ _ _ Hrest).
      * cbn. rewrite lookup_insert_eq. congruence.
      * unfold marker_names. rewrite elem_of_list_to_set, list_elem_of_fmap.
        intros (j' & ->%marker_name_inj & ?). done.
    + apply (IH _ Hi Hrest). cbn. rewrite lookup_insert_ne; [done|].
      intros ->%marker_name_inj. done.
Qed.

(** The loop runs through when the vector is long enough and the markers
    exist. *)
Lemma markerLoop_total (x : VectorXd) L (model : Model) :
  (∀ i, i ∈ L → 0 ≤ i < Z.of_nat (length x)
                ∧ is_Some (markers model !! marker_name i)) →
  ∃ model', markerLoop x L model = Ok model'.
Proof.
  revert model. induction L as [|i L IH]; intros model HL.
  - by eexists.
  - destruct (HL i) as [Hi [mk Hmk]]; [by left|].
    destruct (lookup_lt_is_Some_2 x (Z.to_nat i)) as [xi Hxi]; [lia|].
    destruct (IH (set_markers model
      (<[marker_name i := upd_location1 mk (markerHeight xi)]>
         (markers model)))) as [model' Hmodel'].
    { intros j Hj. destruct (HL j) as [? ?]; [by right|]. split; [done|].
      cbn. rewrite lookup_insert. case_decide; [by eexists | done]. }
    exists model'. apply markerLoop_cons. exists xi, mk.
    repeat split; (done || lia).
Qed.

(** ** [applyParametersToModel]: the stiffness loop *)

Lemma stiffnessLoop_cons (x : VectorXd) n i c rest cs' :
  stiffnessLoop x n i (c :: rest) = Ok cs' ↔
  ∃ xi rest', 0 ≤ i + n ∧ x !! Z.to_nat (i + n) = Some xi
    ∧ stiffnessLoop x n (i + 1) rest = Ok rest'
    ∧ cs' = set_stiffness c (scaledStiffness forceScalingFactor xi) :: rest'.
Proof.
  cbn [stiffnessLoop]. rewrite bind_Ok. split.
  - intros (xi & [??]%vec_at_Ok & (rest' & ? & [= <-])%bind_Ok).
    by exists xi, rest'.
  - intros (xi & rest' & ? & ? & Hrest & ->). exists xi.
    split; [by apply vec_at_Ok|]. apply bind_Ok. by exists rest'.
Qed.

Lemma stiffnessLoop_spec (x : VectorXd) n i cs cs' :
  stiffnessLoop x n i cs = Ok cs' →
  length cs' = length cs
  ∧ ∀ (j : nat) c, cs !! j = Some c →
      ∃ xi, x !! Z.to_nat (i + Z.of_nat j + n) = Some xi
        ∧ cs' !! j
          = Some (set_stiffness c (scaledStiffness forceScalingFactor xi)).
Proof.
  revert i cs'. induction cs as [|c cs IH]; intros i cs'.
  - intros [= <-]. split; [done|]. intros j c. by rewrite lookup_nil.
  - intros (xi & rest' & Hi & Hxi & Hrest & ->)%stiffnessLoop_cons.
    destruct (IH _ _ Hrest) as [Hlen Hj]. split; [by cbn; rewrite Hlen|].
    intros [|j] c'; cbn.
    + intros [= <-]. exists xi. by rewrite Z.add_0_r.
    + intros Hc'. destruct (Hj _ _ Hc') as (xj & Hxj & ?). exists xj.
      split; [|done]. rewrite <- Hxj. f_equal. lia.
Qed.

Lemma stiffnessLoop_total (x : VectorXd) n i cs :
  0 ≤ i + n → i + n + Z.of_nat (length cs) ≤ Z.of_nat (length x) →
  ∃ cs', stiffnessLoop x n i cs = Ok cs'.
Proof.
  revert i. induction cs as [|c cs IH]; intros i Hlo Hhi.
  - by eexists.
  - cbn [length] in Hhi.
    destruct (lookup_lt_is_Some_2 x (Z.to_nat (i + n))) as [xi Hxi]; [lia|].
    destruct (IH (i + 1)) as [rest' Hrest']; [lia..|].
    eexists. apply stiffnessLoop_cons. by exists xi, rest'.
Qed.

(** ** Models that differ only in calibrated quantities *)

Lemma marker_sim_refl free (a : Marker) : marker_sim free a a.
Proof. by repeat split. Qed.

Lemma marker_sim_weaken free (a b : Marker) :
  marker_sim false a b → marker_sim free a b.
Proof. intros (? & ? & ? & Hh). repeat split; try done. intros _. by apply Hh. Qed.

Lemma marker_sim_eq (a b : Marker) : marker_sim false a b → a = b.
Proof.
  destruct a as [pa [a0 a1 a2]], b as [pb [b0 b1 b2]].
  intros (? & ? & ? & Hh); simplify_eq/=. by rewrite Hh.
Qed.

Lemma contact_sim_refl c : contact_sim c c.
Proof. by repeat split. Qed.

Lemma contact_sim_sym a b : contact_sim a b → contact_sim b a.
Proof. intros (? & ? & ? & ?). by repeat split. Qed.

Lemma contact_sim_trans a b c :
  contact_sim a b → contact_sim b c → contact_sim a c.
Proof. intros (? & ? & ? & ?) (? & ? & ? & ?). repeat split; congruence. Qed.

Lemma contact_sim_set_stiffness a b k :
  contact_sim a b → set_stiffness a k = set_stiffness b k.
Proof. intros (? & ? & ? & ?). unfold set_stiffness. congruence. Qed.

Lemma contact_sim_set_l a k : contact_sim (set_stiffness a k) a.
Proof. by repeat split. Qed.

Lemma model_sim_refl S (model : Model) : model_sim S model model.
Proof.
  split.
  - intros k. destruct (markers model !! k); constructor.
    apply marker_sim_refl.
  - apply Forall2_same_length_lookup. split; [done|].
    intros i a b ? ?. simplify_eq. apply contact_sim_refl.
Qed.

Lemma stiffnessLoop_sim (x : VectorXd) n i cs1 cs2 :
  Forall2 contact_sim cs1 cs2 →
  stiffnessLoop x n i cs1 = stiffnessLoop x n i cs2.
Proof.
  intros Hsim. revert i. induction Hsim as [|a b cs1 cs2 Hab _ IH]; intros i.
  - done.
  - cbn [stiffnessLoop]. destruct (vec_at x (i + n)) as [xi|e]; [|done].
    cbn. rewrite IH. by rewrite (contact_sim_set_stiffness a b).
Qed.

Lemma stiffnessLoop_keeps (x : VectorXd) n i cs cs' :
  stiffnessLoop x n i cs = Ok cs' → Forall2 contact_sim cs' cs.
Proof.
  revert i cs'. induction cs as [|c cs IH]; intros i cs'.
  - intros [= <-]. constructor.
  - intros (xi & rest' & _ & _ & Hrest & ->)%stiffnessLoop_cons.
    constructor; [apply contact_sim_set_l | by eapply IH].
Qed.

(** Two models that agree but for heights still to be set come out of the
    marker loop in agreement, or fail with the same exception. *)
Lemma markerLoop_sim (x : VectorXd) L S (m1 m2 : Model) :
  model_sim (marker_names L ∪ S) m1 m2 →
  Result_rel (model_sim S) (markerLoop x L m1) (markerLoop x L m2).
Proof.
  revert m1 m2. induction L as [|i L IH]; intros m1 m2 Hsim.
  - cbn. unfold marker_names in Hsim. cbn in Hsim.
    by rewrite (left_id_L ∅ (∪)) in Hsim.
  - cbn [markerLoop]. destruct (vec_at x i) as [xi|e]; [cbn|done].
    destruct Hsim as [Hmk Hcs]. pose proof (Hmk (marker_name i)) as Hi.
    unfold applyMarkerHeight.
    destruct Hi as [a b Hab|]; [cbn|done].
    apply IH. split; [|done]. intros k. cbn.
    destruct (decide (k = marker_name i)) as [->|Hne].
    + rewrite !lookup_insert_eq. constructor. apply marker_sim_weaken.
      destruct Hab as (? & ? & ? & _). by repeat split.
    + rewrite !lookup_insert_ne by done.
      specialize (Hmk k). unfold marker_names in Hmk.
      rewrite fmap_cons, list_to_set_cons in Hmk.
      replace (bool_decide (k ∈ marker_names L ∪ S))
        with (bool_decide (k ∈ {[marker_name i]} ∪ list_to_set (marker_name <$> L) ∪ S)); [done|].
      apply bool_decide_ext. unfold marker_names.
      rewrite !elem_of_union, elem_of_singleton. tauto.
Qed.

(** ** [applyParametersToModel] *)

Lemma applyParametersToModel_Ok n (x : VectorXd) (model model' : Model) :
  applyParametersToModel n x model = Ok model' ↔
  ∃ model1 cs,
    markerLoop x (seqZ 0 n) model = Ok model1
    ∧ stiffnessLoop x n 0 (contacts model1) = Ok cs
    ∧ model' = set_contacts model1 cs.
Proof.
  unfold applyParametersToModel. rewrite bind_Ok. split.
  - intros (model1 & ? & (cs & ? & [= <-])%bind_Ok). by exists model1, cs.
  - intros (model1 & cs & ? & ? & ->). exists model1. split; [done|].
    apply bind_Ok. by exists cs.
Qed.

Lemma model_sim_empty (m1 m2 : Model) :
  model_sim ∅ m1 m2 →
  markers m1 = markers m2 ∧ Forall2 contact_sim (contacts m1) (contacts m2).
Proof.
  intros [Hmk Hcs]. split; [|done]. apply map_eq. intros k.
  specialize (Hmk k). destruct Hmk as [a b Hab|]; [|done].
  f_equal. by apply marker_sim_eq.
Qed.

(** What [applyParametersToModel] leaves of a model. *)
Lemma applyParametersToModel_sim n (x : VectorXd) (model model' : Model) :
  applyParametersToModel n x model = Ok model' →
  model_sim (marker_names (seqZ 0 n)) model' model.
Proof.
  intros (model1 & cs & Hm & Hs & ->)%applyParametersToModel_Ok. split.
  - intros k. cbn. case_bool_decide as Hk.
    + by eapply markerLoop_keeps.
    + rewrite (markerLoop_other _ _ _ _ _ Hm Hk).
      destruct (markers model !! k); constructor. apply marker_sim_refl.
  - cbn. apply stiffnessLoop_keeps in Hs.
    by rewrite (markerLoop_contacts _ _ _ _ Hm) in Hs.
Qed.

(** Models that agree but for the calibrated quantities are mapped to the
    same model, or fail with the same exception. *)
Lemma applyParametersToModel_of_sim n (y : VectorXd) (m1 m2 : Model) :
  model_sim (marker_names (seqZ 0 n)) m1 m2 →
  applyParametersToModel n y m1 = applyParametersToModel n y m2.
Proof.
  intros Hsim. unfold applyParametersToModel.
  pose proof (markerLoop_sim y (seqZ 0 n) ∅ m1 m2) as Hloop.
  rewrite (right_id_L ∅ (∪)) in Hloop. specialize (Hloop Hsim).
  destruct (markerLoop y (seqZ 0 n) m1) as [a|e1],
           (markerLoop y (seqZ 0 n) m2) as [b|e2]; cbn in Hloop; try done.
  - apply model_sim_empty in Hloop as [Hmk Hcs]. cbn.
    rewrite (stiffnessLoop_sim _ _ _ _ _ Hcs).
    destruct (stiffnessLoop y n 0 (contacts b)); [cbn|done].
    unfold set_contacts. by rewrite Hmk.
  - by subst.
Qed.

(** Whatever was set before is overwritten. *)
Lemma applyParametersToModel_absorb n (x y : VectorXd) (model model' : Model) :
  applyParametersToModel n x model = Ok model' →
  applyParametersToModel n y model' = applyParametersToModel n y model.
Proof.
  intros Hx. by apply applyParametersToModel_of_sim, applyParametersToModel_sim with x.
Qed.

Lemma applyParametersToModel_idem n (x : VectorXd) (model model' : Model) :
  applyParametersToModel n x model = Ok model' →
  applyParametersToModel n x model' = Ok model'.
Proof. intros Hx. by rewrite (applyParametersToModel_absorb _ _ _ _ _ Hx). Qed.

Lemma model_ready_spec n (model : Model) :
  model_ready n model = true ↔
  (∀ i, 0 ≤ i < n → is_Some (markers model !! marker_name i))
  ∧ Z.of_nat (length (contacts model)) ≤ n
  ∧ forallb (λ c, bool_decide (is_Some (markers model !! station c)))
      (contacts model) = true.
Proof.
  unfold model_ready. rewrite !andb_true_iff, bool_decide_eq_true.
  rewrite forallb_forall. split.
  - intros [[Hmk Hlen] Hst]. split; [|done]. intros i Hi.
    eapply bool_decide_eq_true, Hmk, list_elem_of_In, elem_of_seqZ. lia.
  - intros (Hmk & Hlen & Hst). repeat split; try done.
    intros i Hi%list_elem_of_In%elem_of_seqZ.
    apply bool_decide_eq_true, Hmk. lia.
Qed.

Lemma vector_ready_spec n (x : VectorXd) :
  vector_ready n x = true ↔ Z.of_nat (length x) = 2 * n.
Proof. unfold vector_ready. apply bool_decide_eq_true. Qed.

(** Totality on structurally valid inputs. *)
Lemma applyParametersToModel_total n (x : VectorXd) (model : Model) :
  model_ready n model = true → vector_ready n x = true →
  ∃ model', applyParametersToModel n x model = Ok model'.
Proof.
  intros (Hmk & Hlen & _)%model_ready_spec Hx%vector_ready_spec.
  destruct (markerLoop_total x (seqZ 0 n) model) as [model1 Hm].
  { intros i Hi%elem_of_seqZ. split; [lia|]. apply Hmk. lia. }
  destruct (stiffnessLoop_total x n 0 (contacts model1)) as [cs Hs].
  { lia. }
  { rewrite (markerLoop_contacts _ _ _ _ Hm). lia. }
  exists (set_contacts model1 cs). apply applyParametersToModel_Ok.
  by exists model1, cs.
Qed.

Lemma model_sim_ready S n (m1 m2 : Model) :
  model_sim S m1 m2 → model_ready n m2 = true → model_ready n m1 = true.
Proof.
  intros [Hmk Hcs] (Hm & Hlen & Hst)%model_ready_spec.
  assert (Hsome : ∀ k, is_Some (markers m2 !! k) → is_Some (markers m1 !! k)).
  { intros k [b Hb]. specialize (Hmk k). rewrite Hb in Hmk.
    inversion Hmk. by eexists. }
  apply model_ready_spec. split; [|split].
  - intros i Hi. by apply Hsome, Hm.
  - by rewrite (Forall2_length _ _ _ Hcs).
  - rewrite forallb_forall in Hst. apply forallb_forall.
    intros c1 [j Hj]%list_elem_of_In%list_elem_of_lookup.
    destruct (Forall2_lookup_l _ _ _ _ _ Hcs Hj) as (c2 & Hc2 & Hsim).
    destruct Hsim as (_ & _ & _ & ->).
    apply bool_decide_eq_true, Hsome.
    eapply bool_decide_eq_true, Hst, list_elem_of_In, list_elem_of_lookup.
    eauto.
Qed.

Lemma applyParametersToModel_ready n (x : VectorXd) (model model' : Model) :
  model_ready n model = true →
  applyParametersToModel n x model = Ok model' →
  model_ready n model' = true.
Proof.
  intros Hready Hx. eapply model_sim_ready; [|done].
  by eapply applyParametersToModel_sim.
Qed.

Lemma model_ready_initSystem n (model : Model) :
  model_ready n model = true → initSystem model = Ok model.
Proof. intros (_ & _ & ?)%model_ready_spec. by apply initSystem_attached. Qed.

(** The values [applyParametersToModel] writes. *)
Lemma applyParametersToModel_height n (x : VectorXd) (model model' : Model)
    i marker :
  applyParametersToModel n x model = Ok model' →
  0 ≤ i < n →
  markers model !! marker_name i = Some marker →
  ∃ xi, x !! Z.to_nat i = Some xi
    ∧ markers model' !! marker_name i
      = Some (upd_location1 marker (markerHeight xi)).
Proof.
  intros (model1 & cs & Hm & Hs & ->)%applyParametersToModel_Ok Hi Hmk.
  cbn. eapply markerLoop_height; try done.
  - apply NoDup_seqZ.
  - apply elem_of_seqZ. lia.
Qed.

Lemma applyParametersToModel_stiffness n (x : VectorXd)
    (model model' : Model) (j : nat) c :
  applyParametersToModel n x model = Ok model' →
  contacts model !! j = Some c →
  ∃ xi, x !! Z.to_nat (n + Z.of_nat j) = Some xi
    ∧ contacts model' !! j
      = Some (set_stiffness c (scaledStiffness forceScalingFactor xi)).
Proof.
  intros (model1 & cs & Hm & Hs & ->)%applyParametersToModel_Ok Hc.
  rewrite <- (markerLoop_contacts _ _ _ _ Hm) in Hc.
  destruct (stiffnessLoop_spec _ _ _ _ _ Hs) as [_ Hj].
  destruct (Hj _ _ Hc) as (xi & Hxi & Hcs). exists xi. split; [|done].
  rewrite <- Hxi. f_equal. lia.
Qed.

Lemma applyParametersToModel_length n (x : VectorXd) (model model' : Model) :
  applyParametersToModel n x model = Ok model' →
  length (contacts model') = length (contacts model).
Proof.
  intros [_ Hcs]%applyParametersToModel_sim. by apply Forall2_length in Hcs.
Qed.

(** ** The loops of the objective *)

Section ObjectiveFacts.
Variable calcContactForce :
  Model → AckermannVanDenBogert2010Force → State → Vec3.
Variable getTotalMass : Model → State → double.
Variable gravityNorm : Model → double.

Local Abbreviation contactLoop := (contactLoop calcContactForce).
Local Abbreviation stateLoop := (stateLoop calcContactForce).
Local Abbreviation reportLoop := (reportLoop calcContactForce).
Local Abbreviation simulatedVerticalForce := (simulatedVerticalForce calcContactForce).
Local Abbreviation squaredResidual := (squaredResidual calcContactForce).
Local Abbreviation objective_spec :=
  (objective_spec calcContactForce getTotalMass gravityNorm).
Local Abbreviation objective_zero_signal_spec :=
  (objective_zero_signal_spec calcContactForce getTotalMass gravityNorm).
Local Abbreviation calc_objective :=
  (calc_objective calcContactForce getTotalMass gravityNorm).
Local Abbreviation printContactComparison :=
  (printContactComparison calcContactForce).
Local Abbreviation evaluations :=
  (evaluations calcContactForce getTotalMass gravityNorm).

Lemma contactLoop_fold model state cs simFy :
  contactLoop model state cs simFy
  = fold_left dadd ((λ c, v1 (calcContactForce model c state)) <$> cs) simFy.
Proof. revert simFy. induction cs as [|c cs IH]; intros simFy; cbn; auto. Qed.

Lemma contactLoop_simulated model state :
  contactLoop model state (contacts model) (of_Z 0)
  = simulatedVerticalForce model state.
Proof. apply contactLoop_fold. Qed.

Lemma stateLoop_fold model FySpline states obj_value :
  stateLoop model FySpline states obj_value
  = fold_left dadd (squaredResidual model FySpline <$> states) obj_value.
Proof.
  revert obj_value. induction states as [|s states IH]; intros obj; [done|].
  cbn [stateLoop fmap list_fmap fold_left]. rewrite IH.
  by rewrite contactLoop_simulated.
Qed.

Lemma reportLoop_spec model FySpline states table :
  reportLoop model FySpline states table
  = table ++ ((λ s, let state := realizeVelocity model s in
                    (time state,
                     (simulatedVerticalForce model state,
                      calcValue FySpline (time state)))) <$> states).
Proof.
  revert table. induction states as [|s states IH]; intros table; cbn.
  - by rewrite app_nil_r.
  - rewrite IH, contactLoop_simulated, <- app_assoc. done.
Qed.

(** *** The accumulated sum once a term is not finite *)





(** *** What [calc_objective] does *)

Lemma acquire_spec self tid wm model :
  acquire self tid = Ok (wm, model) →
  model = workingModel self tid
  ∧ wm !! tid = Some model
  ∧ (∀ model', <[tid := model']> wm
               = <[tid := model']> (m_workingModels self))
  ∧ (m_workingModels self !! tid = None →
     initSystem (m_model self) = Ok (m_model self)).
Proof.
  unfold acquire, workingModel.
  destruct (m_workingModels self !! tid) as [m|] eqn:Htid; cbn.
  - intros [= <- <-]. done.
  - destruct (initSystem (m_model self)) as [m|e] eqn:Hinit; [|done].
    apply initSystem_Ok in Hinit as Hm. subst m.
    intros [= <- <-]. repeat split; try done.
    + by rewrite lookup_insert_eq.
    + intros model'. by rewrite !insert_insert_eq.
Qed.

Lemma calc_objective_unfold self tid x :
  calc_objective self tid x
  = '(wm, model) ← acquire self tid;
    model ← applyParametersToModel (m_numContacts self) x model;
    model ← initSystem model;
    match m_statesTraj self with
    | [] => Err EmptyTrajectory
    | front :: _ =>
        Ok (set_workingModels self (<[tid := model]> wm),
            objective_spec model (m_FySpline self) (m_statesTraj self) front)
    end.
Proof.
  unfold calc_objective.
  destruct (acquire self tid) as [[wm m0]|e]; [|done]. cbn [mbind Result_bind].
  destruct (applyParametersToModel _ _ _) as [m1|e]; [|done].
  cbn [mbind Result_bind].
  destruct (initSystem m1) as [m2|e]; [|done]. cbn [mbind Result_bind].
  destruct (m_statesTraj self) as [|front rest]; [done|].
  unfold objective_spec, dsum, totalWeight. rewrite stateLoop_fold.
  reflexivity.
Qed.

Lemma calc_objective_Ok self tid x self' v :
  calc_objective self tid x = Ok (self', v) →
  ∃ model front rest,
    applyParametersToModel (m_numContacts self) x (workingModel self tid)
      = Ok model
    ∧ initSystem model = Ok model
    ∧ m_statesTraj self = front :: rest
    ∧ self' = set_workingModels self
                (<[tid := model]> (m_workingModels self))
    ∧ v = objective_spec model (m_FySpline self) (m_statesTraj self) front.
Proof.
  rewrite calc_objective_unfold.
  intros ([wm m0] & Hacq & Hrest)%bind_Ok.
  apply acquire_spec in Hacq as (-> & _ & Hins & _).
  apply bind_Ok in Hrest as (model & Happly & Hrest).
  apply bind_Ok in Hrest as (model_ & Hinit & Hrest).
  apply initSystem_Ok in Hinit as Heq. subst model_.
  destruct (m_statesTraj self) as [|front rest] eqn:Htraj; [done|].
  injection Hrest as <- <-. exists model, front, rest.
  by rewrite Hins.
Qed.

Lemma calc_objective_run self tid x model front rest :
  (m_workingModels self !! tid = None →
   initSystem (m_model self) = Ok (m_model self)) →
  applyParametersToModel (m_numContacts self) x (workingModel self tid)
    = Ok model →
  initSystem model = Ok model →
  m_statesTraj self = front :: rest →
  calc_objective self tid x
  = Ok (set_workingModels self (<[tid := model]> (m_workingModels self)),
        objective_spec model (m_FySpline self) (m_statesTraj self) front).
Proof.
  intros Hcanon Happly Hinit Htraj. rewrite calc_objective_unfold.
  unfold acquire. unfold workingModel in Happly.
  destruct (m_workingModels self !! tid) as [m|] eqn:Htid;
    cbn [mbind Result_bind]; simpl in Happly.
  - rewrite Happly. cbn [mbind Result_bind]. rewrite Hinit.
    cbn [mbind Result_bind]. by rewrite Htraj.
  - rewrite Hcanon by done. cbn [mbind Result_bind]. rewrite Happly.
    cbn [mbind Result_bind]. rewrite Hinit. cbn [mbind Result_bind].
    by rewrite Htraj, !insert_insert_eq.
Qed.

(** *** The pool of working models *)

Lemma construct_Ok model statesTraj FySpline numContacts self :
  construct model statesTraj FySpline numContacts = Ok self →
  self = mkContactCalibration model statesTraj FySpline numContacts ∅.
Proof.
  unfold construct. intros (model' & Hinit & Hself)%bind_Ok.
  apply initSystem_Ok in Hinit as ->. by apply Ok_inj in Hself.
Qed.

Lemma consistent_construct model statesTraj FySpline numContacts self :
  construct model statesTraj FySpline numContacts = Ok self →
  consistent self.
Proof. intros ->%construct_Ok tid m. cbn. by rewrite lookup_empty. Qed.

Lemma workingModel_equiv self tid :
  consistent self →
  equiv_params (m_numContacts self) (workingModel self tid) (m_model self).
Proof.
  intros Hcons. unfold workingModel.
  destruct (m_workingModels self !! tid) as [m|] eqn:Htid; cbn.
  - by apply Hcons with tid.
  - done.
Qed.

Lemma calc_objective_consistent self tid x self' v :
  consistent self → calc_objective self tid x = Ok (self', v) →
  consistent self'.
Proof.
  intros Hcons (model & front & rest & Happly & _ & _ & -> & _)%calc_objective_Ok.
  intros tid' m. cbn. rewrite lookup_insert. case_decide as Htid.
  - intros [= <-] y.
    rewrite (applyParametersToModel_absorb _ _ _ _ _ Happly).
    by apply workingModel_equiv.
  - apply Hcons.
Qed.

(** In a consistent object the value depends on [x] and on the members
    set by the constructor only. *)
Lemma calc_objective_value self tid x self' v :
  consistent self → calc_objective self tid x = Ok (self', v) →
  ∃ model front rest,
    applyParametersToModel (m_numContacts self) x (m_model self) = Ok model
    ∧ m_statesTraj self = front :: rest
    ∧ v = objective_spec model (m_FySpline self) (m_statesTraj self) front.
Proof.
  intros Hcons (model & front & rest & Happly & _ & Htraj & _ & ->)%calc_objective_Ok.
  exists model, front, rest. by rewrite <- (workingModel_equiv self tid Hcons).
Qed.

Lemma calc_objective_frame self tid x self' v :
  calc_objective self tid x = Ok (self', v) →
  m_model self' = m_model self
  ∧ m_statesTraj self' = m_statesTraj self
  ∧ m_FySpline self' = m_FySpline self
  ∧ m_numContacts self' = m_numContacts self
  ∧ dom (m_workingModels self') = {[tid]} ∪ dom (m_workingModels self)
  ∧ ∀ tid', tid' ≠ tid →
      m_workingModels self' !! tid' = m_workingModels self !! tid'.
Proof.
  intros (model & front & rest & _ & _ & _ & -> & _)%calc_objective_Ok. cbn.
  repeat split; try done.
  - apply dom_insert_L.
  - intros tid' Hne. by apply lookup_insert_ne.
Qed.

Lemma evaluations_spec self calls self' vals :
  consistent self → evaluations self calls = Ok (self', vals) →
  consistent self'
  ∧ m_model self' = m_model self
  ∧ m_statesTraj self' = m_statesTraj self
  ∧ m_FySpline self' = m_FySpline self
  ∧ m_numContacts self' = m_numContacts self
  ∧ dom (m_workingModels self')
    = list_to_set calls.*1 ∪ dom (m_workingModels self)
  ∧ ∀ (i : nat) tid x v,
      calls !! i = Some (tid, x) → vals !! i = Some v →
      ∃ model front rest,
        applyParametersToModel (m_numContacts self) x (m_model self)
          = Ok model
        ∧ m_statesTraj self = front :: rest
        ∧ v = objective_spec model (m_FySpline self) (m_statesTraj self)
                front.
Proof.
  revert self vals. induction calls as [|[tid x] calls IH]; intros self vals Hcons.
  - intros [= <- <-]. repeat split; try done.
    cbn. by rewrite (left_id_L ∅ (∪)).
  - cbn [evaluations]. intros ([self1 v1] & Hcall & Hrest)%bind_Ok.
    cbn in Hrest. apply bind_Ok in Hrest as ([self2 vs] & Hevals & [= <- <-]).
    pose proof (calc_objective_consistent _ _ _ _ _ Hcons Hcall) as Hcons1.
    destruct (calc_objective_frame _ _ _ _ _ Hcall)
      as (Hm & Ht & Hs & Hn & Hdom & _).
    destruct (IH _ _ Hcons1 Hevals)
      as (Hcons2 & Hm2 & Ht2 & Hs2 & Hn2 & Hdom2 & Hvals).
    split; [done|]. repeat split; try congruence.
    + rewrite Hdom2, Hdom. cbn. apply set_eq. intros k.
      rewrite !elem_of_union, elem_of_singleton. tauto.
    + intros [|i] tid' x' v'; cbn.
      * intros [= <- <-] [= <-].
        by apply calc_objective_value with tid self1.
      * intros Hc Hv. destruct (Hvals _ _ _ _ Hc Hv) as (m & f & r & ? & ? & ?).
        exists m, f, r. by rewrite <- Hm, <- Ht, <- Hs, <- Hn.
Qed.

Lemma printContactComparison_Ok self x self' table :
  printContactComparison self x = Ok (self', table) →
  ∃ model,
    applyParametersToModel (m_numContacts self) x (m_model self) = Ok model
    ∧ self' = set_model self model
    ∧ table = (λ s, let state := realizeVelocity model s in
                    (time state,
                     (simulatedVerticalForce model state,
                      calcValue (m_FySpline self) (time state))))
              <$> m_statesTraj self.
Proof.
  unfold printContactComparison.
  intros (model & Happly & (model_ & Hinit & Hrest)%bind_Ok)%bind_Ok.
  apply initSystem_Ok in Hinit as ->. injection Hrest as <- <-.
  exists model. by rewrite reportLoop_spec.
Qed.
End ObjectiveFacts.

(** ** Evaluations in progress on several threads *)

Section ThreadsFacts.
Variable calcContactForce :
  Model → AckermannVanDenBogert2010Force → State → Vec3.
Variable getTotalMass : Model → State → double.
Variable gravityNorm : Model → double.

Local Abbreviation objective_spec :=
  (objective_spec calcContactForce getTotalMass gravityNorm).
Local Abbreviation calc_objective :=
  (calc_objective calcContactForce getTotalMass gravityNorm).
Local Abbreviation statement :=
  (statement calcContactForce getTotalMass gravityNorm).
Local Abbreviation advance :=
  (advance calcContactForce getTotalMass gravityNorm).
Local Abbreviation step := (step calcContactForce getTotalMass gravityNorm).
Local Abbreviation run := (run calcContactForce getTotalMass gravityNorm).
Local Abbreviation control_ok :=
  (control_ok calcContactForce getTotalMass gravityNorm).
Local Abbreviation invariant :=
  (invariant calcContactForce getTotalMass gravityNorm).

Lemma advance_Some tid w w' :
  advance tid w = Some w' ↔
  ∃ w1, statement tid w = Some w1
        ∧ w' = set_history w1 (record_access tid (pool_access w tid) (history w)).
Proof.
  unfold advance. destruct (statement tid w) as [w1|]; cbn.
  - split; [intros [= <-]; by exists w1 | by intros (? & [= <-] & ->)].
  - split; [done | by intros (? & ? & _)].
Qed.

Lemma invariant_set_history self0 w h :
  invariant self0 w → invariant self0 (set_history w h).
Proof. intros []. by split. Qed.

Lemma invariant_initial model statesTraj FySpline numContacts self0 :
  construct model statesTraj FySpline numContacts = Ok self0 →
  invariant self0 (initial self0).
Proof.
  intros Hnew. pose proof (consistent_construct _ _ _ _ _ Hnew) as Hcons.
  apply construct_Ok in Hnew as ->. split; try done. constructor.
Qed.

Lemma control_ok_ext self0 w w' tid c :
  m_workingModels (object w') !! tid = m_workingModels (object w) !! tid →
  (m_modelMutex w = Some tid → m_modelMutex w' = Some tid) →
  control_ok self0 w tid c → control_ok self0 w' tid c.
Proof.
  intros Hpool Hmutex. unfold control_ok. rewrite Hpool.
  destruct c; try done; intros [? ?]; auto.
Qed.

Lemma consistent_insert self tid model :
  consistent self →
  equiv_params (m_numContacts self) model (m_model self) →
  consistent (set_workingModels self
                (<[tid := model]> (m_workingModels self))).
Proof.
  intros Hcons Hequiv tid' m. cbn. rewrite lookup_insert.
  case_decide; [by intros [= <-] | apply Hcons].
Qed.

(** A step that only moves the thread on. *)
Lemma invariant_at_control self0 w tid c :
  invariant self0 w →
  control_ok self0 w tid c →
  (m_modelMutex w = Some tid →
   ∃ x, c = AtInsert x ∨ c = AtUnlock x) →
  invariant self0 (at_control w tid c).
Proof.
  intros [] Hc Hm. split; try done.
  - intros tid' c'. cbn. rewrite lookup_insert. case_decide as Htid.
    + intros [= <-]. subst tid'. exact Hc.
    + intros Hc'. by apply (inv_control0 tid' c').
  - intros tid' Hmutex. cbn in *. rewrite lookup_insert. case_decide as Htid.
    + subst tid'. destruct (Hm Hmutex) as [x [-> | ->]]; exists x; auto.
    + by apply inv_mutex0.
Qed.

(** A step in which the thread writes its own working model. *)
Lemma invariant_at_control_with self0 w tid model c :
  invariant self0 w →
  is_Some (m_workingModels (object w) !! tid) →
  equiv_params (m_numContacts (object w)) model (m_model (object w)) →
  control_ok self0 (at_control_with w tid model c) tid c →
  m_modelMutex w ≠ Some tid →
  invariant self0 (at_control_with w tid model c).
Proof.
  intros [] Hsome Hequiv Hc Hm. split; try done.
  - by apply consistent_insert.
  - cbn. by rewrite dom_insert_lookup_L.
  - intros tid' c'. cbn [control at_control_with]. rewrite lookup_insert.
    case_decide as Htid.
    + intros [= <-]. subst tid'. exact Hc.
    + intros Hc'. apply (control_ok_ext self0 w); [|done|by apply inv_control0].
      cbn. by rewrite lookup_insert_ne.
  - intros tid' Hmutex. cbn in *. rewrite lookup_insert. case_decide as Htid.
    + by subst tid'.
    + by apply inv_mutex0.
Qed.
Lemma invariant_not_owner self0 w tid c :
  invariant self0 w → control w !! tid = Some c →
  (∀ x, c ≠ AtInsert x) → (∀ x, c ≠ AtUnlock x) →
  m_modelMutex w ≠ Some tid.
Proof.
  intros [] Hc Hi Hu Hm. destruct (inv_mutex0 tid Hm) as [x [Hx|Hx]];
    rewrite Hc in Hx; injection Hx as ->; [by eapply Hi | by eapply Hu].
Qed.

Lemma invariant_lock self0 w tid x :
  invariant self0 w → control w !! tid = Some (AtLock x) →
  m_modelMutex w = None →
  invariant self0
    (mkWorld (object w) (Some tid) (<[tid := AtInsert x]> (control w))
       (clones w) (history w)).
Proof.
  intros Hinv Hc Hfree. pose proof Hinv as []. split; try done.
  - intros tid' c'. cbn [control]. rewrite lookup_insert.
    case_decide as Htid.
    + intros [= <-]. subst tid'. split; [|done].
      exact (inv_control0 tid _ Hc).
    + intros Hc'. apply (control_ok_ext self0 w); [done| |by apply inv_control0].
      by rewrite Hfree.
  - intros tid' [= <-]. exists x. left. cbn. by rewrite lookup_insert_eq.
Qed.

Lemma invariant_insert self0 w tid x :
  invariant self0 w → control w !! tid = Some (AtInsert x) →
  invariant self0
    (mkWorld
       (set_workingModels (object w)
          (<[tid := m_model (object w)]> (m_workingModels (object w))))
       (m_modelMutex w) (<[tid := AtUnlock x]> (control w))
       (tid :: clones w) (history w)).
Proof.
  intros Hinv Hc. pose proof Hinv as [].
  destruct (inv_control0 tid _ Hc) as [Hnone Howner]. split; try done.
  - by apply consistent_insert.
  - cbn. apply NoDup_cons. split; [|done].
    intros Hin. apply not_elem_of_dom in Hnone. apply Hnone.
    rewrite inv_dom0. by apply elem_of_list_to_set.
  - cbn. by rewrite dom_insert_L, inv_dom0.
  - intros tid' c'. cbn [control]. rewrite lookup_insert.
    case_decide as Htid.
    + intros [= <-]. subst tid'. split; [|done].
      cbn. rewrite lookup_insert_eq. by eexists.
    + intros Hc'. apply (control_ok_ext self0 w); [|done|by apply inv_control0].
      cbn. by rewrite lookup_insert_ne.
  - intros tid' Hm. cbn in *. rewrite lookup_insert. case_decide as Htid.
    + exists x. by right.
    + by apply inv_mutex0.
Qed.

Lemma invariant_unlock self0 w tid x :
  invariant self0 w → control w !! tid = Some (AtUnlock x) →
  invariant self0
    (mkWorld (object w) None (<[tid := AtInit x]> (control w)) (clones w)
       (history w)).
Proof.
  intros Hinv Hc. pose proof Hinv as [].
  destruct (inv_control0 tid _ Hc) as [Hsome Howner]. split; try done.
  intros tid' c'. cbn [control]. rewrite lookup_insert.
  case_decide as Htid.
  - intros [= <-]. subst tid'. exact Hsome.
  - intros Hc'. apply (control_ok_ext self0 w); [done| |by apply inv_control0].
    rewrite Howner. intros [= ->]. done.
Qed.

Lemma invariant_return self0 w tid x v :
  invariant self0 w → control w !! tid = Some (Done x v) →
  invariant self0
    (mkWorld (object w) (m_modelMutex w) (delete tid (control w)) (clones w)
       (history w)).
Proof.
  intros Hinv Hc. pose proof Hinv as []. split; try done.
  - intros tid' c'. cbn [control]. rewrite lookup_delete.
    case_decide; [done|]. intros Hc'. by apply (inv_control0 tid' c').
  - intros tid' Hm. cbn in *.
    destruct (inv_mutex0 tid' Hm) as [x' Hx']. exists x'.
    rewrite lookup_delete_ne; [done|].
    intros <-. rewrite Hc in Hx'. by destruct Hx'.
Qed.

Lemma invariant_thrown self0 w tid c e :
  invariant self0 w → control w !! tid = Some c →
  (∀ x, c ≠ AtInsert x) → (∀ x, c ≠ AtUnlock x) →
  invariant self0 (at_control w tid (Thrown e)).
Proof.
  intros Hinv Hc Hi Hu. apply invariant_at_control; [done..|].
  intros Hm. by destruct (invariant_not_owner _ _ _ _ Hinv Hc Hi Hu).
Qed.

(** Every statement keeps the invariant. *)
Lemma statement_invariant self0 tid w w' :
  invariant self0 w → statement tid w = Some w' → invariant self0 w'.
Proof.
  intros Hinv. pose proof Hinv as []. unfold statement.
  destruct (control w !! tid) as [c|] eqn:Hc; [|done].
  pose proof (inv_control0 tid c Hc) as Hok.
  destruct c as [x|x|x|x|x|x|x|x v|e]; try done.
  - (* line 186 *)
    destruct (m_workingModels (object w) !! tid) as [m|] eqn:Hpool;
      intros [= <-]; apply invariant_at_control; try done.
    + cbn. rewrite Hpool. by eexists.
    + intros Hm. by destruct (invariant_not_owner _ _ _ _ Hinv Hc).
    + intros Hm. by destruct (invariant_not_owner _ _ _ _ Hinv Hc).
  - (* line 187 *)
    destruct (m_modelMutex w) eqn:Hfree; [done|]. intros [= <-].
    by apply invariant_lock.
  - (* line 188 *)
    intros [= <-]. by apply invariant_insert.
  - (* line 189 *)
    intros [= <-]. by apply invariant_unlock.
  - (* line 190 *)
    destruct Hok as [model Hpool]. rewrite Hpool.
    change (default default_Model (Some model)) with model.
    intros [= <-].
    assert (Hnot : m_modelMutex w ≠ Some tid)
      by by apply (invariant_not_owner _ _ _ _ Hinv Hc).
    destruct (initSystem model) as [model'|e] eqn:Hinit.
    + apply initSystem_Ok in Hinit as ->.
      apply invariant_at_control_with; try done.
      * by apply inv_consistent0 with tid.
      * cbn. rewrite lookup_insert_eq. by eexists.
    + apply invariant_at_control_with; try done.
      by apply inv_consistent0 with tid.
  - (* lines 192-198 *)
    destruct Hok as [model Hpool]. rewrite Hpool.
    change (default default_Model (Some model)) with model.
    intros [= <-].
    assert (Hnot : m_modelMutex w ≠ Some tid)
      by by apply (invariant_not_owner _ _ _ _ Hinv Hc).
    pose proof (inv_consistent0 tid model Hpool) as Hequiv.
    destruct (applyParametersToModel _ x model ≫= initSystem)
      as [model'|e] eqn:Happly.
    + apply bind_Ok in Happly as (m1 & Happly & ->%initSystem_Ok).
      apply invariant_at_control_with; try done.
      * intros y. rewrite (applyParametersToModel_absorb _ _ _ _ _ Happly).
        apply Hequiv.
      * cbn. rewrite lookup_insert_eq. exists m1. split; [done|].
        by rewrite <- inv_numContacts0, <- inv_model0, <- Hequiv.
    + by apply invariant_at_control_with.
  - (* lines 209-236 *)
    destruct Hok as (model & Hpool & Happly). rewrite Hpool.
    cbn [mbind option_bind]. rewrite stateLoop_fold.
    destruct (m_statesTraj (object w)) as [|front rest] eqn:Htraj;
      intros Hw'; apply (inj Some) in Hw'; subst w'.
    + by apply (invariant_thrown _ _ _ _ _ Hinv Hc).
    + apply invariant_at_control; try done.
      * cbn [control_ok]. rewrite Hpool. split; [by eexists|].
        exists model, front, rest. split; [done|].
        rewrite <- inv_statesTraj0, <- inv_FySpline0.
        split; [done|reflexivity].
      * intros Hm. by destruct (invariant_not_owner _ _ _ _ Hinv Hc).
Qed.

Lemma advance_invariant self0 tid w w' :
  invariant self0 w → advance tid w = Some w' → invariant self0 w'.
Proof.
  intros Hinv (w1 & Hst & ->)%advance_Some.
  apply invariant_set_history. by eapply statement_invariant.
Qed.

Lemma step_invariant self0 tid a w w' :
  invariant self0 w → step tid a w = Some w' → invariant self0 w'.
Proof.
  intros Hinv. destruct a as [x| | |]; cbn.
  - destruct (control w !! tid) as [c|] eqn:Hc; [done|]. intros [= <-].
    apply invariant_at_control; try done.
    intros Hm. destruct Hinv. destruct (inv_mutex0 tid Hm) as [x' Hx'].
    rewrite Hc in Hx'. by destruct Hx'.
  - by apply advance_invariant.
  - destruct (control w !! tid) as [[]|] eqn:Hc; try done. intros [= <-].
    by eapply invariant_return.
  - case_decide; [|done]. intros [= <-]. by apply invariant_set_history.
Qed.

Lemma run_invariant self0 schedule w w' :
  invariant self0 w → run schedule w = Some w' → invariant self0 w'.
Proof.
  revert w. induction schedule as [|[tid a] schedule IH]; intros w Hinv.
  - by intros [= <-].
  - cbn.
    destruct (step tid a w) as [w1|] eqn:Hstep; [|done]. cbn.
    apply IH. by eapply step_invariant.
Qed.
(** A statement leaves the history as it is: [advance] records the
    access. *)
Lemma statement_history tid w w' :
  statement tid w = Some w' → history w' = history w.
Proof.
  unfold statement.
  destruct (control w !! tid) as [[x|x|x|x|x|x|x|x v|e]|]; try done.
  - by destruct (m_workingModels (object w) !! tid); intros [= <-].
  - destruct (m_modelMutex w); [done|]. by intros [= <-].
  - by intros [= <-].
  - by intros [= <-].
  - intros [= <-]. by destruct (initSystem _).
  - intros [= <-]. by destruct (_ ≫= initSystem).
  - destruct (m_workingModels (object w) !! tid); [|done]. cbn.
    intros [= <-]. by destruct (m_statesTraj (object w)).
Qed.

(** A data race stays on record: a run that ends with [raced] clear had
    none. *)
Lemma step_raced tid a w w' :
  step tid a w = Some w' → raced (history w) = true →
  raced (history w') = true.
Proof.
  destruct a as [x| | |]; cbn [step].
  - destruct (control w !! tid); [done|]. by intros [= <-].
  - intros (w1 & Hst & ->)%advance_Some Hraced. cbn.
    unfold record_access. destruct (pool_access w tid); [|done].
    cbn. by rewrite Hraced.
  - destruct (control w !! tid) as [[]|]; try done. by intros [= <-].
  - case_decide; [|done]. by intros [= <-].
Qed.

Lemma run_raced schedule w w' :
  run schedule w = Some w' → raced (history w) = true →
  raced (history w') = true.
Proof.
  revert w. induction schedule as [|[tid a] schedule IH]; intros w.
  - by intros [= <-].
  - cbn. destruct (step tid a w) as [w1|] eqn:Hstep; [|done]. cbn.
    intros Hrun Hraced. apply (IH w1 Hrun). by eapply step_raced.
Qed.

Lemma record_access_ok tid access h :
  history_ok h → raced (record_access tid access h) = false →
  history_ok (record_access tid access h).
Proof.
  intros Hok. destruct access as [inserts|]; [|done]. cbn.
  intros [_ Hsub%negb_false_iff%bool_decide_eq_true]%orb_false_iff t.
  assert (Hunion : ∀ X : gset thread_id, X ⊆ {[tid]} → {[tid]} ∪ X = {[tid]}).
  { intros X HX. apply set_eq. intros k. rewrite elem_of_union.
    split; [intros [?|?]; [done|by apply HX] | by left]. }
  destruct inserts; cbn.
  - intros Ht. assert (t = tid) as ->.
    { apply elem_of_union in Ht as [Ht%elem_of_singleton|Ht]; [done|].
      apply (elem_of_singleton (C := gset thread_id)), Hsub.
      rewrite (Hok t Ht). by apply elem_of_singleton. }
    by apply Hunion.
  - intros Ht. assert (t = tid) as ->
      by by apply (elem_of_singleton (C := gset thread_id)), Hsub.
    rewrite (Hok tid Ht). by apply Hunion.
Qed.

Lemma step_history_ok tid a w w' :
  step tid a w = Some w' → raced (history w') = false →
  history_ok (history w) → history_ok (history w').
Proof.
  destruct a as [x| | |]; cbn [step].
  - destruct (control w !! tid); [done|]. by intros [= <-].
  - intros (w1 & Hst & ->)%advance_Some Hquiet Hok.
    by apply record_access_ok.
  - destruct (control w !! tid) as [[]|]; try done. by intros [= <-].
  - case_decide; [|done]. intros [= <-] _ _ t. cbn.
    by intros ?%elem_of_empty.
Qed.

Lemma run_history_ok schedule w w' :
  run schedule w = Some w' → raced (history w') = false →
  history_ok (history w) → history_ok (history w').
Proof.
  revert w. induction schedule as [|[tid a] schedule IH]; intros w.
  - by intros [= <-].
  - cbn. destruct (step tid a w) as [w1|] eqn:Hstep; [|done]. cbn.
    intros Hrun Hquiet Hok. apply (IH w1 Hrun Hquiet).
    apply (step_history_ok _ _ _ _ Hstep); [|done].
    destruct (raced (history w1)) eqn:Hraced; [|done].
    by rewrite (run_raced _ _ _ Hrun Hraced) in Hquiet.
Qed.

(** A step of a thread leaves the other threads and their working models
    alone, and never writes the members set by the constructor. *)
Lemma statement_frame tid w w' :
  statement tid w = Some w' →
  m_model (object w') = m_model (object w)
  ∧ m_statesTraj (object w') = m_statesTraj (object w)
  ∧ m_FySpline (object w') = m_FySpline (object w)
  ∧ m_numContacts (object w') = m_numContacts (object w)
  ∧ ∀ tid', tid' ≠ tid →
      m_workingModels (object w') !! tid'
      = m_workingModels (object w) !! tid'
      ∧ control w' !! tid' = control w !! tid'.
Proof.
  assert (Hat : ∀ c, ∀ tid', tid' ≠ tid →
            control (at_control w tid c) !! tid' = control w !! tid').
  { intros c tid' Hne. cbn. by rewrite lookup_insert_ne. }
  assert (Hwith : ∀ m c, ∀ tid', tid' ≠ tid →
            m_workingModels (object (at_control_with w tid m c)) !! tid'
            = m_workingModels (object w) !! tid'
            ∧ control (at_control_with w tid m c) !! tid'
              = control w !! tid').
  { intros m c tid' Hne. cbn. by rewrite !lookup_insert_ne. }
  unfold statement.
  destruct (control w !! tid) as [[x|x|x|x|x|x|x|x v|e]|]; try done.
  - destruct (m_workingModels (object w) !! tid); intros [= <-];
      by repeat split; auto.
  - destruct (m_modelMutex w); [done|]. intros [= <-]. repeat split; try done.
    cbn. by rewrite lookup_insert_ne.
  - intros [= <-]. repeat split; try done; cbn; by rewrite lookup_insert_ne.
  - intros [= <-]. repeat split; try done. cbn. by rewrite lookup_insert_ne.
  - intros Hw'. apply (inj Some) in Hw'. subst w'.
    destruct (initSystem _); repeat split; try done; by apply Hwith.
  - intros Hw'. apply (inj Some) in Hw'. subst w'.
    destruct (_ ≫= initSystem); repeat split; try done; by apply Hwith.
  - destruct (m_workingModels (object w) !! tid) as [m|]; [|done].
    cbn [mbind option_bind]. intros Hw'. apply (inj Some) in Hw'. subst w'.
    destruct (m_statesTraj (object w)) eqn:Htraj; repeat split;
      try done; try exact Htraj; by apply Hat.
Qed.

Lemma step_frame tid a w w' :
  step tid a w = Some w' →
  m_model (object w') = m_model (object w)
  ∧ m_statesTraj (object w') = m_statesTraj (object w)
  ∧ m_FySpline (object w') = m_FySpline (object w)
  ∧ m_numContacts (object w') = m_numContacts (object w)
  ∧ ∀ tid', tid' ≠ tid →
      m_workingModels (object w') !! tid'
      = m_workingModels (object w) !! tid'
      ∧ control w' !! tid' = control w !! tid'.
Proof.
  destruct a as [x| | |]; cbn [step].
  - destruct (control w !! tid); [done|]. intros [= <-].
    repeat split; try done. cbn. by rewrite lookup_insert_ne.
  - intros (w1 & Hst & ->)%advance_Some. exact (statement_frame _ _ _ Hst).
  - destruct (control w !! tid) as [[]|]; try done. intros [= <-].
    repeat split; try done. cbn. by rewrite lookup_delete_ne.
  - case_decide; [|done]. by intros [= <-].
Qed.

End ThreadsFacts.

(* ===================================================================== *)
(** * Part III: the claims *)
(* ===================================================================== *)

(** ** The contact law *)

Lemma contact_force_unfold (stiffness y : double) :
  contact_force stiffness y
  = dadd (dmul stiffness (fmax dzero (dsub dzero y)))
         (dmul (of_Z 1) (dsub dzero y)).
Proof. reflexivity. Qed.

Lemma Q_contact_force_unfold (k y : Q) :
  contact_force k y = (k * Qmax 0 (0 - y) + 1 * (0 - y))%Q.
Proof. reflexivity. Qed.

(** C10: for every finite stiffness, the contact law evaluated at the
    ground height (height zero of either sign, so penetration depth 0)
    returns exactly +0: both terms [stiffness * max(0, depth)] and
    [stiffness_fictitious * depth] vanish there, so the two branches of the
    piecewise law meet at the boundary. *)
Theorem contact_force_at_ground (stiffness : double) (s : bool) :
  is_finite stiffness = true →
  depth_of (S754_zero s) = dzero
  ∧ dmul stiffness (fmax dzero (depth_of (S754_zero s))) = S754_zero
      (match stiffness with
       | S754_zero sk | S754_finite sk _ _ => sk
       | _ => false
       end)
  ∧ contact_force stiffness (S754_zero s) = dzero.
Proof.
  intros Hfin. destruct stiffness as [sk|sk| |sk mk ek]; try done;
    by destruct s, sk.
Qed.

Lemma contact_force_at_ground_witness :
  contact_force (of_Z 3180) (of_Z 0) = dzero.
Proof. apply (contact_force_at_ground (of_Z 3180) false). reflexivity. Defined.

(** The law at a height below the ground: the clamp keeps the depth,
    and the fictitious stiffness 1 leaves it as it is. *)
Lemma contact_force_in_ground (stiffness : double) my ey :
  well_formed (S754_finite true my ey) = true →
  @depth_of double _ (S754_finite true my ey) = S754_finite false my ey
  ∧ @contact_force double _ stiffness (S754_finite true my ey)
    = dadd (dmul stiffness (S754_finite false my ey))
           (S754_finite false my ey).
Proof.
  intros Hwf. split; [reflexivity|]. rewrite contact_force_unfold.
  change (dsub dzero (S754_finite true my ey))
    with (S754_finite false my ey).
  change (fmax dzero (S754_finite false my ey))
    with (S754_finite false my ey).
  by rewrite (dmul_one_l_finite false my ey).
Qed.

(** A finite height with a positive depth is a negative number. *)
Lemma positive_depth (y : double) :
  is_finite y = true → dlt dzero (depth_of y) = true →
  ∃ my ey, y = S754_finite true my ey.
Proof.
  destruct y as [[]| | |[] my ey]; try done. intros _ _. by exists my, ey.
Qed.

Lemma dle_refl_finite m e :
  dle (S754_finite false m e) (S754_finite false m e) = true.
Proof. apply SFleb_pos_finite. right. split; [done|lia]. Qed.

(** C2 (amended): the contact law computes [depth = ground_height - y] and
    returns [stiffness * fmax(0, depth) + stiffness_fictitious * depth].
    For a finite stiffness and [depth <= 0] the force equals
    [stiffness_fictitious * depth], which is the depth itself and is not
    positive.  For [depth > 0] the force is
    [stiffness * depth + depth]; on doubles it does not decrease when
    the stiffness grows, nor, for a stiffness that is not negative, when
    the depth grows; evaluated without rounding, it is strictly
    increasing in the stiffness, and strictly increasing in the depth for
    a stiffness above -1. *)
Theorem contact_force_law :
  (∀ stiffness y : double,
     contact_force stiffness y
     = force_of_depth_spec stiffness (depth_of y))
  ∧ (∀ stiffness y : double,
       is_finite stiffness = true → well_formed y = true →
       dle (depth_of y) dzero = true →
       contact_force stiffness y = dmul stiffness_fictitious (depth_of y)
       ∧ contact_force stiffness y = depth_of y
       ∧ dle (contact_force stiffness y) dzero = true)
  ∧ (∀ stiffness y : double,
       well_formed y = true → is_finite y = true →
       dlt dzero (depth_of y) = true →
       contact_force stiffness y
       = dadd (dmul stiffness (depth_of y)) (depth_of y))
  ∧ (∀ k1 k2 y : double,
       well_formed k1 = true → well_formed k2 = true →
       well_formed y = true →
       is_finite k1 = true → is_finite k2 = true → is_finite y = true →
       dlt dzero (depth_of y) = true → dle k1 k2 = true →
       dle (contact_force k1 y) (contact_force k2 y) = true)
  ∧ (∀ k y1 y2 : double,
       well_formed k = true → well_formed y1 = true →
       well_formed y2 = true →
       is_finite k = true → is_finite y1 = true → is_finite y2 = true →
       dle dzero k = true →
       dlt dzero (depth_of y1) = true →
       dle (depth_of y1) (depth_of y2) = true →
       dle (contact_force k y1) (contact_force k y2) = true)
  ∧ (∀ k1 k2 y : Q,
       (k1 < k2)%Q → (0 < depth_of y)%Q →
       (contact_force k1 y < contact_force k2 y)%Q)
  ∧ (∀ k y1 y2 : Q,
       (-1 < k)%Q → (0 < depth_of y1)%Q → (depth_of y1 < depth_of y2)%Q →
       (contact_force k y1 < contact_force k y2)%Q).
Proof.
  split; [done|]. split; [|split; [|split; [|split; [|split]]]].
  - intros stiffness y Hfin Hwf Hle.
    assert (Hone : dmul stiffness_fictitious (depth_of y) = depth_of y).
    { destruct y as [[]|[]| |sy my ey]; try done.
      apply (dmul_one_l_finite (negb sy) my ey). by destruct sy. }
    assert (Hforce : contact_force stiffness y = depth_of y).
    { destruct y as [sy|sy| |sy my ey]; try done.
      - destruct stiffness as [sk|sk| |sk mk ek]; try done; by destruct sy, sk.
      - destruct sy; [done|].
        destruct stiffness as [sk|sk| |sk mk ek]; try done; by destruct sk.
      - destruct sy; [done|].
        rewrite contact_force_unfold.
        change (dsub dzero (S754_finite false my ey))
          with (S754_finite true my ey).
        rewrite (dmul_one_l_finite true my ey) by done.
        destruct stiffness as [sk|sk| |sk mk ek]; try done; by destruct sk. }
    by rewrite Hone, Hforce.
  - intros stiffness y Hwf Hfin Hd.
    destruct (positive_depth y Hfin Hd) as (my & ey & ->).
    destruct (contact_force_in_ground stiffness my ey Hwf) as [-> ->]. done.
  - intros k1 k2 y Hk1 Hk2 Hy Hf1 Hf2 Hfy Hd Hle.
    destruct (positive_depth y Hfy Hd) as (my & ey & ->).
    destruct (contact_force_in_ground k1 my ey Hy) as [_ ->].
    destruct (contact_force_in_ground k2 my ey Hy) as [_ ->].
    assert (Hd' : valid_binary prec emax (S754_finite false my ey) = true)
      by exact Hy.
    destruct (dmul_valid k1 (S754_finite false my ey)) as [Hv1 _];
      [done..|].
    destruct (dmul_valid k2 (S754_finite false my ey)) as [Hv2 _];
      [done..|].
    apply dadd_mono; try done; try by eexists _, _, _.
    + by apply dmul_mono_l.
    + apply dle_refl_finite.
  - intros k y1 y2 Hk Hy1 Hy2 Hfk Hf1 Hf2 Hk0 Hd1 Hle.
    destruct (positive_depth y1 Hf1 Hd1) as (m1 & e1 & ->).
    assert (Hd2 : dlt dzero (depth_of y2) = true).
    { destruct y2 as [[]| | |[] m2 e2]; done. }
    destruct (positive_depth y2 Hf2 Hd2) as (m2 & e2 & ->).
    destruct (contact_force_in_ground k m1 e1 Hy1) as [Hdep1 ->].
    destruct (contact_force_in_ground k m2 e2 Hy2) as [Hdep2 ->].
    rewrite Hdep1, Hdep2 in Hle.
    assert (Hv1 : valid_binary prec emax (S754_finite false m1 e1) = true)
      by exact Hy1.
    assert (Hv2 : valid_binary prec emax (S754_finite false m2 e2) = true)
      by exact Hy2.
    destruct (dmul_valid k (S754_finite false m1 e1)) as [Hp1 _]; [done..|].
    destruct (dmul_valid k (S754_finite false m2 e2)) as [Hp2 _]; [done..|].
    apply dadd_mono; try done; try by eexists _, _, _.
    rewrite (dmul_comm k (S754_finite false m1 e1)).
    rewrite (dmul_comm k (S754_finite false m2 e2)).
    by apply dmul_mono_l.
  - intros k1 k2 y Hk Hy. change (0 < 0 - y)%Q in Hy.
    rewrite !Q_contact_force_unfold. unfold Qmax.
    destruct (Qlt_le_dec 0 (0 - y)); [nra | lra].
  - intros k y1 y2 Hk H1 H2.
    change (0 < 0 - y1)%Q in H1. change (0 - y1 < 0 - y2)%Q in H2.
    rewrite !Q_contact_force_unfold. unfold Qmax.
    destruct (Qlt_le_dec 0 (0 - y1)), (Qlt_le_dec 0 (0 - y2)); try lra.
    nra.
Qed.

Lemma contact_force_law_witness :
  contact_force (of_Z 3180) (of_decimal 1 100)
  = dmul stiffness_fictitious (depth_of (of_decimal 1 100))
  ∧ contact_force (of_Z 3180) (of_decimal (-1) 100)
    = dadd (dmul (of_Z 3180) (depth_of (of_decimal (-1) 100)))
           (depth_of (of_decimal (-1) 100))
  ∧ dle (contact_force (of_Z 3180) (of_decimal (-1) 100))
        (contact_force (of_Z 3181) (of_decimal (-1) 100)) = true
  ∧ dle (contact_force (of_Z 3180) (of_decimal (-1) 100))
        (contact_force (of_Z 3180) (of_decimal (-2) 100)) = true
  ∧ (contact_force 3180 (-1 # 100) < contact_force 3181 (-1 # 100))%Q
  ∧ (contact_force 3180 (-1 # 100) < contact_force 3180 (-2 # 100))%Q.
Proof.
  destruct contact_force_law as (_ & Hout & Hin & Hk & Hd & Hqk & Hqd).
  split; [|split; [|split; [|split; [|split]]]].
  - apply Hout; reflexivity.
  - apply Hin; reflexivity.
  - apply Hk; reflexivity.
  - apply Hd; reflexivity.
  - apply Hqk; reflexivity.
  - apply Hqd; reflexivity.
Defined.

(** C2 as stated fails: in double arithmetic the force is not strictly
    increasing.  At height -1 (depth 1) the stiffnesses 1 and 1 + 2^-52
    give the same force 2: the exact sum 2 + 2^-52 lies halfway between
    two doubles and rounds to the even one.  And with the stiffness
    2^-53 the depths 1 - 2^-53 and 1 give the same force 1. *)
Lemma contact_force_not_strictly_increasing :
  let k1 := of_Z 1 in
  let k2 := S754_finite false 4503599627370497 (-52) in
  let y := of_Z (-1) in
  (well_formed k1 = true ∧ well_formed k2 = true ∧ well_formed y = true
   ∧ depth_of y = of_Z 1
   ∧ dlt k1 k2 = true
   ∧ contact_force k1 y = of_Z 2
   ∧ contact_force k2 y = of_Z 2
   ∧ dlt (contact_force k1 y) (contact_force k2 y) = false)
  ∧ (let k := S754_finite false 4503599627370496 (-105) in
     let y1 := S754_finite true 9007199254740991 (-53) in
     well_formed k = true ∧ well_formed y1 = true
     ∧ dle dzero k = true ∧ dle k (of_Z 10000) = true
     ∧ dlt dzero (depth_of y1) = true
     ∧ dlt (depth_of y1) (depth_of y) = true
     ∧ contact_force k y1 = of_Z 1
     ∧ contact_force k y = of_Z 1
     ∧ dlt (contact_force k y1) (contact_force k y) = false).
Proof. vm_compute. repeat split. Qed.

(** With a stiffness between -1 and 0 the force on doubles can even
    decrease when the depth grows, though without rounding it increases:
    with the stiffness -237/256, the depth 4864647698763067 * 2^-52 gives
    a larger force than the next double above it, the product crossing a
    power of two between the two.  The callers pass no such stiffness. *)
Lemma contact_force_negative_stiffness_decreases :
  let k := of_decimal (-237) 256 in
  let y1 := S754_finite true 4864647698763067 (-52) in
  let y2 := S754_finite true 4864647698763068 (-52) in
  well_formed k = true ∧ well_formed y1 = true ∧ well_formed y2 = true
  ∧ dlt (of_Z (-1)) k = true ∧ dlt k dzero = true
  ∧ dlt dzero (depth_of y1) = true
  ∧ dlt (depth_of y1) (depth_of y2) = true
  ∧ dlt (contact_force k y2) (contact_force k y1) = true.
Proof. vm_compute. repeat split. Qed.

(** ** The parameter mapping *)

(** C7: on a model that has the markers and contact elements of the
    naming convention, and for a vector of length [2 * numContacts],
    [applyParametersToModel] returns a model (it is a function, and total
    there) in which marker [i] has the height
    [lower + x[i] * (upper - lower)] and contact element [j] has the
    stiffness [forceScalingFactor * x[numContacts + j]]; the other
    coordinates of the markers, the other properties of the contact
    elements and their number are as before. *)
Theorem applyParametersToModel_sets n (x : VectorXd) (model : Model) :
  model_ready n model = true → vector_ready n x = true →
  ∃ model',
    applyParametersToModel n x model = Ok model'
    ∧ (∀ i marker, 0 ≤ i < n →
         markers model !! marker_name i = Some marker →
         ∃ xi, x !! Z.to_nat i = Some xi
           ∧ markers model' !! marker_name i
             = Some (mkMarker (parent_frame marker)
                       (mkVec3 (v0 (location marker))
                          (dadd lower (dmul xi (dsub upper lower)))
                          (v2 (location marker)))))
    ∧ (∀ (j : nat) c, contacts model !! j = Some c →
         ∃ xj, x !! Z.to_nat (n + Z.of_nat j) = Some xj
           ∧ contacts model' !! j
             = Some (mkContact (contact_name c) (dmul forceScalingFactor xj)
                       (friction_coefficient c)
                       (tangent_velocity_scaling_factor c) (station c)))
    ∧ length (contacts model') = length (contacts model)
    ∧ dom (markers model') = dom (markers model).
Proof.
  intros Hready Hx.
  destruct (applyParametersToModel_total n x model Hready Hx) as [model' Happly].
  exists model'. split; [done|]. split; [|split; [|split]].
  - intros i marker Hi Hmk.
    by apply (applyParametersToModel_height n x model model' i marker).
  - intros j c Hc.
    by apply (applyParametersToModel_stiffness n x model model' j c).
  - by eapply applyParametersToModel_length.
  - apply applyParametersToModel_sim in Happly as [Hmk _].
    apply set_eq. intros k. rewrite !elem_of_dom.
    specialize (Hmk k). destruct Hmk; split; intros [??]; done || by eexists.
Qed.

Lemma applyParametersToModel_sets_witness :
  ∃ model', applyParametersToModel 6 x_half footModel = Ok model'
    ∧ markerHeightOf model' 0 = Some (markerHeight (of_decimal 1 2))
    ∧ stiffnessOf model' 0 = Some (dmul forceScalingFactor (of_decimal 1 2)).
Proof.
  destruct (applyParametersToModel_sets 6 x_half footModel)
    as (model' & Happly & Hheight & Hstiff & _); [reflexivity..|].
  exists model'. split; [done|]. split.
  - destruct (Hheight 0 (mkMarker "calcn_r"
      (mkVec3 (of_decimal (-3) 100) (of_decimal (-27) 1000) (of_Z 0))))
      as (xi & Hxi & Hmk); [lia | reflexivity |].
    injection Hxi as <-. unfold markerHeightOf. by rewrite Hmk.
  - destruct (Hstiff 0%nat (mkContact "marker0_contact" (of_Z 50000000)
      (of_decimal 95 100) (of_decimal 3 10) "marker0"))
      as (xj & Hxj & Hc); [reflexivity|].
    injection Hxj as <-. unfold stiffnessOf. by rewrite Hc.
Defined.

(** C9: parameter components 0 and 1 are accepted, and they are mapped to
    the bounds exactly: [lower + 0 * (upper - lower)] is the double -0.06
    and [lower + 1 * (upper - lower)] is the double 0.05. *)
Theorem markerHeight_at_bounds n (x : VectorXd) (model : Model) i :
  model_ready n model = true → vector_ready n x = true → 0 ≤ i < n →
  ∃ model',
    applyParametersToModel n x model = Ok model'
    ∧ (x !! Z.to_nat i = Some (of_Z 0) →
       markerHeightOf model' i = Some (of_decimal (-6) 100))
    ∧ (x !! Z.to_nat i = Some (of_Z 1) →
       markerHeightOf model' i = Some (of_decimal 5 100)).
Proof.
  intros Hready Hx Hi.
  destruct (applyParametersToModel_total n x model Hready Hx) as [model' Happly].
  exists model'. split; [done|].
  apply model_ready_spec in Hready as (Hmk & _ & _).
  destruct (Hmk i Hi) as [marker Hmarker].
  destruct (applyParametersToModel_height n x model model' i marker)
    as (xi & Hxi & Hres); try done.
  unfold markerHeightOf. rewrite Hres, Hxi. cbn [fmap option_fmap option_map].
  split; intros [= ->]; reflexivity.
Qed.

Lemma markerHeight_at_bounds_witness :
  ∃ model',
    applyParametersToModel 6 (<[0%nat := of_Z 0]> (<[1%nat := of_Z 1]> x_half))
      footModel = Ok model'
    ∧ markerHeightOf model' 0 = Some (of_decimal (-6) 100)
    ∧ markerHeightOf model' 1 = Some (of_decimal 5 100).
Proof.
  set (x := <[0%nat := of_Z 0]> (<[1%nat := of_Z 1]> x_half)).
  destruct (markerHeight_at_bounds 6 x footModel 0)
    as (model' & Happly & H0 & _); [reflexivity | reflexivity | lia |].
  destruct (markerHeight_at_bounds 6 x footModel 1)
    as (model'' & Happly' & _ & H1); [reflexivity | reflexivity | lia |].
  exists model'. split; [done|]. split; [by apply H0|].
  rewrite Happly in Happly'. injection Happly' as <-. by apply H1.
Defined.

Lemma Q_markerHeight_inverse (a : Q) :
  ((markerHeight a - lower) / (upper - lower) == a)%Q.
Proof. unfold markerHeight, lower, upper. cbn. field. Qed.

Lemma Q_scaledStiffness_inverse (a : Q) :
  (scaledStiffness (s_int 100000000) a / s_int 100000000 == a)%Q.
Proof. unfold scaledStiffness. cbn. field. Qed.

Lemma readParameters_after n (x : VectorXd) (model model' : Model) :
  model_ready n model = true → vector_ready n x = true →
  length (contacts model) = Z.to_nat n →
  applyParametersToModel n x model = Ok model' →
  readParameters n model' = Some <$> physicalValues n x.
Proof.
  intros Hready Hx Hlen Happly.
  pose proof Hready as (Hmk & _ & _)%model_ready_spec.
  apply vector_ready_spec in Hx.
  unfold readParameters, physicalValues. rewrite fmap_app. f_equal.
  - apply list_eq. intros i. rewrite !list_lookup_fmap.
    destruct (decide (i < Z.to_nat n)%nat) as [Hi|Hi];
      [rewrite lookup_take_lt by done
      |rewrite lookup_take_ge by lia].
    + rewrite lookup_seqZ_lt by lia. cbn.
      destruct (Hmk (Z.of_nat i)) as [marker Hmarker]; [lia|].
      destruct (applyParametersToModel_height n x model model'
                  (Z.of_nat i) marker) as (xi & Hxi & Hres); [done|lia|done|].
      rewrite Nat2Z.id in Hxi. rewrite Hxi. cbn.
      unfold markerHeightOf. rewrite Z.add_0_l, Hres. done.
    + rewrite lookup_seqZ_ge by lia. done.
  - rewrite (applyParametersToModel_length _ _ _ _ Happly), Hlen.
    apply list_eq. intros j. rewrite !list_lookup_fmap, lookup_drop.
    destruct (decide (j < Z.to_nat n)%nat) as [Hj|Hj].
    + rewrite lookup_seq_lt by done. cbn.
      destruct (lookup_lt_is_Some_2 (contacts model) j) as [c Hc]; [lia|].
      destruct (applyParametersToModel_stiffness n x model model' j c)
        as (xj & Hxj & Hres); [done..|].
      replace (Z.to_nat (n + Z.of_nat j)) with (Z.to_nat n + j)%nat in Hxj
        by lia.
      rewrite Hxj. cbn. unfold stiffnessOf. by rewrite Hres.
    + rewrite lookup_seq_ge by lia. cbn.
      rewrite lookup_ge_None_2; [done | lia].
Qed.

(** C6 (amended): after [applyParametersToModel], reading the set
    quantities back from the model returns, bit for bit, the physical
    values that stand for [x] (the marker heights
    [lower + x[i] * (upper - lower)] and the stiffnesses
    [forceScalingFactor * x[numContacts + i]]), and applying the same [x]
    again leaves the model as it is.  The two affine maps are undone
    exactly by [(h - lower) / (upper - lower)] and [k / 1e8] when
    evaluated without rounding; in double arithmetic [x] itself need not
    be recoverable. *)
Theorem applyParametersToModel_read_back n (x : VectorXd) (model : Model) :
  model_ready n model = true → vector_ready n x = true →
  length (contacts model) = Z.to_nat n →
  ∃ model',
    applyParametersToModel n x model = Ok model'
    ∧ readParameters n model' = Some <$> physicalValues n x
    ∧ applyParametersToModel n x model' = Ok model'
    ∧ (∀ a : Q, ((markerHeight a - lower) / (upper - lower) == a)%Q)
    ∧ (∀ a : Q,
         (scaledStiffness (s_int 100000000) a / s_int 100000000 == a)%Q).
Proof.
  intros Hready Hx Hlen.
  destruct (applyParametersToModel_total n x model Hready Hx) as [model' Happly].
  exists model'. split; [done|]. split; [|split; [|split]].
  - by apply readParameters_after with model.
  - by apply applyParametersToModel_idem with model.
  - apply Q_markerHeight_inverse.
  - apply Q_scaledStiffness_inverse.
Qed.

Lemma applyParametersToModel_read_back_witness :
  ∃ model',
    applyParametersToModel 6 x_half footModel = Ok model'
    ∧ readParameters 6 model' = Some <$> physicalValues 6 x_half.
Proof.
  destruct (applyParametersToModel_read_back 6 x_half footModel)
    as (model' & Happly & Hread & _);
    [vm_compute; reflexivity..|].
  exists model'. split; [exact Happly | exact Hread].
Defined.

(** C6 as stated fails: the in-bounds vectors that differ only in
    [x[0] = 0] and [x[0] = 2^-60] are mapped to the same model, since
    [-0.06 + 2^-60 * 0.11] rounds to [-0.06]; no reading of the model can
    return both. *)
Lemma applyParametersToModel_not_invertible :
  let x1 := <[0%nat := of_Z 0]> x_half in
  let x2 := <[0%nat := S754_finite false 4503599627370496 (-112)]> x_half in
  vector_ready 6 x1 = true ∧ in_bounds x1 = true
  ∧ vector_ready 6 x2 = true ∧ in_bounds x2 = true
  ∧ x1 ≠ x2
  ∧ markerHeight (S754_finite false 4503599627370496 (-112))
    = markerHeight (of_Z 0)
  ∧ succeeds (applyParametersToModel 6 x1 footModel) = true
  ∧ applyParametersToModel 6 x1 footModel
    = applyParametersToModel 6 x2 footModel
  ∧ ¬ invertible_on 6 footModel.
Proof.
  intros x1 x2.
  assert (Heq : applyParametersToModel 6 x1 footModel
                = applyParametersToModel 6 x2 footModel)
    by (vm_compute; reflexivity).
  assert (Hr1 : vector_ready 6 x1 = true) by (vm_compute; reflexivity).
  assert (Hb1 : in_bounds x1 = true) by (vm_compute; reflexivity).
  assert (Hr2 : vector_ready 6 x2 = true) by (vm_compute; reflexivity).
  assert (Hb2 : in_bounds x2 = true) by (vm_compute; reflexivity).
  assert (Hne : x1 ≠ x2).
  { intros Hx. apply (f_equal (λ l : list double, l !! 0%nat)) in Hx.
    vm_compute in Hx. discriminate Hx. }
  split; [exact Hr1|]. split; [exact Hb1|]. split; [exact Hr2|].
  split; [exact Hb2|]. split; [exact Hne|].
  split; [vm_compute; reflexivity|].
  split; [vm_compute; reflexivity|].
  split; [exact Heq|].
  intros [read Hread].
  destruct (applyParametersToModel 6 x1 footModel) as [model'|e] eqn:H1.
  - apply Hne. transitivity (read model').
    + symmetry. apply Hread; [exact Hr1 | exact Hb1 | exact H1].
    + apply Hread; [exact Hr2 | exact Hb2 | symmetry; exact Heq].
  - vm_compute in H1. discriminate H1.
Qed.

(** ** The objective and the pool *)

Lemma initSystem_Ok_attached (model model' : Model) :
  initSystem model = Ok model' →
  forallb (λ c, bool_decide (is_Some (markers model !! station c)))
    (contacts model) = true.
Proof.
  unfold initSystem.
  destruct (list_find _ _) as [[i c]|] eqn:Hfind; [done|]. intros _.
  apply list_find_None in Hfind. rewrite Forall_forall in Hfind.
  apply forallb_forall. intros c Hc%list_elem_of_In.
  apply bool_decide_eq_true. specialize (Hfind c Hc).
  by destruct (markers model !! station c).
Qed.

Lemma model_sim_initSystem S (m1 m2 : Model) :
  model_sim S m1 m2 → initSystem m2 = Ok m2 → initSystem m1 = Ok m1.
Proof.
  intros [Hmk Hcs] Hst%initSystem_Ok_attached. apply initSystem_attached.
  rewrite forallb_forall in Hst. apply forallb_forall.
  intros c1 [j Hj]%list_elem_of_In%list_elem_of_lookup.
  destruct (Forall2_lookup_l _ _ _ _ _ Hcs Hj) as (c2 & Hc2 & Hsim).
  destruct Hsim as (_ & _ & _ & ->).
  assert (Hin : In c2 (contacts m2)).
  { apply list_elem_of_In, list_elem_of_lookup. eauto. }
  apply Hst, bool_decide_eq_true in Hin as [b Hb].
  apply bool_decide_eq_true. specialize (Hmk (station c2)).
  rewrite Hb in Hmk. inversion Hmk. by eexists.
Qed.

Lemma model_sim_sym_empty_free S (m1 m2 : Model) :
  model_sim S m1 m2 → model_sim S m2 m1.
Proof.
  intros [Hmk Hcs]. split.
  - intros k. specialize (Hmk k). destruct Hmk as [a b (? & ? & ? & Hh)|];
      constructor. repeat split; try done. intros Hf. by rewrite Hh.
  - apply Forall2_flip. eapply Forall2_impl; [done|].
    intros a b. apply contact_sim_sym.
Qed.

Lemma set_workingModels_twice self wm wm' :
  set_workingModels (set_workingModels self wm) wm'
  = set_workingModels self wm'.
Proof. done. Qed.

Section Claims.
Variable calcContactForce :
  Model → AckermannVanDenBogert2010Force → State → Vec3.
Variable getTotalMass : Model → State → double.
Variable gravityNorm : Model → double.

Local Abbreviation simulatedVerticalForce :=
  (simulatedVerticalForce calcContactForce).
Local Abbreviation objective_spec :=
  (objective_spec calcContactForce getTotalMass gravityNorm).
Local Abbreviation objective_zero_signal_spec :=
  (objective_zero_signal_spec calcContactForce getTotalMass gravityNorm).
Local Abbreviation calc_objective :=
  (calc_objective calcContactForce getTotalMass gravityNorm).
Local Abbreviation printContactComparison :=
  (printContactComparison calcContactForce).
Local Abbreviation evaluations :=
  (evaluations calcContactForce getTotalMass gravityNorm).

Lemma calc_objective_total self tid x front rest :
  model_ready (m_numContacts self) (workingModel self tid) = true →
  vector_ready (m_numContacts self) x = true →
  m_statesTraj self = front :: rest →
  ∃ model,
    applyParametersToModel (m_numContacts self) x (workingModel self tid)
      = Ok model
    ∧ calc_objective self tid x
      = Ok (set_workingModels self
              (<[tid := model]> (m_workingModels self)),
            objective_spec model (m_FySpline self) (m_statesTraj self) front).
Proof.
  intros Hready Hx Htraj.
  destruct (applyParametersToModel_total _ x _ Hready Hx) as [model Happly].
  exists model. split; [done|].
  apply (calc_objective_run _ _ _ _ _ _ model front rest); try done.
  - intros Hnone. unfold workingModel in Hready. rewrite Hnone in Hready.
    by eapply model_ready_initSystem.
  - eapply model_ready_initSystem.
    by eapply applyParametersToModel_ready.
Qed.

Lemma objective_zero_signal model FySpline states front :
  (∀ t, calcValue FySpline t = dzero) →
  objective_spec model FySpline states front
  = objective_zero_signal_spec model states front.
Proof.
  intros Hzero. unfold objective_spec, objective_zero_signal_spec.
  do 2 f_equal. apply list_fmap_ext. intros _ s _.
  unfold squaredResidual. cbn. by rewrite Hzero, dsub_zero_r.
Qed.

(** C1: for a vector of length [2 * numContacts], a non-empty trajectory
    and a working model with the markers and contact elements of the naming
    convention, [calc_objective] returns the sum, over the states in
    order, of the squared difference between the summed vertical contact
    force and the experimental force at the time of the state, divided by
    (total mass * norm of gravity * number of states); the forces are those
    of the working model of the calling thread with [x] applied.  When the
    experimental force is zero at every time, this is the sum of the
    squared simulated vertical forces over the same divisor. *)
Theorem calc_objective_normalized_squared_error self tid x front rest :
  model_ready (m_numContacts self) (workingModel self tid) = true →
  vector_ready (m_numContacts self) x = true →
  m_statesTraj self = front :: rest →
  ∃ self' model,
    applyParametersToModel (m_numContacts self) x (workingModel self tid)
      = Ok model
    ∧ calc_objective self tid x
      = Ok (self',
            ddiv (dsum ((λ s,
                    let state := realizeVelocity model s in
                    pow2 (dsub (simulatedVerticalForce model state)
                               (calcValue (m_FySpline self) (time state))))
                    <$> m_statesTraj self))
                 (dmul (dmul (getTotalMass model front) (gravityNorm model))
                       (of_Z (Z.of_nat (length (m_statesTraj self))))))
    ∧ ((∀ t, calcValue (m_FySpline self) t = dzero) →
       calc_objective self tid x
       = Ok (self',
             ddiv (dsum ((λ s,
                     pow2 (simulatedVerticalForce model
                             (realizeVelocity model s)))
                     <$> m_statesTraj self))
                  (dmul (dmul (getTotalMass model front)
                              (gravityNorm model))
                        (of_Z (Z.of_nat (length (m_statesTraj self))))))).
Proof.
  intros Hready Hx Htraj.
  destruct (calc_objective_total self tid x front rest Hready Hx Htraj)
    as (model & Happly & Hcall).
  eexists _, model. split; [done|]. split; [exact Hcall|].
  intros Hzero. rewrite Hcall. do 2 f_equal.
  by apply objective_zero_signal.
Qed.


Lemma calc_objective_again self tid x self1 v :
  calc_objective self tid x = Ok (self1, v) →
  calc_objective self1 tid x = Ok (self1, v).
Proof.
  intros (model & front & rest & Happly & Hinit & Htraj & -> & ->)%calc_objective_Ok.
  set (self1 := set_workingModels self _).
  assert (Hwm : workingModel self1 tid = model).
  { unfold workingModel, self1. cbn. by rewrite lookup_insert_eq. }
  rewrite (calc_objective_run _ _ _ self1 tid x model front rest); try done.
  - unfold self1. cbn. by rewrite insert_insert_eq.
  - unfold self1. cbn. by rewrite lookup_insert_eq.
  - rewrite Hwm. by apply applyParametersToModel_idem with (workingModel self tid).
Qed.

Lemma calc_objective_other_thread self tid tid' x self1 v :
  consistent self →
  calc_objective self tid x = Ok (self1, v) →
  ∃ self2, calc_objective self1 tid' x = Ok (self2, v).
Proof.
  intros Hcons Hcall.
  pose proof (calc_objective_consistent _ _ _ _ _ _ _ _ Hcons Hcall) as Hcons1.
  destruct (calc_objective_frame _ _ _ _ _ _ _ _ Hcall)
    as (Hm & Ht & Hs & Hn & _ & _).
  apply calc_objective_Ok in Hcall
    as (model & front & rest & Happly & Hinit & Htraj & _ & ->).
  rewrite (workingModel_equiv self tid Hcons) in Happly.
  eexists. rewrite <- Ht, <- Hs.
  apply (calc_objective_run _ _ _ self1 tid' x model front rest).
  - intros _. rewrite Hm.
    apply (model_sim_initSystem (marker_names (seqZ 0 (m_numContacts self)))
             _ model); [|done].
    by apply model_sim_sym_empty_free, applyParametersToModel_sim with x.
  - rewrite (workingModel_equiv self1 tid' Hcons1). by rewrite Hm, Hn.
  - done.
  - congruence.
Qed.

(** C3: in a session started by the constructor, whatever evaluations
    have been made, from whatever threads: two evaluations of the same [x]
    return the same value; and an evaluation of [x] followed by another
    one of [x] on the same thread returns the same value again and leaves
    the object, pool included, exactly as the first one left it; on any
    other thread it returns the same value too. *)
Theorem calc_objective_deterministic model statesTraj FySpline numContacts
    self0 calls self vals :
  construct model statesTraj FySpline numContacts = Ok self0 →
  evaluations self0 calls = Ok (self, vals) →
  (∀ (i j : nat) ti tj x vi vj,
     calls !! i = Some (ti, x) → calls !! j = Some (tj, x) →
     vals !! i = Some vi → vals !! j = Some vj → vi = vj)
  ∧ (∀ tid x self1 v,
       calc_objective self tid x = Ok (self1, v) →
       calc_objective self1 tid x = Ok (self1, v)
       ∧ ∀ tid', ∃ self2, calc_objective self1 tid' x = Ok (self2, v)).
Proof.
  intros Hnew Hevals.
  destruct (evaluations_spec _ _ _ _ _ _ _
              (consistent_construct _ _ _ _ _ Hnew) Hevals)
    as (Hcons & _ & _ & _ & _ & _ & Hvals).
  split.
  - intros i j ti tj x vi vj Hi Hj Hvi Hvj.
    destruct (Hvals _ _ _ _ Hi Hvi) as (m1 & f1 & r1 & Ha1 & Ht1 & ->).
    destruct (Hvals _ _ _ _ Hj Hvj) as (m2 & f2 & r2 & Ha2 & Ht2 & ->).
    congruence.
  - intros tid x self1 v Hcall. split.
    + exact (calc_objective_again self tid x self1 v Hcall).
    + intros tid'.
      exact (calc_objective_other_thread self tid tid' x self1 v Hcons Hcall).
Qed.

(** X24: for evaluations that do not overlap: in a session started by
    the constructor, after a sequence of evaluations one after the other,
    the pool has one working model for each thread that called, and no
    other: [N] models after calls from [N] distinct threads.  A further call from a thread that has a working model adds
    none, and a call from one thread leaves the working model of every
    other thread, hence every force computed from it, as it was. *)
Theorem pool_one_model_per_thread model statesTraj FySpline numContacts
    self0 calls self vals :
  construct model statesTraj FySpline numContacts = Ok self0 →
  evaluations self0 calls = Ok (self, vals) →
  dom (m_workingModels self) = list_to_set calls.*1
  ∧ (NoDup calls.*1 → size (m_workingModels self) = length calls)
  ∧ ∀ tid x self' v,
      calc_objective self tid x = Ok (self', v) →
      (is_Some (m_workingModels self !! tid) →
       dom (m_workingModels self') = dom (m_workingModels self)
       ∧ size (m_workingModels self') = size (m_workingModels self))
      ∧ (∀ tid', tid' ≠ tid →
           m_workingModels self' !! tid' = m_workingModels self !! tid'
           ∧ ∀ state,
               simulatedVerticalForce (workingModel self' tid') state
               = simulatedVerticalForce (workingModel self tid') state).
Proof.
  intros Hnew Hevals.
  destruct (evaluations_spec _ _ _ _ _ _ _
              (consistent_construct _ _ _ _ _ Hnew) Hevals)
    as (_ & _ & _ & _ & _ & Hdom & _).
  apply construct_Ok in Hnew as ->.
  cbn in Hdom. rewrite dom_empty_L, (right_id_L ∅ (∪)) in Hdom.
  split; [done|]. split.
  - intros Hnodup. rewrite <- size_dom, Hdom, size_list_to_set by done.
    by rewrite length_fmap.
  - intros tid x self' v Hcall.
    destruct (calc_objective_frame _ _ _ _ _ _ _ _ Hcall)
      as (Hm & _ & _ & _ & Hdom' & Hother).
    split.
    + intros Hin%elem_of_dom.
      assert (Heq : dom (m_workingModels self') = dom (m_workingModels self)).
      { rewrite Hdom'. apply set_eq. intros k.
        rewrite elem_of_union, elem_of_singleton.
        split; [intros [->|Hk]; assumption | by right]. }
      split; [done|]. by rewrite <- !size_dom, Heq.
    + intros tid' Hne. split; [by apply Hother|].
      intros state. unfold workingModel. by rewrite Hother, Hm.
Qed.

(** C5 (amended): [calc_objective] leaves [m_model], the trajectory, the
    spline, the number of contacts and the working models of all other
    threads as they are: it writes only the working model of the calling
    thread.  [printContactComparison] leaves the pool, the trajectory, the
    spline and the number of contacts as they are, and replaces [m_model]
    by [m_model] with the parameters applied. *)
Theorem calibration_writes self :
  (∀ tid x self' v,
     calc_objective self tid x = Ok (self', v) →
     m_model self' = m_model self
     ∧ m_statesTraj self' = m_statesTraj self
     ∧ m_FySpline self' = m_FySpline self
     ∧ m_numContacts self' = m_numContacts self
     ∧ ∀ tid', tid' ≠ tid →
         m_workingModels self' !! tid' = m_workingModels self !! tid')
  ∧ (∀ x self' table,
       printContactComparison self x = Ok (self', table) →
       m_workingModels self' = m_workingModels self
       ∧ m_statesTraj self' = m_statesTraj self
       ∧ m_FySpline self' = m_FySpline self
       ∧ m_numContacts self' = m_numContacts self
       ∧ applyParametersToModel (m_numContacts self) x (m_model self)
         = Ok (m_model self')).
Proof.
  split.
  - intros tid x self' v Hcall.
    destruct (calc_objective_frame _ _ _ _ _ _ _ _ Hcall)
      as (? & ? & ? & ? & _ & ?). done.
  - intros x self' table (model & Happly & -> & _)%printContactComparison_Ok.
    done.
Qed.
End Claims.



(** ** The claims on the session of [calibrateContact] *)

Lemma trajectory100_front :
  trajectory100
  = mkState (of_decimal 0 100) [of_decimal 50 1000] [of_Z 0] Stage_Time
    :: tail trajectory100.
Proof. vm_compute. reflexivity. Qed.

Lemma footSession_ready FySpline tid :
  model_ready (m_numContacts (footSession FySpline))
    (workingModel (footSession FySpline) tid) = true.
Proof. vm_compute. reflexivity. Qed.

Lemma calc_objective_normalized_squared_error_witness :
  ∃ self' model,
    applyParametersToModel 6 x_half footModel = Ok model
    ∧ calc_objective law_calcContactForce law_getTotalMass law_gravityNorm
        (footSession zeroSignal) 1%positive x_half
      = Ok (self',
            objective_zero_signal_spec law_calcContactForce law_getTotalMass
              law_gravityNorm model trajectory100
              (mkState (of_decimal 0 100) [of_decimal 50 1000] [of_Z 0]
                 Stage_Time)).
Proof.
  destruct (calc_objective_normalized_squared_error
              law_calcContactForce law_getTotalMass law_gravityNorm
              (footSession zeroSignal) 1%positive x_half
              (mkState (of_decimal 0 100) [of_decimal 50 1000] [of_Z 0]
                 Stage_Time)
              (tail trajectory100))
    as (self' & model & Happly & _ & Hzero).
  - apply footSession_ready.
  - vm_compute. reflexivity.
  - exact trajectory100_front.
  - exists self', model. split; [exact Happly|]. apply Hzero. reflexivity.
Defined.

Lemma footSession_constructed FySpline :
  construct footModel trajectory100 FySpline 6 = Ok (footSession FySpline).
Proof. vm_compute. reflexivity. Qed.

Lemma sessionCalls_succeed :
  succeeds (evaluations law_calcContactForce law_getTotalMass law_gravityNorm
              (footSession zeroSignal) sessionCalls) = true.
Proof. vm_compute. reflexivity. Qed.

Lemma report_succeeds :
  succeeds (printContactComparison law_calcContactForce
              (footSession zeroSignal) x_half) = true.
Proof. vm_compute. reflexivity. Qed.

Lemma report_after_evaluation :
  match
    calc_objective law_calcContactForce law_getTotalMass law_gravityNorm
      (footSession zeroSignal) 1%positive x_half
  with
  | Ok (self1, _) =>
      match printContactComparison law_calcContactForce self1 x_half with
      | Ok (self2, _) =>
          (bool_decide (is_Some (m_workingModels self1 !! 1%positive)),
           markerHeightOf (m_model self1) 0,
           markerHeightOf (m_model self2) 0)
      | Err _ => (false, None, None)
      end
  | Err _ => (false, None, None)
  end
  = (true, Some (of_decimal (-27) 1000),
     Some (markerHeight (of_decimal 1 2))).
Proof. vm_compute. reflexivity. Qed.






Lemma calc_objective_deterministic_witness :
  ∃ self vals,
    evaluations law_calcContactForce law_getTotalMass law_gravityNorm
      (footSession zeroSignal) sessionCalls = Ok (self, vals)
    ∧ ∀ v0 v2, vals !! 0%nat = Some v0 → vals !! 2%nat = Some v2 → v0 = v2.
Proof.
  pose proof sessionCalls_succeed as Hok.
  destruct (evaluations law_calcContactForce law_getTotalMass law_gravityNorm
              (footSession zeroSignal) sessionCalls)
    as [[self vals]|e] eqn:He; [|discriminate Hok].
  exists self, vals. split; [reflexivity|].
  destruct (calc_objective_deterministic _ _ _ _ _ _ _ _ _ _ _
              (footSession_constructed zeroSignal) He) as [Hsame _].
  intros v0 v2 H0 H2.
  apply (Hsame 0%nat 2%nat 1%positive 3%positive x_half v0 v2);
    (reflexivity || assumption).
Defined.

Lemma pool_one_model_per_thread_witness :
  ∃ self vals,
    evaluations law_calcContactForce law_getTotalMass law_gravityNorm
      (footSession zeroSignal) sessionCalls = Ok (self, vals)
    ∧ size (m_workingModels self) = 3%nat.
Proof.
  pose proof sessionCalls_succeed as Hok.
  destruct (evaluations law_calcContactForce law_getTotalMass law_gravityNorm
              (footSession zeroSignal) sessionCalls)
    as [[self vals]|e] eqn:He; [|discriminate Hok].
  exists self, vals. split; [reflexivity|].
  destruct (pool_one_model_per_thread _ _ _ _ _ _ _ _ _ _ _
              (footSession_constructed zeroSignal) He) as (_ & Hsize & _).
  apply Hsize. apply (bool_decide_unpack _). vm_compute. exact I.
Defined.

Lemma calibration_writes_witness :
  ∃ self' table,
    printContactComparison law_calcContactForce (footSession zeroSignal) x_half
    = Ok (self', table)
    ∧ m_workingModels self' = ∅
    ∧ applyParametersToModel 6 x_half footModel = Ok (m_model self').
Proof.
  pose proof report_succeeds as Hok.
  destruct (printContactComparison law_calcContactForce
              (footSession zeroSignal) x_half)
    as [[self' table]|e] eqn:Hp; [|discriminate Hok].
  exists self', table. split; [reflexivity|].
  destruct (calibration_writes law_calcContactForce law_getTotalMass
              law_gravityNorm (footSession zeroSignal)) as [_ Hprint].
  destruct (Hprint _ _ _ Hp) as (Hpool & _ & _ & _ & Happly).
  split; [exact Hpool | exact Happly].
Defined.

(** C5 as stated fails for the report: after an evaluation has put a
    working model into the pool, [printContactComparison] writes the
    parameters into [m_model] itself; the height of [marker0] in [m_model]
    changes from -0.027 to [lower + 0.5 * (upper - lower)]. *)
Lemma printContactComparison_writes_m_model :
  ∃ self1 v self2 table,
    calc_objective law_calcContactForce law_getTotalMass law_gravityNorm
      (footSession zeroSignal) 1%positive x_half = Ok (self1, v)
    ∧ is_Some (m_workingModels self1 !! 1%positive)
    ∧ printContactComparison law_calcContactForce self1 x_half
      = Ok (self2, table)
    ∧ markerHeightOf (m_model self1) 0 = Some (of_decimal (-27) 1000)
    ∧ markerHeightOf (m_model self2) 0 = Some (markerHeight (of_decimal 1 2))
    ∧ m_model self2 ≠ m_model self1.
Proof.
  pose proof report_after_evaluation as H.
  destruct (calc_objective law_calcContactForce law_getTotalMass
              law_gravityNorm (footSession zeroSignal) 1%positive x_half)
    as [[self1 v]|e] eqn:Hc; [|discriminate H].
  destruct (printContactComparison law_calcContactForce self1 x_half)
    as [[self2 table]|e] eqn:Hp; [|discriminate H].
  apply pair_equal_spec in H as [[Hpool H1]%pair_equal_spec H2].
  exists self1, v, self2, table.
  split; [reflexivity|]. split; [by apply bool_decide_eq_true in Hpool|].
  split; [exact Hp|]. split; [exact H1|]. split; [exact H2|].
  intros Heq. rewrite Heq, H1 in H2. vm_compute in H2. discriminate H2.
Qed.

(* ===================================================================== *)
(** * Part IV: further properties of the code *)
(* ===================================================================== *)

(** ** [calc_objective], statement by statement *)

Section ThreadsAlone.
Variable calcContactForce :
  Model → AckermannVanDenBogert2010Force → State → Vec3.
Variable getTotalMass : Model → State → double.
Variable gravityNorm : Model → double.

Local Abbreviation calc_objectiveT :=
  (calc_objective calcContactForce getTotalMass gravityNorm).
Local Abbreviation statementT :=
  (statement calcContactForce getTotalMass gravityNorm).
Local Abbreviation advanceT :=
  (advance calcContactForce getTotalMass gravityNorm).
Local Abbreviation stepT := (step calcContactForce getTotalMass gravityNorm).
Local Abbreviation runT := (run calcContactForce getTotalMass gravityNorm).

Lemma run_Advance tid rest w w1 :
  statementT tid w = Some w1 →
  runT ((tid, Advance) :: rest) w
  = runT rest (set_history w1 (record_access tid (pool_access w tid) (history w))).
Proof. intros Hst. cbn [run step]. unfold advance. by rewrite Hst. Qed.

Lemma run_Call tid x rest w :
  control w !! tid = None →
  runT ((tid, Call x) :: rest) w = runT rest (at_control w tid (AtCount x)).
Proof. intros Hidle. cbn [run step]. by rewrite Hidle. Qed.

Lemma world_eq w self mutex ctl cl r :
  object w = self → m_modelMutex w = mutex → control w = ctl →
  clones w = cl → history w = r → w = mkWorld self mutex ctl cl r.
Proof. destruct w. cbn. by intros -> -> -> -> ->. Qed.

Lemma run_alone_with_model w tid x model self' v :
  control w !! tid = None →
  m_workingModels (object w) !! tid = Some model →
  calc_objectiveT (object w) tid x = Ok (self', v) →
  ∃ r,
    runT (alone tid x true) w
    = Some (mkWorld self' (m_modelMutex w) (<[tid := Done x v]> (control w))
              (clones w) r).
Proof.
  intros Hidle Hpool Hcall. unfold calc_objective, acquire in Hcall.
  rewrite Hpool in Hcall. cbn [mbind Result_bind] in Hcall.
  destruct (applyParametersToModel _ x model) as [m1|e] eqn:Happly; [|done].
  cbn [mbind Result_bind] in Hcall.
  destruct (initSystem m1) as [m2|e] eqn:Hinit; [|done].
  cbn [mbind Result_bind] in Hcall.
  destruct (m_statesTraj (object w)) as [|front rest] eqn:Htraj; [done|].
  apply Ok_inj in Hcall. apply pair_equal_spec in Hcall as [<- <-].
  eexists. unfold alone. cbn [replicate]. rewrite (run_Call tid x _ w Hidle).
  (* line 186 *)
  erewrite run_Advance.
  2:{ unfold statement. cbn [control at_control object].
      rewrite lookup_insert_eq, Hpool. reflexivity. }
  (* lines 192-198 *)
  erewrite run_Advance.
  2:{ unfold statement. cbn [control at_control object set_history].
      rewrite lookup_insert_eq, Hpool.
      change (default default_Model (Some model)) with model.
      rewrite Happly. cbn [mbind Result_bind]. rewrite Hinit. reflexivity. }
  (* lines 209-236 *)
  erewrite run_Advance.
  2:{ unfold statement.
      cbn [control at_control at_control_with object set_workingModels
           m_workingModels m_statesTraj m_FySpline set_history].
      rewrite !lookup_insert_eq. cbn [mbind option_bind]. rewrite Htraj.
      reflexivity. }
  cbn [run]. f_equal. apply world_eq; cbn; try done.
  by rewrite ?insert_insert_eq, ?Htraj.
Qed.

Lemma run_alone_without_model w tid x self' v :
  control w !! tid = None →
  m_modelMutex w = None →
  m_workingModels (object w) !! tid = None →
  calc_objectiveT (object w) tid x = Ok (self', v) →
  ∃ r,
    runT (alone tid x false) w
    = Some (mkWorld self' None (<[tid := Done x v]> (control w))
              (tid :: clones w) r).
Proof.
  intros Hidle Hfree Hpool Hcall. unfold calc_objective, acquire in Hcall.
  rewrite Hpool in Hcall. cbn [mbind Result_bind] in Hcall.
  destruct (initSystem (m_model (object w))) as [m0|e] eqn:Hinit0; [|done].
  cbn [mbind Result_bind] in Hcall.
  destruct (applyParametersToModel _ x m0) as [m1|e] eqn:Happly; [|done].
  cbn [mbind Result_bind] in Hcall.
  destruct (initSystem m1) as [m2|e] eqn:Hinit; [|done].
  cbn [mbind Result_bind] in Hcall.
  destruct (m_statesTraj (object w)) as [|front rest] eqn:Htraj; [done|].
  apply Ok_inj in Hcall. apply pair_equal_spec in Hcall as [<- <-].
  eexists. unfold alone. cbn [replicate]. rewrite (run_Call tid x _ w Hidle).
  (* line 186 *)
  erewrite run_Advance.
  2:{ unfold statement. cbn [control at_control object].
      rewrite lookup_insert_eq, Hpool. reflexivity. }
  (* line 187 *)
  erewrite run_Advance.
  2:{ unfold statement. cbn [control at_control object m_modelMutex set_history].
      rewrite lookup_insert_eq, Hfree. reflexivity. }
  (* line 188 *)
  erewrite run_Advance.
  2:{ unfold statement. cbn [control at_control object m_modelMutex set_history].
      rewrite lookup_insert_eq. reflexivity. }
  (* line 189 *)
  erewrite run_Advance.
  2:{ unfold statement. cbn [control at_control object m_modelMutex set_history].
      rewrite lookup_insert_eq. reflexivity. }
  (* line 190 *)
  erewrite run_Advance.
  2:{ unfold statement.
      cbn [control at_control object m_modelMutex set_workingModels
           m_workingModels m_model set_history].
      rewrite !lookup_insert_eq.
      match goal with
      | |- context [default default_Model (Some ?m)] =>
          change (default default_Model (Some m)) with m
      end.
      rewrite Hinit0. reflexivity. }
  (* lines 192-198 *)
  erewrite run_Advance.
  2:{ unfold statement.
      cbn [control at_control at_control_with object m_modelMutex
           set_workingModels m_workingModels m_model m_numContacts set_history].
      rewrite !lookup_insert_eq.
      match goal with
      | |- context [default default_Model (Some ?m)] =>
          change (default default_Model (Some m)) with m
      end.
      rewrite Happly. cbn [mbind Result_bind]. rewrite Hinit. reflexivity. }
  (* lines 209-236 *)
  erewrite run_Advance.
  2:{ unfold statement.
      cbn [control at_control at_control_with object m_modelMutex
           set_workingModels m_workingModels m_model m_numContacts
           m_statesTraj m_FySpline set_history].
      rewrite !lookup_insert_eq. cbn [mbind option_bind].
      rewrite Htraj. reflexivity. }
  cbn [run]. f_equal. apply world_eq; cbn; try done.
  by rewrite ?insert_insert_eq, ?Htraj.
Qed.
End ThreadsAlone.

Section Threads.
Variable calcContactForce :
  Model → AckermannVanDenBogert2010Force → State → Vec3.
Variable getTotalMass : Model → State → double.
Variable gravityNorm : Model → double.

Local Abbreviation objective_specT :=
  (objective_spec calcContactForce getTotalMass gravityNorm).
Local Abbreviation calc_objectiveT :=
  (calc_objective calcContactForce getTotalMass gravityNorm).
Local Abbreviation advanceT :=
  (advance calcContactForce getTotalMass gravityNorm).
Local Abbreviation stepT := (step calcContactForce getTotalMass gravityNorm).
Local Abbreviation runT := (run calcContactForce getTotalMass gravityNorm).

(** X1: the statements of [calc_objective] compose to the function: a
    thread that is outside [calc_objective] while the mutex is free, and
    then runs through its statements without another thread in between
    (three statements when it has a working model, seven when it has
    none), ends with the object and the value that [calc_objective]
    returns, the mutex free again, and the other threads where they
    were. *)
Theorem calc_objective_statement_by_statement w tid x self' v :
  control w !! tid = None → m_modelMutex w = None →
  calc_objectiveT (object w) tid x = Ok (self', v) →
  ∃ w',
    runT (alone tid x
            (bool_decide (is_Some (m_workingModels (object w) !! tid)))) w
    = Some w'
    ∧ object w' = self'
    ∧ control w' = <[tid := Done x v]> (control w)
    ∧ m_modelMutex w' = None.
Proof.
  intros Hidle Hfree Hcall.
  destruct (m_workingModels (object w) !! tid) as [model|] eqn:Hpool.
  - rewrite bool_decide_eq_true_2 by by eexists.
    destruct (run_alone_with_model _ _ _ _ _ _ _ _ _ Hidle Hpool Hcall)
      as [r Hrun].
    eexists. split; [exact Hrun|]. by cbn.
  - rewrite bool_decide_eq_false_2 by by intros [??].
    destruct (run_alone_without_model _ _ _ _ _ _ _ _ Hidle Hfree Hpool
                Hcall) as [r Hrun].
    eexists. split; [exact Hrun|]. by cbn.
Qed.

(** X2: in a run without a data race on the container, whatever the
    schedule of the threads and of the synchronizations of the caller,
    line 188 copies [m_model] at most once for each thread, the pool has
    exactly one working model for each thread for which it did, a thread
    past line 188 has its working model, and a thread that is about to
    make the copy has none.  Such a run keeps every copy apart: a thread
    that made its copy since the last synchronization is the only one
    that accessed the container since. *)
Theorem threads_one_clone_each model statesTraj FySpline numContacts self0
    schedule w :
  construct model statesTraj FySpline numContacts = Ok self0 →
  run calcContactForce getTotalMass gravityNorm schedule (initial self0)
  = Some w →
  raced (history w) = false →
  NoDup (clones w)
  ∧ dom (m_workingModels (object w)) = list_to_set (clones w)
  ∧ size (m_workingModels (object w)) = length (clones w)
  ∧ (∀ tid c, control w !! tid = Some c →
       (past_insert c = true → is_Some (m_workingModels (object w) !! tid))
       ∧ ((∃ x, c = AtLock x ∨ c = AtInsert x) →
          m_workingModels (object w) !! tid = None))
  ∧ ∀ tid, tid ∈ inserted (history w) → accessed (history w) = {[tid]}.
Proof.
  intros Hnew Hrun Hquiet.
  pose proof (run_invariant _ _ _ _ _ _ _
                (invariant_initial _ _ _ _ _ _ _ _ Hnew) Hrun) as [].
  split; [done|]. split; [done|]. split; [|split].
  - by rewrite <- size_dom, inv_dom0, size_list_to_set.
  - intros tid c Hc. pose proof (inv_control0 tid c Hc) as Hok. split.
    + destruct c; try done; cbn in Hok; intros _; try tauto.
      destruct Hok as (m & -> & _). by eexists.
    + intros [x [-> | ->]]; cbn in Hok; tauto.
  - apply (run_history_ok _ _ _ _ _ _ Hrun Hquiet). intros t Ht.
    cbn in Ht. by apply elem_of_empty in Ht.
Qed.

(** X3: without a data race on the container, the value of an
    evaluation does not depend on the schedule: in two runs of the same
    session in which no such race occurred, whatever the threads and
    their interleaving, two finished evaluations of the same vector have
    the same value, which is the objective of [m_model] with the vector
    applied. *)
Theorem threads_value_independent_of_schedule model statesTraj FySpline
    numContacts self0 schedule1 schedule2 w1 w2 tid1 tid2 x v1 v2 :
  construct model statesTraj FySpline numContacts = Ok self0 →
  run calcContactForce getTotalMass gravityNorm schedule1 (initial self0)
  = Some w1 →
  run calcContactForce getTotalMass gravityNorm schedule2 (initial self0)
  = Some w2 →
  raced (history w1) = false → raced (history w2) = false →
  control w1 !! tid1 = Some (Done x v1) →
  control w2 !! tid2 = Some (Done x v2) →
  v1 = v2
  ∧ ∃ model' front rest,
      applyParametersToModel numContacts x model = Ok model'
      ∧ statesTraj = front :: rest
      ∧ v1 = objective_specT model' FySpline statesTraj front.
Proof.
  intros Hnew Hrun1 Hrun2 _ _ Hdone1 Hdone2.
  pose proof (invariant_initial calcContactForce getTotalMass gravityNorm
                _ _ _ _ _ Hnew) as Hinit.
  pose proof (run_invariant _ _ _ _ _ _ _ Hinit Hrun1) as [].
  destruct (inv_control0 _ _ Hdone1) as (_ & m1 & f1 & r1 & Ha1 & Ht1 & ->).
  pose proof (run_invariant _ _ _ _ _ _ _ Hinit Hrun2) as [].
  destruct (inv_control1 _ _ Hdone2) as (_ & m2 & f2 & r2 & Ha2 & Ht2 & ->).
  apply construct_Ok in Hnew as ->. cbn in *.
  split; [congruence|]. by exists m1, f1, r1.
Qed.

(** X4: the mutex does its work: whatever the schedule, at most one
    thread is between taking and releasing it, and that thread is its
    owner. *)
Theorem threads_mutual_exclusion model statesTraj FySpline numContacts self0
    schedule w tid1 tid2 c1 c2 :
  construct model statesTraj FySpline numContacts = Ok self0 →
  runT schedule (initial self0) = Some w →
  control w !! tid1 = Some c1 → in_critical_section c1 = true →
  control w !! tid2 = Some c2 → in_critical_section c2 = true →
  tid1 = tid2 ∧ m_modelMutex w = Some tid1.
Proof.
  intros Hnew Hrun Hc1 Hin1 Hc2 Hin2.
  pose proof (run_invariant _ _ _ _ _ _ _
                (invariant_initial _ _ _ _ _ _ _ _ Hnew) Hrun) as [].
  pose proof (inv_control0 _ _ Hc1) as Hok1.
  pose proof (inv_control0 _ _ Hc2) as Hok2.
  assert (H1 : m_modelMutex w = Some tid1)
    by (destruct c1; try done; by destruct Hok1).
  assert (H2 : m_modelMutex w = Some tid2)
    by (destruct c2; try done; by destruct Hok2).
  split; [congruence | done].
Qed.


(** X6: a step that makes no data race on the container leaves the
    working model and the place of every other thread as they are, and
    writes neither [m_model] nor the trajectory, the spline or the
    number of contacts. *)
Theorem threads_step_frame tid a w w' :
  step calcContactForce getTotalMass gravityNorm tid a w = Some w' →
  raced (history w') = false →
  m_model (object w') = m_model (object w)
  ∧ m_statesTraj (object w') = m_statesTraj (object w)
  ∧ m_FySpline (object w') = m_FySpline (object w)
  ∧ m_numContacts (object w') = m_numContacts (object w)
  ∧ ∀ tid', tid' ≠ tid →
      m_workingModels (object w') !! tid'
      = m_workingModels (object w) !! tid'
      ∧ control w' !! tid' = control w !! tid'.
Proof. intros Hstep _. by eapply step_frame. Qed.
End Threads.

(** *** The two threads of [twoThreads] *)

Lemma done_value_Some c x v :
  done_value c = Some (x, v) → c = Some (Done x v).
Proof. destruct c as [[]|]; try done. by intros [= -> ->]. Qed.

Lemma footSession_evaluates :
  succeeds (calc_objective law_calcContactForce law_getTotalMass
              law_gravityNorm (footSession zeroSignal) 1%positive x_half)
  = true.
Proof. vm_compute. reflexivity. Qed.

Lemma quietThreads_end :
  match
    run law_calcContactForce law_getTotalMass law_gravityNorm quietThreads
      (initial (footSession zeroSignal))
  with
  | Some w =>
      fst <$> done_value (control w !! 1%positive) = Some x_half
      ∧ fst <$> done_value (control w !! 2%positive) = Some x_half
      ∧ raced (history w) = false
  | None => False
  end.
Proof. vm_compute. repeat split; reflexivity. Qed.

Lemma alone_end :
  match
    run law_calcContactForce law_getTotalMass law_gravityNorm
      (alone 1%positive x_half false) (initial (footSession zeroSignal))
  with
  | Some w =>
      fst <$> done_value (control w !! 1%positive) = Some x_half
      ∧ raced (history w) = false
  | None => False
  end.
Proof. vm_compute. repeat split; reflexivity. Qed.

Lemma quietThreads_both_inside :
  match
    run law_calcContactForce law_getTotalMass law_gravityNorm
      (take 24 quietThreads) (initial (footSession zeroSignal))
  with
  | Some w =>
      match
        step law_calcContactForce law_getTotalMass law_gravityNorm
          1%positive Advance w
      with
      | Some w' =>
          raced (history w') = false
          ∧ control w !! 2%positive = Some (AtApply x_half)
          ∧ control w' !! 1%positive = Some (AtLoops x_half)
      | None => False
      end
  | None => False
  end.
Proof. vm_compute. repeat split; reflexivity. Qed.

Lemma twoThreads_locked :
  match
    run law_calcContactForce law_getTotalMass law_gravityNorm
      (take 5 twoThreads) (initial (footSession zeroSignal))
  with
  | Some w =>
      control w !! 1%positive = Some (AtInsert x_half)
      ∧ m_modelMutex w = Some 1%positive
      ∧ control w !! 2%positive
        = Some (AtLock (<[0%nat := of_Z 1]> x_half))
      ∧ bool_decide (2%positive ∈ accessed (history w)) = true
      ∧ bool_decide (inserted (history w) = ∅) = true
      ∧ raced (history w) = false
  | None => False
  end.
Proof. vm_compute. repeat split; reflexivity. Qed.

Lemma twoThreads_raced :
  match
    run law_calcContactForce law_getTotalMass law_gravityNorm
      (take 6 twoThreads) (initial (footSession zeroSignal))
  with
  | Some w => raced (history w) = true
  | None => False
  end.
Proof. vm_compute. reflexivity. Qed.

Lemma twoThreads_overlap :
  match
    run law_calcContactForce law_getTotalMass law_gravityNorm
      (take 8 twoThreads) (initial (footSession zeroSignal))
  with
  | Some w =>
      control w !! 1%positive = Some (AtInit x_half)
      ∧ control w !! 2%positive
        = Some (AtInsert (<[0%nat := of_Z 1]> x_half))
      ∧ m_modelMutex w = Some 2%positive
      ∧ pool_access w 1%positive = Some false
      ∧ pool_access w 2%positive = Some true
      ∧ from_option (λ _, true) false
          (statement law_calcContactForce law_getTotalMass law_gravityNorm
             1%positive w)
        = true
      ∧ from_option (λ _, true) false
          (statement law_calcContactForce law_getTotalMass law_gravityNorm
             2%positive w)
        = true
  | None => False
  end.
Proof. vm_compute. repeat split; reflexivity. Qed.

(** C4 (the code departs from the claim): the pool is not isolated from
    thread to thread when two threads make their first evaluation with
    nothing to keep them apart.  In the run [twoThreads], after five
    steps thread 1 holds the mutex and is about to insert its working
    model at line 188, and thread 2 has looked the container up at line
    186, without the mutex, and waits; the insertion of thread 1, the
    sixth step, is a data race with that lookup.  After eight steps
    thread 1 is at line 190, outside the mutex, about to look its
    working model up with [operator[]], while thread 2 holds the mutex
    and is about to insert at line 188: both statements can execute,
    so the lookup and the insertion can overlap. *)
Theorem pool_data_race :
  (∃ w,
     run law_calcContactForce law_getTotalMass law_gravityNorm
       (take 5 twoThreads) (initial (footSession zeroSignal)) = Some w
     ∧ control w !! 1%positive = Some (AtInsert x_half)
     ∧ m_modelMutex w = Some 1%positive
     ∧ control w !! 2%positive = Some (AtLock (<[0%nat := of_Z 1]> x_half))
     ∧ 2%positive ∈ accessed (history w)
     ∧ inserted (history w) = ∅
     ∧ raced (history w) = false)
  ∧ (∃ w,
       run law_calcContactForce law_getTotalMass law_gravityNorm
         (take 6 twoThreads) (initial (footSession zeroSignal)) = Some w
       ∧ raced (history w) = true)
  ∧ (∃ w,
       run law_calcContactForce law_getTotalMass law_gravityNorm
         (take 8 twoThreads) (initial (footSession zeroSignal)) = Some w
       ∧ control w !! 1%positive = Some (AtInit x_half)
       ∧ control w !! 2%positive
         = Some (AtInsert (<[0%nat := of_Z 1]> x_half))
       ∧ m_modelMutex w = Some 2%positive
       ∧ pool_access w 1%positive = Some false
       ∧ pool_access w 2%positive = Some true
       ∧ is_Some
           (statement law_calcContactForce law_getTotalMass law_gravityNorm
              1%positive w)
       ∧ is_Some
           (statement law_calcContactForce law_getTotalMass law_gravityNorm
              2%positive w)).
Proof.
  split; [|split].
  - pose proof twoThreads_locked as H.
    destruct (run _ _ _ (take 5 twoThreads) _) as [w|]; [|done].
    destruct H as (H1 & H2 & H3 & H4 & H5 & H6).
    exists w. repeat split; try done.
    + by apply bool_decide_eq_true in H4.
    + by apply bool_decide_eq_true in H5.
  - pose proof twoThreads_raced as H.
    destruct (run _ _ _ (take 6 twoThreads) _) as [w|]; [|done].
    by exists w.
  - pose proof twoThreads_overlap as H.
    destruct (run _ _ _ (take 8 twoThreads) _) as [w|]; [|done].
    destruct H as (H1 & H2 & H3 & H4 & H5 & H6 & H7).
    exists w. repeat split; try done.
    + by destruct (statement _ _ _ 1%positive w).
    + by destruct (statement _ _ _ 2%positive w).
Qed.

Lemma calc_objective_statement_by_statement_witness :
  ∃ self' v w',
    calc_objective law_calcContactForce law_getTotalMass law_gravityNorm
      (footSession zeroSignal) 1%positive x_half = Ok (self', v)
    ∧ run law_calcContactForce law_getTotalMass law_gravityNorm
        (alone 1%positive x_half false) (initial (footSession zeroSignal))
      = Some w'
    ∧ object w' = self'
    ∧ control w' !! 1%positive = Some (Done x_half v).
Proof.
  pose proof footSession_evaluates as Hok.
  destruct (calc_objective law_calcContactForce law_getTotalMass
              law_gravityNorm (footSession zeroSignal) 1%positive x_half)
    as [[self' v]|e] eqn:Hcall; [|discriminate Hok].
  destruct (calc_objective_statement_by_statement
              law_calcContactForce law_getTotalMass law_gravityNorm
              (initial (footSession zeroSignal)) 1%positive x_half self' v)
    as (w' & Hrun & Hobj & Hctl & _); [reflexivity | reflexivity | exact Hcall|].
  exists self', v, w'. split; [reflexivity|]. split; [exact Hrun|].
  split; [exact Hobj|]. rewrite Hctl. apply lookup_insert_eq.
Defined.

Lemma threads_one_clone_each_witness :
  ∃ w,
    run law_calcContactForce law_getTotalMass law_gravityNorm quietThreads
      (initial (footSession zeroSignal)) = Some w
    ∧ raced (history w) = false
    ∧ size (m_workingModels (object w)) = length (clones w).
Proof.
  pose proof quietThreads_end as Hend.
  destruct (run law_calcContactForce law_getTotalMass law_gravityNorm
              quietThreads (initial (footSession zeroSignal)))
    as [w|] eqn:Hrun; [|destruct Hend].
  destruct Hend as (_ & _ & Hquiet).
  exists w. split; [reflexivity|]. split; [exact Hquiet|].
  destruct (threads_one_clone_each _ _ _ _ _ _ _ _ _ _
              (footSession_constructed zeroSignal) Hrun Hquiet)
    as (_ & _ & Hsize & _).
  exact Hsize.
Defined.

Lemma threads_value_independent_of_schedule_witness :
  ∃ w1 w2 v1 v2,
    run law_calcContactForce law_getTotalMass law_gravityNorm quietThreads
      (initial (footSession zeroSignal)) = Some w1
    ∧ run law_calcContactForce law_getTotalMass law_gravityNorm
        (alone 1%positive x_half false) (initial (footSession zeroSignal))
      = Some w2
    ∧ raced (history w1) = false
    ∧ raced (history w2) = false
    ∧ control w1 !! 2%positive = Some (Done x_half v1)
    ∧ control w2 !! 1%positive = Some (Done x_half v2)
    ∧ v1 = v2.
Proof.
  pose proof quietThreads_end as Hend1.
  destruct (run law_calcContactForce law_getTotalMass law_gravityNorm
              quietThreads (initial (footSession zeroSignal)))
    as [w1|] eqn:Hrun1; [|destruct Hend1].
  pose proof alone_end as Hend2.
  destruct (run law_calcContactForce law_getTotalMass law_gravityNorm
              (alone 1%positive x_half false)
              (initial (footSession zeroSignal)))
    as [w2|] eqn:Hrun2; [|destruct Hend2].
  destruct Hend1 as (_ & H1 & Hquiet1). destruct Hend2 as (H2 & Hquiet2).
  destruct (done_value (control w1 !! 2%positive)) as [[x1 v1]|] eqn:Hd1;
    [|discriminate H1].
  destruct (done_value (control w2 !! 1%positive)) as [[x2 v2]|] eqn:Hd2;
    [|discriminate H2].
  cbn in H1, H2. injection H1 as ->. injection H2 as ->.
  apply done_value_Some in Hd1, Hd2.
  exists w1, w2, v1, v2. split; [reflexivity|]. split; [reflexivity|].
  split; [exact Hquiet1|]. split; [exact Hquiet2|].
  split; [exact Hd1|]. split; [exact Hd2|].
  exact (proj1 (threads_value_independent_of_schedule _ _ _ _ _ _ _ _
                  quietThreads (alone 1%positive x_half false) w1 w2
                  2%positive 1%positive x_half v1 v2
                  (footSession_constructed zeroSignal) Hrun1 Hrun2
                  Hquiet1 Hquiet2 Hd1 Hd2)).
Defined.

Lemma threads_mutual_exclusion_witness :
  ∃ w,
    run law_calcContactForce law_getTotalMass law_gravityNorm
      (take 5 twoThreads) (initial (footSession zeroSignal)) = Some w
    ∧ m_modelMutex w = Some 1%positive.
Proof.
  pose proof twoThreads_locked as Hlocked.
  destruct (run law_calcContactForce law_getTotalMass law_gravityNorm
              (take 5 twoThreads) (initial (footSession zeroSignal)))
    as [w|] eqn:Hrun; [|destruct Hlocked].
  destruct Hlocked as [Hc _]. exists w. split; [reflexivity|].
  exact (proj2 (threads_mutual_exclusion _ _ _ _ _ _ _ _ _ w
                  1%positive 1%positive _ _
                  (footSession_constructed zeroSignal) Hrun
                  Hc eq_refl Hc eq_refl)).
Defined.


Lemma threads_step_frame_witness :
  ∃ w w',
    run law_calcContactForce law_getTotalMass law_gravityNorm
      (take 24 quietThreads) (initial (footSession zeroSignal)) = Some w
    ∧ step law_calcContactForce law_getTotalMass law_gravityNorm
        1%positive Advance w = Some w'
    ∧ raced (history w') = false
    ∧ control w' !! 1%positive = Some (AtLoops x_half)
    ∧ control w' !! 2%positive = Some (AtApply x_half)
    ∧ m_workingModels (object w') !! 2%positive
      = m_workingModels (object w) !! 2%positive.
Proof.
  pose proof quietThreads_both_inside as Hin.
  destruct (run law_calcContactForce law_getTotalMass law_gravityNorm
              (take 24 quietThreads) (initial (footSession zeroSignal)))
    as [w|] eqn:Hrun; [|destruct Hin].
  destruct (step law_calcContactForce law_getTotalMass law_gravityNorm
              1%positive Advance w) as [w'|] eqn:Hstep; [|destruct Hin].
  destruct Hin as (Hquiet & Hc2 & Hc1).
  destruct (threads_step_frame law_calcContactForce law_getTotalMass
              law_gravityNorm 1%positive Advance w w' Hstep Hquiet)
    as (_ & _ & _ & _ & Hothers).
  destruct (Hothers 2%positive) as [Hpool Hctl]; [discriminate|].
  exists w, w'. split; [reflexivity|]. split; [exact Hstep|].
  split; [exact Hquiet|]. split; [exact Hc1|].
  split; [exact (eq_trans Hctl Hc2) | exact Hpool].
Defined.

(** ** The report, [printContactComparison] *)

Section Report.
Variable calcContactForce :
  Model → AckermannVanDenBogert2010Force → State → Vec3.
Variable getTotalMass : Model → State → double.
Variable gravityNorm : Model → double.

Local Abbreviation simulatedVerticalForceT :=
  (simulatedVerticalForce calcContactForce).
Local Abbreviation objective_specT :=
  (objective_spec calcContactForce getTotalMass gravityNorm).
Local Abbreviation calc_objectiveT :=
  (calc_objective calcContactForce getTotalMass gravityNorm).
Local Abbreviation printContactComparisonT :=
  (printContactComparison calcContactForce).
Local Abbreviation evaluationsT :=
  (evaluations calcContactForce getTotalMass gravityNorm).

Lemma printContactComparison_run self x model :
  applyParametersToModel (m_numContacts self) x (m_model self) = Ok model →
  initSystem model = Ok model →
  ∃ table, printContactComparisonT self x = Ok (set_model self model, table).
Proof.
  intros Happly Hinit. unfold printContactComparison.
  rewrite Happly. cbn [mbind Result_bind]. rewrite Hinit.
  cbn [mbind Result_bind]. by eexists.
Qed.

Lemma printContactComparison_initSystem self x self' table :
  printContactComparisonT self x = Ok (self', table) →
  initSystem (m_model self') = Ok (m_model self').
Proof.
  unfold printContactComparison.
  intros (model & Happly & (model_ & Hinit & Hrest)%bind_Ok)%bind_Ok.
  apply initSystem_Ok in Hinit as Heq. subst model_.
  apply Ok_inj in Hrest. apply (f_equal fst) in Hrest. cbn in Hrest.
  by subst self'.
Qed.

(** X7: the report has one row for each state of the trajectory, in the
    order of the trajectory: the time of the state, the summed vertical
    force of the contact elements of [m_model] with the parameters
    applied, and the experimental force at that time. *)
Theorem printContactComparison_rows self x self' table :
  printContactComparisonT self x = Ok (self', table) →
  length table = length (m_statesTraj self)
  ∧ table.*1 = time <$> m_statesTraj self
  ∧ ∀ (i : nat) s, m_statesTraj self !! i = Some s →
      table !! i
      = Some (time s,
              (simulatedVerticalForceT (m_model self')
                 (realizeVelocity (m_model self') s),
               calcValue (m_FySpline self) (time s))).
Proof.
  intros (model & _ & -> & ->)%printContactComparison_Ok. cbn [m_model set_model].
  split; [by rewrite length_fmap|]. split.
  - rewrite <- list_fmap_compose. by apply list_fmap_ext.
  - intros i s Hs. unfold TimeSeriesTable.
    by rewrite list_lookup_fmap, Hs.
Qed.

(** X8: the report and the objective agree: in a session started by the
    constructor, after any evaluations, the value of [calc_objective] at
    [x] is the sum of the squared differences of the two columns of the
    report for [x], divided by the weight of the reported model times
    the number of rows. *)
Theorem printContactComparison_agrees_with_objective model statesTraj
    FySpline numContacts self0 calls self vals x self' table tid self'' v :
  construct model statesTraj FySpline numContacts = Ok self0 →
  evaluationsT self0 calls = Ok (self, vals) →
  printContactComparisonT self x = Ok (self', table) →
  calc_objectiveT self tid x = Ok (self'', v) →
  ∃ front rest,
    statesTraj = front :: rest
    ∧ v = ddiv (dsum (rowResidual <$> table))
            (dmul (dmul (getTotalMass (m_model self') front)
                        (gravityNorm (m_model self')))
                  (of_Z (Z.of_nat (length table)))).
Proof.
  intros Hnew Hevals Hprint Hcall.
  destruct (evaluations_spec _ _ _ _ _ _ _
              (consistent_construct _ _ _ _ _ Hnew) Hevals)
    as (Hcons & _ & Htraj & _ & _ & _ & _).
  apply construct_Ok in Hnew as ->. cbn in Htraj.
  destruct (calc_objective_value _ _ _ _ _ _ _ _ Hcons Hcall)
    as (m & front & rest & Happly & Hfront & ->).
  apply printContactComparison_Ok in Hprint as (m' & Happly' & -> & ->).
  rewrite Happly in Happly'. apply Ok_inj in Happly' as <-.
  exists front, rest. split; [congruence|].
  cbn [m_model set_model]. unfold objective_spec, totalWeight.
  rewrite length_fmap, <- list_fmap_compose. reflexivity.
Qed.

(** X9: the report does not disturb the objective: after
    [printContactComparison], with any parameters, an evaluation returns
    the value it would have returned before, and leaves the same pool. *)
Theorem printContactComparison_keeps_objective self x self' table tid y s1 v :
  printContactComparison calcContactForce self x = Ok (self', table) →
  calc_objective calcContactForce getTotalMass gravityNorm self tid y
  = Ok (s1, v) →
  ∃ s1',
    calc_objective calcContactForce getTotalMass gravityNorm self' tid y
    = Ok (s1', v)
    ∧ m_workingModels s1' = m_workingModels s1.
Proof.
  intros Hprint Hcall.
  pose proof (printContactComparison_initSystem _ _ _ _ Hprint) as Hinit'.
  apply printContactComparison_Ok in Hprint as (m' & Happly' & -> & _).
  apply calc_objective_Ok in Hcall
    as (m & front & rest & Happly & Hinit & Htraj & -> & ->).
  eexists. split.
  - rewrite (calc_objective_run _ _ _ (set_model self m') tid y m front rest);
      try done.
    unfold workingModel in *. cbn [m_workingModels set_model m_numContacts m_model].
    destruct (m_workingModels self !! tid) as [w|]; cbn in *; [done|].
    by rewrite (applyParametersToModel_absorb _ _ _ _ _ Happly').
  - done.
Qed.

(** X10: a second report with the same parameters returns the same table
    and leaves the object as the first one left it. *)
Theorem printContactComparison_twice self x self' table :
  printContactComparison calcContactForce self x = Ok (self', table) →
  printContactComparison calcContactForce self' x = Ok (self', table).
Proof.
  intros Hprint.
  pose proof (printContactComparison_initSystem _ _ _ _ Hprint) as Hinit'.
  apply printContactComparison_Ok in Hprint as (m' & Happly' & -> & ->).
  unfold printContactComparison. cbn [m_numContacts m_model set_model].
  rewrite (applyParametersToModel_idem _ _ _ _ Happly').
  cbn [mbind Result_bind]. cbn in Hinit'. rewrite Hinit'.
  cbn [mbind Result_bind]. rewrite reportLoop_spec. reflexivity.
Qed.
End Report.

Lemma session_then_report :
  match
    evaluations law_calcContactForce law_getTotalMass law_gravityNorm
      (footSession zeroSignal) sessionCalls
  with
  | Ok (self, _) =>
      succeeds (printContactComparison law_calcContactForce self x_half)
      && succeeds (calc_objective law_calcContactForce law_getTotalMass
                     law_gravityNorm self 1%positive x_half)
  | Err _ => false
  end = true.
Proof. vm_compute. reflexivity. Qed.

Lemma printContactComparison_rows_witness :
  ∃ self' table,
    printContactComparison law_calcContactForce (footSession zeroSignal)
      x_half = Ok (self', table)
    ∧ length table = length trajectory100.
Proof.
  pose proof report_succeeds as Hok.
  destruct (printContactComparison law_calcContactForce
              (footSession zeroSignal) x_half)
    as [[self' table]|e] eqn:Hp; [|discriminate Hok].
  exists self', table. split; [reflexivity|].
  exact (proj1 (printContactComparison_rows _ _ _ _ _ Hp)).
Defined.

Lemma printContactComparison_agrees_with_objective_witness :
  ∃ self self' table self'' v,
    printContactComparison law_calcContactForce self x_half
    = Ok (self', table)
    ∧ calc_objective law_calcContactForce law_getTotalMass law_gravityNorm
        self 1%positive x_half = Ok (self'', v)
    ∧ ∃ front rest,
        trajectory100 = front :: rest
        ∧ v = ddiv (dsum (rowResidual <$> table))
                (dmul (dmul (law_getTotalMass (m_model self') front)
                            (law_gravityNorm (m_model self')))
                      (of_Z (Z.of_nat (length table)))).
Proof.
  pose proof session_then_report as Hok.
  destruct (evaluations law_calcContactForce law_getTotalMass law_gravityNorm
              (footSession zeroSignal) sessionCalls)
    as [[self vals]|e] eqn:He; [|discriminate Hok].
  apply andb_prop in Hok as [Hok1 Hok2].
  destruct (printContactComparison law_calcContactForce self x_half)
    as [[self' table]|e] eqn:Hp; [|discriminate Hok1].
  destruct (calc_objective law_calcContactForce law_getTotalMass
              law_gravityNorm self 1%positive x_half)
    as [[self'' v]|e] eqn:Hc; [|discriminate Hok2].
  exists self, self', table, self'', v.
  split; [exact Hp|]. split; [exact Hc|].
  exact (printContactComparison_agrees_with_objective _ _ _ _ _ _ _ _ _ _ _
           _ _ _ _ _ _ (footSession_constructed zeroSignal) He Hp Hc).
Defined.

Lemma printContactComparison_keeps_objective_witness :
  ∃ self' table s1 v s1',
    printContactComparison law_calcContactForce (footSession zeroSignal)
      x_half = Ok (self', table)
    ∧ calc_objective law_calcContactForce law_getTotalMass law_gravityNorm
        (footSession zeroSignal) 1%positive x_half = Ok (s1, v)
    ∧ calc_objective law_calcContactForce law_getTotalMass law_gravityNorm
        self' 1%positive x_half = Ok (s1', v).
Proof.
  pose proof report_succeeds as Hok.
  destruct (printContactComparison law_calcContactForce
              (footSession zeroSignal) x_half)
    as [[self' table]|e] eqn:Hp; [|discriminate Hok].
  pose proof footSession_evaluates as Hok'.
  destruct (calc_objective law_calcContactForce law_getTotalMass
              law_gravityNorm (footSession zeroSignal) 1%positive x_half)
    as [[s1 v]|e] eqn:Hc; [|discriminate Hok'].
  destruct (printContactComparison_keeps_objective _ _ _ _ _ _ _ _ _ _ _
              Hp Hc) as (s1' & Hc' & _).
  exists self', table, s1, v, s1'.
  split; [reflexivity|]. split; [reflexivity|]. exact Hc'.
Defined.

Lemma printContactComparison_twice_witness :
  ∃ self' table,
    printContactComparison law_calcContactForce (footSession zeroSignal)
      x_half = Ok (self', table)
    ∧ printContactComparison law_calcContactForce self' x_half
      = Ok (self', table).
Proof.
  pose proof report_succeeds as Hok.
  destruct (printContactComparison law_calcContactForce
              (footSession zeroSignal) x_half)
    as [[self' table]|e] eqn:Hp; [|discriminate Hok].
  exists self', table. split; [reflexivity|].
  exact (printContactComparison_twice _ _ _ _ _ Hp).
Defined.

(** ** The bouncing ball *)

Lemma dsub_diag_finite (f : double) : is_finite f = true → dsub f f = dzero.
Proof.
  destruct f as [[]|[]| |s m e]; try done. intros _.
  unfold dsub, SFsub. by rewrite Z.sub_diag.
Qed.

Lemma ballLoop_nonneg stiffness yTraj contactForceTraj it obj_value v :
  nonneg_or_nan obj_value →
  ballLoop stiffness yTraj contactForceTraj it obj_value = Ok v →
  nonneg_or_nan v.
Proof.
  revert it obj_value. induction yTraj as [|y rest IH]; intros it obj Hobj.
  - by intros [= <-].
  - cbn [ballLoop]. intros (f & _ & Hrest)%bind_Ok.
    apply (IH _ _ (dadd_nonneg _ _ Hobj (pow2_nonneg _)) Hrest).
Qed.

Lemma ballLoop_true_stiffness stiffness ys done_ys it :
  Forall (λ y, is_finite (contact_force stiffness y) = true) ys →
  it = Z.of_nat (length done_ys) →
  ballLoop stiffness ys (contact_force stiffness <$> (done_ys ++ ys)) it dzero
  = Ok dzero.
Proof.
  intros Hfin. revert done_ys it.
  induction Hfin as [|y ys Hy _ IH]; intros done_ys it ->; [done|].
  cbn [ballLoop].
  assert (Hat : vec_at (contact_force stiffness <$> (done_ys ++ y :: ys))
                  (Z.of_nat (length done_ys))
                = Ok (contact_force stiffness y)).
  { apply vec_at_Ok. split; [lia|].
    rewrite Nat2Z.id, list_lookup_fmap, lookup_app_r by done.
    by rewrite Nat.sub_diag. }
  rewrite Hat. cbn [mbind Result_bind].
  rewrite (dsub_diag_finite _ Hy).
  change (dadd dzero (pow2 dzero)) with dzero.
  rewrite (cons_middle y done_ys ys), app_assoc.
  apply IH. rewrite length_app. cbn. lia.
Qed.

(** X11: the objective of the ball calibration vanishes at the truth:
    when the force trajectory was computed from the heights with some
    stiffness, as [calibrateBall] does with the stiffness of the ball, and
    these forces are finite, then [calc_objective] at that stiffness is
    exactly +0. *)
Theorem ball_calc_objective_zero_at_truth stiffness states0 :
  Forall (λ y, is_finite (contact_force stiffness y) = true) states0 →
  ball_calc_objective
    (mkBallCalibration states0 (contact_force stiffness <$> states0))
    [stiffness]
  = Ok dzero.
Proof.
  intros Hfin. unfold ball_calc_objective.
  change (vec_at [stiffness] 0) with (Ok stiffness).
  cbn [mbind Result_bind m_yTraj m_contactForceTraj].
  by apply (ballLoop_true_stiffness stiffness states0 []).
Qed.

Lemma ball_calc_objective_zero_at_truth_witness :
  ball_calc_objective (calibrateBall_problem ballHeights) [ball_stiffness]
  = Ok dzero.
Proof.
  apply (ball_calc_objective_zero_at_truth ball_stiffness ballHeights).
  repeat constructor.
Defined.

(** X12: the objective of the ball calibration is never negative: a
    value it returns is not a number or is not less than zero. *)
Theorem ball_calc_objective_nonneg self x v :
  ball_calc_objective self x = Ok v →
  is_nan v = true ∨ dle dzero v = true.
Proof.
  unfold ball_calc_objective. intros (k & _ & Hloop)%bind_Ok.
  apply ballLoop_nonneg in Hloop; [|done].
  destruct v as [[]|[]| |[] m e]; cbn in Hloop; try done; auto.
Qed.

Lemma ball_calc_objective_nonneg_witness :
  ∃ v, ball_calc_objective (calibrateBall_problem ballHeights) [of_Z 3000]
       = Ok v
       ∧ dle dzero v = true.
Proof.
  destruct (ball_calc_objective (calibrateBall_problem ballHeights)
              [of_Z 3000]) as [v|e] eqn:Hv; [|vm_compute in Hv; discriminate Hv].
  exists v. split; [reflexivity|].
  destruct (ball_calc_objective_nonneg _ _ _ Hv) as [Hnan|Hle]; [|exact Hle].
  vm_compute in Hv. apply Ok_inj in Hv. subst v. discriminate Hnan.
Defined.

Lemma ballLoop_succeeds stiffness ys fs it obj_value :
  0 ≤ it →
  succeeds (ballLoop stiffness ys fs it obj_value)
  = bool_decide (ys = [] ∨ it + Z.of_nat (length ys) ≤ Z.of_nat (length fs)).
Proof.
  revert it obj_value. induction ys as [|y ys IH]; intros it obj Hit.
  - symmetry. apply bool_decide_eq_true_2. by left.
  - cbn [ballLoop]. unfold vec_at. destruct (decide (it < 0)); [lia|].
    destruct (fs !! Z.to_nat it) as [f|] eqn:Hf; cbn [mbind Result_bind].
    + rewrite IH by lia. apply bool_decide_ext.
      apply lookup_lt_Some in Hf. cbn [length]. split.
      * intros [->|?]; right; cbn; lia.
      * intros [?|?]; [done|]. destruct ys; [by left|right]. cbn in *. lia.
    + symmetry. apply bool_decide_eq_false_2. apply lookup_ge_None in Hf.
      intros [?|?]; [done|]. cbn in *. lia.
Qed.

Lemma ballLoop_take stiffness ys fs it obj_value (n : nat) :
  0 ≤ it → (Z.to_nat it + length ys ≤ n)%nat →
  ballLoop stiffness ys (take n fs) it obj_value
  = ballLoop stiffness ys fs it obj_value.
Proof.
  revert it obj_value. induction ys as [|y ys IH]; intros it obj Hit Hn.
  - done.
  - cbn [ballLoop]. cbn [length] in Hn.
    assert (Hat : vec_at (take n fs) it = vec_at fs it).
    { unfold vec_at. destruct (decide (it < 0)); [done|].
      by rewrite lookup_take_lt by lia. }
    rewrite Hat. destruct (vec_at fs it) as [f|e]; [|done].
    cbn [mbind Result_bind]. apply IH; lia.
Qed.

(** X13: [BallCalibration::calc_objective] reads the first component of
    the parameter vector and, for every height, the force of the same
    index: it returns a value exactly when the parameter vector is not
    empty and no height lacks its force, and it ignores the forces beyond
    the number of heights. *)
Theorem ball_calc_objective_lengths self x :
  (succeeds (ball_calc_objective self x) = true ↔
   x ≠ [] ∧ (length (m_yTraj self) ≤ length (m_contactForceTraj self))%nat)
  ∧ ball_calc_objective
      (mkBallCalibration (m_yTraj self)
         (take (length (m_yTraj self)) (m_contactForceTraj self))) x
    = ball_calc_objective self x.
Proof.
  split.
  - unfold ball_calc_objective. destruct x as [|k x].
    + cbn. split; [done | by intros [? _]].
    + change (vec_at (k :: x) 0) with (Ok k). cbn [mbind Result_bind].
      rewrite ballLoop_succeeds by done. rewrite bool_decide_eq_true.
      split.
      * intros [Hnil|Hlen]; (split; [done|]); [rewrite Hnil; cbn|]; lia.
      * intros [_ Hlen]. right. lia.
  - unfold ball_calc_objective. destruct (vec_at x 0) as [k|e]; [|done].
    cbn [mbind Result_bind m_yTraj m_contactForceTraj].
    apply ballLoop_take; [done | cbn; lia].
Qed.

Lemma contact_force_out_of_ground (stiffness y : double) :
  is_finite stiffness = true → well_formed y = true →
  dle dzero y = true →
  contact_force stiffness y = dsub dzero y.
Proof.
  intros Hfin Hwf Hle. destruct y as [sy|sy| |sy my ey]; try done.
  - destruct stiffness as [sk|sk| |sk mk ek]; try done; by destruct sy, sk.
  - destruct sy; [done|].
    destruct stiffness as [sk|sk| |sk mk ek]; try done; by destruct sk.
  - destruct sy; [done|]. rewrite contact_force_unfold.
    change (dsub dzero (S754_finite false my ey))
      with (S754_finite true my ey).
    rewrite (dmul_one_l_finite true my ey) by done.
    destruct stiffness as [sk|sk| |sk mk ek]; try done; by destruct sk.
Qed.

(** X14: a ball at or above the ground (a height that is not negative)
    feels gravity and the fictitious spring only: the derivative of the
    height is the velocity, the derivative of the velocity is
    [-g + (0 - y) / mass], in which the stiffness of the ground does not
    appear; at the ground itself it is exactly [-g]. *)
Theorem ball_dynamics_out_of_ground (y vy : double) :
  well_formed y = true → dle dzero y = true →
  calc_differential_algebraic_equations y vy
  = (vy, dadd (SFopp ball_g) (ddiv (dsub dzero y) ball_mass))
  ∧ (is_finite y = true → dle y dzero = true →
     calc_differential_algebraic_equations y vy = (vy, SFopp ball_g)).
Proof.
  intros Hwf Hle. unfold calc_differential_algebraic_equations.
  rewrite (contact_force_out_of_ground ball_stiffness y) by done.
  split; [done|]. intros Hfin Hzero.
  destruct y as [[]| | |[] my ey]; try done.
Qed.

Lemma ball_dynamics_out_of_ground_witness :
  calc_differential_algebraic_equations (of_Z 1) (of_Z 0)
  = (of_Z 0, dadd (SFopp ball_g) (ddiv (of_Z (-1)) ball_mass)).
Proof.
  apply (ball_dynamics_out_of_ground (of_Z 1) (of_Z 0)); reflexivity.
Defined.

Lemma ball_calc_objective_lengths_witness :
  succeeds (ball_calc_objective (calibrateBall_problem ballHeights)
              [of_Z 3000]) = true.
Proof.
  apply (ball_calc_objective_lengths (calibrateBall_problem ballHeights)
           [of_Z 3000]).
  split; [discriminate | cbn; lia].
Defined.

(** * Part V: [applyParametersToModel] outside its intended inputs *)

Lemma vec_at_Err (x : VectorXd) (i : Z) :
  i < 0 ∨ Z.of_nat (length x) ≤ i → vec_at x i = Err (IndexOutOfRange i).
Proof.
  intros Hi. unfold vec_at. destruct (decide (i < 0)); [done|].
  rewrite lookup_ge_None_2; [done | lia].
Qed.

Lemma seqZ_split (k n : Z) :
  0 ≤ k < n → seqZ 0 n = seqZ 0 k ++ k :: seqZ (k + 1) (n - k - 1).
Proof.
  intros Hk. replace n with (k + (n - k)) at 1 by lia.
  rewrite seqZ_app by lia. f_equal. rewrite seqZ_cons by lia.
  rewrite Z.add_0_l. reflexivity.
Qed.

(** The prefix of a marker loop that finds its entries and its markers
    runs through, and leaves the later markers as they are. *)
Lemma markerLoop_prefix_step (x : VectorXd) i L1 (model : Model) mk xi :
  (∀ j, j ∈ i :: L1 → 0 ≤ j < Z.of_nat (length x)
                      ∧ is_Some (markers model !! marker_name j)) →
  markers model !! marker_name i = Some mk →
  ∀ j, j ∈ L1 →
    0 ≤ j < Z.of_nat (length x)
    ∧ is_Some
        (markers
           (set_markers model
              (<[marker_name i := upd_location1 mk (markerHeight xi)]>
                 (markers model))) !! marker_name j).
Proof.
  intros HL Hmk j Hj. destruct (HL j) as [? ?]; [by right|]. split; [done|].
  cbn. rewrite lookup_insert. case_decide; [by eexists | done].
Qed.

Lemma markerLoop_missing (x : VectorXd) L1 k L2 (model : Model) :
  (∀ i, i ∈ L1 → 0 ≤ i < Z.of_nat (length x)
                 ∧ is_Some (markers model !! marker_name i)) →
  0 ≤ k < Z.of_nat (length x) →
  markers model !! marker_name k = None →
  markerLoop x (L1 ++ k :: L2) model
  = Err (ComponentNotFound (marker_name k)).
Proof.
  revert model. induction L1 as [|i L1 IH]; intros model HL Hk Hnone.
  - destruct (vec_at_in_range x k Hk) as [v Hv].
    cbn [app markerLoop]. rewrite Hv. cbn.
    unfold applyMarkerHeight. by rewrite Hnone.
  - destruct (HL i) as [Hi [mk Hmk]]; [by left|].
    destruct (vec_at_in_range x i Hi) as [xi Hxi].
    cbn [app markerLoop]. rewrite Hxi. cbn.
    unfold applyMarkerHeight at 1. rewrite Hmk. cbn.
    apply IH.
    + by apply markerLoop_prefix_step.
    + done.
    + cbn. rewrite lookup_insert_ne; [done|].
      intros Heq. rewrite Heq in Hmk. congruence.
Qed.

Lemma markerLoop_short (x : VectorXd) L1 k L2 (model : Model) :
  (∀ i, i ∈ L1 → 0 ≤ i < Z.of_nat (length x)
                 ∧ is_Some (markers model !! marker_name i)) →
  k < 0 ∨ Z.of_nat (length x) ≤ k →
  markerLoop x (L1 ++ k :: L2) model = Err (IndexOutOfRange k).
Proof.
  revert model. induction L1 as [|i L1 IH]; intros model HL Hk.
  - cbn [app markerLoop]. by rewrite (vec_at_Err x k Hk).
  - destruct (HL i) as [Hi [mk Hmk]]; [by left|].
    destruct (vec_at_in_range x i Hi) as [xi Hxi].
    cbn [app markerLoop]. rewrite Hxi. cbn.
    unfold applyMarkerHeight at 1. rewrite Hmk. cbn.
    apply IH; [|done]. by apply markerLoop_prefix_step.
Qed.

Lemma stiffnessLoop_short (x : VectorXd) n i cs :
  0 ≤ i + n ≤ Z.of_nat (length x) →
  Z.of_nat (length x) < i + n + Z.of_nat (length cs) →
  stiffnessLoop x n i cs = Err (IndexOutOfRange (Z.of_nat (length x))).
Proof.
  revert i. induction cs as [|c cs IH]; intros i Hlo Hhi.
  - cbn [length] in Hhi. lia.
  - cbn [length] in Hhi. cbn [stiffnessLoop].
    destruct (decide (i + n = Z.of_nat (length x))) as [Heq|Hne].
    + rewrite (vec_at_Err x (i + n)) by lia. by rewrite Heq.
    + destruct (vec_at_in_range x (i + n)) as [xi Hxi]; [lia|].
      rewrite Hxi. cbn. rewrite IH by lia. done.
Qed.

Lemma markerLoop_surplus (x extra : VectorXd) L (model model' : Model) :
  markerLoop x L model = Ok model' →
  markerLoop (x ++ extra) L model = Ok model'.
Proof.
  revert model. induction L as [|i L IH]; intros model; [done|].
  intros (xi & mk & Hi & Hxi & Hmk & Hrest)%markerLoop_cons.
  apply markerLoop_cons. exists xi, mk.
  split; [done|]. split; [by apply lookup_app_l_Some|].
  split; [done|]. by apply IH.
Qed.

Lemma stiffnessLoop_surplus (x extra : VectorXd) n i cs cs' :
  stiffnessLoop x n i cs = Ok cs' →
  stiffnessLoop (x ++ extra) n i cs = Ok cs'.
Proof.
  revert i cs'. induction cs as [|c cs IH]; intros i cs'; [done|].
  intros (xi & rest' & Hi & Hxi & Hrest & ->)%stiffnessLoop_cons.
  apply stiffnessLoop_cons. exists xi, rest'.
  split; [done|]. split; [by apply lookup_app_l_Some|].
  split; [by apply IH | done].
Qed.

(** X15: when the model lacks one of the markers [marker0 ..
    marker(numContacts-1)], [applyParametersToModel] throws at the first
    missing one (the exception of [updComponent<Marker>]), provided the
    vector reaches that index: no model is returned, whatever the later
    markers and the contact elements are. *)
Theorem applyParametersToModel_missing_marker n (x : VectorXd)
    (model : Model) (k : Z) :
  0 ≤ k < n → k < Z.of_nat (length x) →
  (∀ i, 0 ≤ i < k → is_Some (markers model !! marker_name i)) →
  markers model !! marker_name k = None →
  applyParametersToModel n x model
  = Err (ComponentNotFound (marker_name k)).
Proof.
  intros Hk Hx Hbefore Hnone. unfold applyParametersToModel.
  rewrite (seqZ_split k n Hk).
  rewrite (markerLoop_missing x (seqZ 0 k) k _ model); [done| |lia|done].
  intros i Hi%elem_of_seqZ. split; [lia|]. apply Hbefore. lia.
Qed.

Lemma applyParametersToModel_missing_marker_witness :
  applyParametersToModel 6 x_half (mkModel ∅ [])
  = Err (ComponentNotFound "marker0").
Proof.
  apply (applyParametersToModel_missing_marker 6 x_half (mkModel ∅ []) 0).
  - lia.
  - cbn. lia.
  - intros i Hi. lia.
  - reflexivity.
Defined.

(** X16: the length of the vector is never compared with the number of
    markers and contact elements.  On a model that has the markers, a
    vector shorter than [numContacts] plus the number of contact elements
    of the model makes [applyParametersToModel] read past its end, at the
    index equal to its length.  This includes a vector of the declared
    length [2 * numContacts] on a model with more than [numContacts]
    contact elements: the stiffness loop runs over all of them. *)
Theorem applyParametersToModel_short_vector n (x : VectorXd)
    (model : Model) :
  0 ≤ n →
  (∀ i, 0 ≤ i < n → is_Some (markers model !! marker_name i)) →
  Z.of_nat (length x) < n + Z.of_nat (length (contacts model)) →
  applyParametersToModel n x model
  = Err (IndexOutOfRange (Z.of_nat (length x))).
Proof.
  intros Hn Hmk Hlen. unfold applyParametersToModel.
  destruct (decide (Z.of_nat (length x) < n)) as [Hshort|Hlong].
  - rewrite (seqZ_split (Z.of_nat (length x)) n) by lia.
    rewrite (markerLoop_short x (seqZ 0 (Z.of_nat (length x)))); [done| |lia].
    intros i Hi%elem_of_seqZ. split; [lia|]. apply Hmk. lia.
  - destruct (markerLoop_total x (seqZ 0 n) model) as [model1 Hm].
    { intros i Hi%elem_of_seqZ. split; [lia|]. apply Hmk. lia. }
    rewrite Hm. cbn.
    rewrite stiffnessLoop_short; [done|lia|].
    rewrite (markerLoop_contacts _ _ _ _ Hm). lia.
Qed.

Lemma footModel_markers (i : Z) :
  0 ≤ i < 6 → is_Some (markers footModel !! marker_name i).
Proof.
  intros Hi.
  assert (Hready : model_ready 6 footModel = true)
    by (vm_compute; reflexivity).
  apply model_ready_spec in Hready as [Hmk _]. by apply Hmk.
Qed.

Lemma footModel_contacts : length (contacts footModel) = 6%nat.
Proof. vm_compute. reflexivity. Qed.

Lemma applyParametersToModel_short_vector_witness :
  applyParametersToModel 6 (replicate 11 (of_decimal 1 2)) footModel
  = Err (IndexOutOfRange 11).
Proof.
  apply (applyParametersToModel_short_vector 6
           (replicate 11 (of_decimal 1 2)) footModel).
  - lia.
  - exact footModel_markers.
  - rewrite footModel_contacts. cbn. lia.
Defined.

(** X17: entries of the vector beyond those the model asks for are never
    read: when [applyParametersToModel] succeeds on [x], it gives the
    same model on [x] followed by anything. *)
Theorem applyParametersToModel_surplus n (x extra : VectorXd)
    (model model' : Model) :
  applyParametersToModel n x model = Ok model' →
  applyParametersToModel n (x ++ extra) model = Ok model'.
Proof.
  intros (model1 & cs & Hm & Hs & ->)%applyParametersToModel_Ok.
  apply applyParametersToModel_Ok. exists model1, cs.
  split; [by apply markerLoop_surplus|].
  split; [by apply stiffnessLoop_surplus | done].
Qed.

Lemma x_half_applies :
  succeeds (applyParametersToModel 6 x_half footModel) = true.
Proof. vm_compute. reflexivity. Qed.

Lemma applyParametersToModel_surplus_witness :
  applyParametersToModel 6 (x_half ++ [S754_nan]) footModel
  = applyParametersToModel 6 x_half footModel.
Proof.
  pose proof x_half_applies as Hok.
  destruct (applyParametersToModel 6 x_half footModel) as [model'|e] eqn:Hx;
    [|discriminate Hok].
  exact (applyParametersToModel_surplus 6 x_half [S754_nan] footModel
           model' Hx).
Defined.

(** X18: [applyParametersToModel] touches no marker but [marker0 ..
    marker(numContacts-1)]: every other marker of the model is in the
    result as it was, and no marker appears. *)
Theorem applyParametersToModel_other_markers n (x : VectorXd)
    (model model' : Model) (k : string) :
  applyParametersToModel n x model = Ok model' →
  (∀ i, 0 ≤ i < n → k ≠ marker_name i) →
  markers model' !! k = markers model !! k.
Proof.
  intros (model1 & cs & Hm & Hs & ->)%applyParametersToModel_Ok Hk.
  cbn. apply (markerLoop_other _ _ _ _ _ Hm).
  unfold marker_names. rewrite elem_of_list_to_set, list_elem_of_fmap.
  intros (i & -> & Hi%elem_of_seqZ). by apply (Hk i); [lia|].
Qed.

Lemma x_half_applies_with_heel :
  succeeds (applyParametersToModel 6 x_half
              (addMarker footModel "R.Heel.Distal" "calcn_r"
                 (mkVec3 (of_Z 0) (of_Z 0) (of_Z 0)))) = true.
Proof. vm_compute. reflexivity. Qed.

Lemma applyParametersToModel_other_markers_witness :
  ∃ model',
    applyParametersToModel 6 x_half
      (addMarker footModel "R.Heel.Distal" "calcn_r"
         (mkVec3 (of_Z 0) (of_Z 0) (of_Z 0))) = Ok model'
    ∧ markers model' !! "R.Heel.Distal"
      = Some (mkMarker "calcn_r" (mkVec3 (of_Z 0) (of_Z 0) (of_Z 0))).
Proof.
  pose proof x_half_applies_with_heel as Hok.
  destruct (applyParametersToModel 6 x_half _) as [model'|e] eqn:Hx;
    [|discriminate Hok].
  exists model'. split; [reflexivity|].
  rewrite (applyParametersToModel_other_markers 6 x_half _ model'
             "R.Heel.Distal" Hx).
  - reflexivity.
  - intros i _ Heq. unfold marker_name in Heq. discriminate Heq.
Defined.

(** X19: applying a second vector overwrites all that the first one set:
    after a successful [applyParametersToModel] with [x], applying [y]
    behaves as on the model before (the same model, or the same
    exception). *)
Theorem applyParametersToModel_overwrites n (x y : VectorXd)
    (model model1 : Model) :
  applyParametersToModel n x model = Ok model1 →
  applyParametersToModel n y model1 = applyParametersToModel n y model.
Proof.
  intros Hx.
  apply applyParametersToModel_of_sim.
  by apply applyParametersToModel_sim with x.
Qed.

Lemma applyParametersToModel_overwrites_witness :
  ∃ model1,
    applyParametersToModel 6 x_half footModel = Ok model1
    ∧ applyParametersToModel 6 (replicate 12 (of_Z 1)) model1
      = applyParametersToModel 6 (replicate 12 (of_Z 1)) footModel.
Proof.
  pose proof x_half_applies as Hok.
  destruct (applyParametersToModel 6 x_half footModel) as [model1|e] eqn:Hx;
    [|discriminate Hok].
  exists model1. split; [reflexivity|].
  exact (applyParametersToModel_overwrites 6 x_half (replicate 12 (of_Z 1))
           footModel model1 Hx).
Defined.

(** * Part VI: the contact points of [calibrateContact] *)

Lemma footModel_addContactPoints :
  footModel = addContactPoints 6 (mkModel ∅ []).
Proof. reflexivity. Qed.

Lemma addContactPoint_contacts N (model : Model) i :
  contacts (addContactPoint N model i)
  = contacts model
      ++ [mkContact (marker_name i +:+ "_contact") (of_Z 50000000)
            (of_decimal 95 100) (of_decimal 3 10) (marker_name i)].
Proof. reflexivity. Qed.

Lemma addContactPoint_markers N (model : Model) i :
  markers (addContactPoint N model i)
  = <[marker_name i :=
        mkMarker "calcn_r"
          (mkVec3 (contactPoint_x N i) (of_decimal (-27) 1000) (of_Z 0))]>
      (markers model).
Proof. reflexivity. Qed.

Lemma marker_names_cons i L :
  marker_names (i :: L) = {[marker_name i]} ∪ marker_names L.
Proof. unfold marker_names. by rewrite fmap_cons, list_to_set_cons. Qed.

Lemma marker_names_spec k L :
  k ∈ marker_names L ↔ ∃ i, k = marker_name i ∧ i ∈ L.
Proof.
  unfold marker_names. by rewrite elem_of_list_to_set, list_elem_of_fmap.
Qed.

(** The loop over any list of indices. *)
Lemma addContactPoints_fold N L (model : Model) :
  contacts (fold_left (addContactPoint N) L model)
  = contacts model
      ++ ((λ i, mkContact (marker_name i +:+ "_contact") (of_Z 50000000)
                  (of_decimal 95 100) (of_decimal 3 10) (marker_name i))
            <$> L)
  ∧ (∀ k, k ∉ marker_names L →
       markers (fold_left (addContactPoint N) L model) !! k
       = markers model !! k)
  ∧ (∀ i, i ∈ L →
       markers (fold_left (addContactPoint N) L model) !! marker_name i
       = Some (mkMarker "calcn_r"
                 (mkVec3 (contactPoint_x N i) (of_decimal (-27) 1000)
                    (of_Z 0)))).
Proof.
  revert model. induction L as [|i L IH]; intros model.
  - cbn [fold_left fmap list_fmap]. rewrite app_nil_r.
    split; [done|]. split; [done|]. by intros i ?%elem_of_nil.
  - cbn [fold_left].
    destruct (IH (addContactPoint N model i)) as (Hcs & Hother & Hmk).
    split; [|split].
    + rewrite Hcs, addContactPoint_contacts, fmap_cons, <- app_assoc.
      reflexivity.
    + intros k Hk. rewrite marker_names_cons, not_elem_of_union in Hk.
      destruct Hk as [Hki HkL]. rewrite (Hother k HkL).
      rewrite addContactPoint_markers. apply lookup_insert_ne.
      intros Heq. by apply Hki, elem_of_singleton.
    + intros j Hj. destruct (decide (j ∈ L)) as [HjL|HjL]; [by apply Hmk|].
      apply elem_of_cons in Hj as [->|Hj]; [|done].
      rewrite Hother.
      * rewrite addContactPoint_markers. by rewrite lookup_insert_eq.
      * intros (i' & ->%marker_name_inj & Hi')%marker_names_spec. done.
Qed.

(** X20: the loop of [calibrateContact] that places the contact points,
    for any number of them and on any model without contact elements,
    builds what the calibration expects: the markers [marker0 ..
    marker(n-1)] on the calcaneus at height [-0.027], one contact element
    per marker, in this order, attached to it and with the default
    stiffness [5e7]; other markers are not touched.  On the result
    [initSystem] succeeds, and [applyParametersToModel] succeeds for
    every vector of length [2 * n]. *)
Theorem addContactPoints_ready n (model : Model) :
  0 ≤ n → contacts model = [] →
  model_ready n (addContactPoints n model) = true
  ∧ contacts (addContactPoints n model)
    = ((λ i, mkContact (marker_name i +:+ "_contact") (of_Z 50000000)
               (of_decimal 95 100) (of_decimal 3 10) (marker_name i))
         <$> seqZ 0 n)
  ∧ (∀ i, 0 ≤ i < n →
       markers (addContactPoints n model) !! marker_name i
       = Some (mkMarker "calcn_r"
                 (mkVec3 (contactPoint_x n i) (of_decimal (-27) 1000)
                    (of_Z 0))))
  ∧ (∀ k, (∀ i, 0 ≤ i < n → k ≠ marker_name i) →
       markers (addContactPoints n model) !! k = markers model !! k)
  ∧ initSystem (addContactPoints n model) = Ok (addContactPoints n model)
  ∧ (∀ x : VectorXd, Z.of_nat (length x) = 2 * n →
       ∃ model', applyParametersToModel n x (addContactPoints n model)
                 = Ok model').
Proof.
  intros Hn Hnone. unfold addContactPoints.
  destruct (addContactPoints_fold n (seqZ 0 n) model) as (Hcs & Hother & Hmk).
  rewrite Hnone, app_nil_l in Hcs.
  set (model' := fold_left (addContactPoint n) (seqZ 0 n) model) in *.
  assert (Hmarkers : ∀ i, 0 ≤ i < n →
            markers model' !! marker_name i
            = Some (mkMarker "calcn_r"
                      (mkVec3 (contactPoint_x n i) (of_decimal (-27) 1000)
                         (of_Z 0)))).
  { intros i Hi. apply Hmk, elem_of_seqZ. lia. }
  assert (Hattached :
            forallb (λ c, bool_decide (is_Some (markers model' !! station c)))
              (contacts model') = true).
  { apply forallb_forall. intros c Hc%list_elem_of_In.
    rewrite Hcs in Hc. apply list_elem_of_fmap in Hc as (i & -> & Hi).
    apply elem_of_seqZ in Hi. apply bool_decide_eq_true. cbn [station].
    rewrite Hmarkers by lia. by eexists. }
  assert (Hready : model_ready n model' = true).
  { apply model_ready_spec. split; [|split; [|done]].
    - intros i Hi. rewrite Hmarkers by done. by eexists.
    - rewrite Hcs, length_fmap, length_seqZ. lia. }
  split; [done|]. split; [done|]. split; [done|]. split; [|split].
  - intros k Hk. apply Hother.
    intros (i & -> & Hi%elem_of_seqZ)%marker_names_spec.
    by apply (Hk i); [lia|].
  - by apply initSystem_attached.
  - intros x Hx. apply applyParametersToModel_total; [done|].
    by apply vector_ready_spec.
Qed.

Lemma addContactPoints_ready_witness :
  model_ready 6 footModel = true
  ∧ initSystem footModel = Ok footModel.
Proof.
  rewrite footModel_addContactPoints.
  destruct (addContactPoints_ready 6 (mkModel ∅ []))
    as (Hready & _ & _ & _ & Hinit & _); [lia | reflexivity |].
  split; [exact Hready | exact Hinit].
Defined.

(** * Part VII: [SimTKContactCalibration] *)

Lemma int_wrap_add (a b : Z) : int_wrap (int_wrap a + b) = int_wrap (a + b).
Proof.
  unfold int_wrap. f_equal.
  replace ((a + 2 ^ 31) `mod` 2 ^ 32 - 2 ^ 31 + b + 2 ^ 31)
    with ((a + 2 ^ 31) `mod` 2 ^ 32 + b) by lia.
  rewrite Zplus_mod_idemp_l. f_equal. lia.
Qed.

Lemma int_wrap_small (z : Z) :
  - 2 ^ 31 ≤ z < 2 ^ 31 → int_wrap z = z.
Proof. intros Hz. unfold int_wrap. rewrite Z.mod_small; lia. Qed.

Lemma int_wrap_idem (z : Z) : int_wrap (int_wrap z) = int_wrap z.
Proof.
  replace (int_wrap z) with (int_wrap z + 0) at 1 by lia.
  rewrite int_wrap_add. f_equal. lia.
Qed.

Section WrapperFacts.
Variable calcContactForce :
  Model → AckermannVanDenBogert2010Force → State → Vec3.
Variable getTotalMass : Model → State → double.
Variable gravityNorm : Model → double.

Local Abbreviation evaluationsT :=
  (evaluations calcContactForce getTotalMass gravityNorm).
Local Abbreviation objectiveFuncsT :=
  (objectiveFuncs calcContactForce getTotalMass gravityNorm).
Local Abbreviation calc_objectiveW :=
  (calc_objective calcContactForce getTotalMass gravityNorm).

(** X21: the optimizer-facing wrapper adds nothing to the objective.  A
    sequence of calls of [objectiveFunc] that do not overlap throws
    exactly when the same sequence of [calc_objective] does; otherwise
    the values [f] are those of [calc_objective] and the calibration
    object ends in the same state, every call returns the status 0
    (also for a value that is not a number), the counter ends at its
    initial value plus the number of calls, wrapped to an [int], and the
    line printed by call [k] (from 0) shows the counter after [k + 1]
    calls, the value and the variables. *)
Theorem objectiveFuncs_spec (self : SimTKContactCalibration)
    (calls : list (thread_id * VectorXd)) :
  int_wrap (m_objCount self) = m_objCount self →
  objectiveFuncsT self calls
  = '(prob', vals) ← evaluationsT (m_tropProb self) calls;
    Ok (mkSimTKContactCalibration prob'
          (int_wrap (m_objCount self + Z.of_nat (length calls))),
        imap (λ k cv,
                mkObjectiveOutput 0 cv.2
                  (int_wrap (m_objCount self + Z.of_nat k + 1), cv.2,
                   cv.1.2))
             (zip calls vals)).
Proof.
  revert self. induction calls as [|[tid vars] rest IH]; intros self Hint.
  - cbn. destruct self as [prob c]. cbn in *.
    by rewrite Z.add_0_r, Hint.
  - cbn [objectiveFuncs evaluations]. unfold objectiveFunc.
    destruct (calc_objectiveW (m_tropProb self) tid vars)
      as [[prob1 v]|e] eqn:Hcalc; [|reflexivity].
    cbn [mbind Result_bind].
    rewrite IH by apply int_wrap_idem.
    cbn [m_tropProb m_objCount].
    destruct (evaluationsT prob1 rest) as [[prob2 vs]|e] eqn:Hrest;
      [|reflexivity].
    cbn [mbind Result_bind zip zip_with imap length].
    f_equal. f_equal.
    + f_equal. rewrite int_wrap_add. f_equal. lia.
    + cbn [fst snd]. f_equal.
      * rewrite Nat2Z.inj_0, Z.add_0_r. reflexivity.
      * apply imap_ext. intros k [c v'] _. cbn [compose fst snd].
        rewrite <- Z.add_assoc, int_wrap_add.
        replace (m_objCount self + 1 + (Z.of_nat k + 1))
          with (m_objCount self + Z.of_nat (S k) + 1) by lia.
        reflexivity.
Qed.
End WrapperFacts.

Lemma objectiveFuncs_spec_witness :
  objectiveFuncs law_calcContactForce law_getTotalMass law_gravityNorm
    (mkSimTKContactCalibration (footSession zeroSignal) 0) sessionCalls
  = '(prob', vals) ← evaluations law_calcContactForce law_getTotalMass
                       law_gravityNorm (footSession zeroSignal)
                       sessionCalls;
    Ok (mkSimTKContactCalibration prob'
          (int_wrap (0 + Z.of_nat (length sessionCalls))),
        imap (λ k cv,
                mkObjectiveOutput 0 cv.2
                  (int_wrap (0 + Z.of_nat k + 1), cv.2, cv.1.2))
             (zip sessionCalls vals)).
Proof.
  apply (objectiveFuncs_spec law_calcContactForce law_getTotalMass
           law_gravityNorm
           (mkSimTKContactCalibration (footSession zeroSignal) 0)
           sessionCalls).
  reflexivity.
Defined.

(** * Part VIII: the toy problem of [toyCMAES] *)

Lemma toy_f_Q (x y : Q) :
  (toy_f x y
   == (1 # 2) * (3 * x * x + 4 * x * y + 6 * y * y) - 2 * x + 8 * y)%Q.
Proof. reflexivity. Qed.

(** X22: read on the reals (here: the rationals), the objective of the
    toy problem is bounded below by [-10] and takes that value at
    [(2, -2)] only; on doubles its value there is exactly [-10]. *)
Theorem toy_f_minimum (x y : Q) :
  (-10 <= toy_f x y)%Q
  ∧ ((toy_f x y == -10)%Q ↔ (x == 2)%Q ∧ (y == -2)%Q)
  ∧ toy_f (of_Z 2) (of_Z (-2)) = of_Z (-10).
Proof.
  assert (Hsq : (toy_f x y + 10
                 == (3 # 2) * ((x - 2) + (2 # 3) * (y + 2))
                             * ((x - 2) + (2 # 3) * (y + 2))
                    + (7 # 3) * (y + 2) * (y + 2))%Q).
  { rewrite toy_f_Q. ring. }
  set (t := toy_f x y) in *.
  set (s := (x - 2 + (2 # 3) * (y + 2))%Q) in *.
  set (b := (y + 2)%Q) in *.
  assert (Hs : (0 <= s * s)%Q) by nra.
  assert (Hb : (0 <= b * b)%Q) by nra.
  split; [|split].
  - lra.
  - split.
    + intros Hmin.
      assert (Hb0 : (b * b == 0)%Q) by lra.
      assert (Hs0 : (s * s == 0)%Q) by lra.
      assert (Hb1 : (b == 0)%Q)
        by (destruct (Qmult_integral _ _ Hb0); assumption).
      assert (Hs1 : (s == 0)%Q)
        by (destruct (Qmult_integral _ _ Hs0); assumption).
      unfold s, b in *. split; lra.
    + intros [Hx Hy]. unfold t. rewrite toy_f_Q, Hx, Hy. reflexivity.
  - vm_compute. reflexivity.
Qed.

Lemma calls_of_cons id id0 vars rest :
  calls_of id ((id0, vars) :: rest)
  = ((if decide (id0 = id) then 1 else 0) + calls_of id rest)%nat.
Proof.
  unfold calls_of. rewrite filter_cons. cbn [fst].
  by destruct (decide (id0 = id)).
Qed.

Lemma toy_objectiveFunc_Ok self id vars self' r :
  toy_objectiveFunc self id vars = Ok (self', r) →
  ∃ x y, vars !! 0%nat = Some x ∧ vars !! 1%nat = Some y
    ∧ r = (0, toy_f x y)
    ∧ m_count self' = int_wrap (m_count self + 1)
    ∧ m_map self'
      = <[id := int_wrap (default 0 (m_map self !! id) + 1)]> (m_map self).
Proof.
  unfold toy_objectiveFunc.
  destruct (vec_at vars 0) as [x|] eqn:Hx; [|discriminate].
  destruct (vec_at vars 1) as [y|] eqn:Hy; [|discriminate].
  cbn [mbind Result_bind]. intros Heq%Ok_inj.
  apply vec_at_Ok in Hx as [_ Hx]. apply vec_at_Ok in Hy as [_ Hy].
  exists x, y. split; [exact Hx|]. split; [exact Hy|].
  apply pair_equal_spec in Heq as [<- <-].
  split; [reflexivity|]. split; [reflexivity|]. cbn [m_map].
  case_bool_decide as Hnone.
  - rewrite lookup_insert_eq, Hnone. cbn. by rewrite insert_insert_eq.
  - done.
Qed.

Lemma toy_objectiveFuncs_counts (calls : list (thread_id * VectorXd)) :
  ∀ self self' fs,
    (∀ id v, m_map self !! id = Some v →
       0 ≤ v ∧ v + Z.of_nat (length calls) < 2 ^ 31) →
    Z.of_nat (length calls) < 2 ^ 31 →
    toy_objectiveFuncs self calls = Ok (self', fs) →
    (∀ id,
       m_map self' !! id
       = if decide (calls_of id calls = 0%nat) then m_map self !! id
         else Some (default 0 (m_map self !! id)
                    + Z.of_nat (calls_of id calls)))
    ∧ m_count self'
      = Nat.iter (length calls) (λ c, int_wrap (c + 1)) (m_count self)
    ∧ Forall2 (λ c f, ∃ x y, c.2 !! 0%nat = Some x ∧ c.2 !! 1%nat = Some y
                         ∧ f = toy_f x y) calls fs.
Proof.
  induction calls as [|[id0 vars] rest IH];
    intros self self' fs Hbound Hlen.
  - intros [= <- <-]. split; [|split]; [|done|constructor].
    intros id. by rewrite decide_True.
  - cbn [toy_objectiveFuncs].
    destruct (toy_objectiveFunc self id0 vars) as [[self1 r]|] eqn:H1;
      [|discriminate].
    cbn [mbind Result_bind].
    destruct (toy_objectiveFuncs self1 rest) as [[self2 fs']|] eqn:H2;
      [|discriminate].
    cbn [mbind Result_bind]. intros Heq%Ok_inj.
    injection Heq as <- <-.
    apply toy_objectiveFunc_Ok in H1
      as (x & y & Hx & Hy & -> & Hcount & Hmap).
    assert (Hnew : int_wrap (default 0 (m_map self !! id0) + 1)
                   = default 0 (m_map self !! id0) + 1).
    { apply int_wrap_small. cbn [length] in Hbound, Hlen.
      destruct (m_map self !! id0) as [v|] eqn:Hv; cbn; [|lia].
      destruct (Hbound id0 v Hv). lia. }
    rewrite Hnew in Hmap.
    destruct (IH self1 self2 fs') as (Hids & Hc & Hfs);
      [|cbn [length] in Hlen; lia|done|].
    { intros id v. rewrite Hmap. cbn [length] in Hbound, Hlen.
      destruct (decide (id = id0)) as [->|Hne].
      - rewrite lookup_insert_eq. intros [= <-].
        destruct (m_map self !! id0) as [v|] eqn:Hv; cbn; [|lia].
        destruct (Hbound id0 v Hv). lia.
      - rewrite lookup_insert_ne by done. intros Hv.
        destruct (Hbound id v Hv). lia. }
    split; [|split].
    + intros id. rewrite Hids, calls_of_cons, Hmap.
      destruct (decide (id0 = id)) as [->|Hne].
      * rewrite lookup_insert_eq. rewrite (decide_False (P := (_ + _)%nat = _))
          by lia.
        set (d := default 0 (m_map self !! id)).
        destruct (decide (calls_of id rest = 0%nat)) as [Hzero|_].
        -- rewrite Hzero. apply (f_equal Some). lia.
        -- change (default 0 (Some (d + 1))) with (d + 1).
           apply (f_equal Some). lia.
      * rewrite lookup_insert_ne by done. cbn [Nat.add].
        reflexivity.
    + rewrite Hc, Hcount. cbn [length]. by rewrite Nat.iter_succ_r.
    + constructor; [|done]. exists x, y. by cbn.
Qed.

(** X23: in a run of the toy problem whose calls do not overlap, the map
    of [OptSys], empty at the start, ends with one entry per thread that
    called [objectiveFunc], holding the number of its calls, and no
    other entry; each value [f] is the objective at the two variables of
    its call, whatever the thread and the counters. *)
Theorem toy_objectiveFuncs_per_thread (self self' : OptSys)
    (calls : list (thread_id * VectorXd)) (fs : list double) :
  m_map self = ∅ →
  Z.of_nat (length calls) < 2 ^ 31 →
  toy_objectiveFuncs self calls = Ok (self', fs) →
  (∀ id,
     m_map self' !! id
     = if decide (calls_of id calls = 0%nat) then None
       else Some (Z.of_nat (calls_of id calls)))
  ∧ Forall2 (λ c f, ∃ x y, c.2 !! 0%nat = Some x ∧ c.2 !! 1%nat = Some y
                       ∧ f = toy_f x y) calls fs.
Proof.
  intros Hempty Hlen Hrun.
  destruct (toy_objectiveFuncs_counts calls self self' fs)
    as (Hids & _ & Hfs); [|done|done|].
  { intros id v. rewrite Hempty, lookup_empty. discriminate. }
  split; [|done]. intros id. rewrite Hids, Hempty, lookup_empty.
  destruct (decide _); [done|]. cbn [default]. f_equal.
Qed.

Lemma toy_session_succeeds :
  succeeds
    (toy_objectiveFuncs (mkOptSys 12345 ∅)
       [(1%positive, [of_Z 2; of_Z (-2)]);
        (2%positive, [of_Z 0; of_Z 0]);
        (1%positive, [of_Z 1; of_Z 1])]) = true.
Proof. vm_compute. reflexivity. Qed.

Lemma toy_objectiveFuncs_per_thread_witness :
  ∃ self' fs,
    toy_objectiveFuncs (mkOptSys 12345 ∅)
      [(1%positive, [of_Z 2; of_Z (-2)]);
       (2%positive, [of_Z 0; of_Z 0]);
       (1%positive, [of_Z 1; of_Z 1])] = Ok (self', fs)
    ∧ m_map self' !! 1%positive = Some 2
    ∧ m_map self' !! 2%positive = Some 1
    ∧ m_map self' !! 3%positive = None.
Proof.
  pose proof toy_session_succeeds as Hok.
  set (self := mkOptSys 12345 ∅) in *.
  set (calls := [(1%positive, [of_Z 2; of_Z (-2)]);
                 (2%positive, [of_Z 0; of_Z 0]);
                 (1%positive, [of_Z 1; of_Z 1])]) in *.
  destruct (toy_objectiveFuncs self calls) as [[self' fs]|e] eqn:Hrun;
    [|discriminate Hok].
  exists self', fs. split; [reflexivity|].
  assert (Hlen : Z.of_nat (length calls) < 2 ^ 31) by reflexivity.
  destruct (toy_objectiveFuncs_per_thread self self' calls fs eq_refl
              Hlen Hrun) as [Hids _].
  split; [|split]; rewrite Hids; reflexivity.
Defined.
